(** * vault-service: a shallow embedding of the gateway, its bootstrap,
      the rotation of the signing key and the resilient client.

    The gateway (VaultManager.ts, index.ts) and the client (VaultClient.js,
    SecretManager.js) are asynchronous JavaScript: every [await] is an
    interaction with the outside (the backing store, the network, the clock,
    the random source, the console). A function of the source is embedded
    as a finite tree of such interactions, [prog E A]; a [try]/[catch] is a
    [match] on the answer of the awaited call. A run of a tree against an
    environment yields the result, the final environment and the trace of
    interactions. *)

From stdpp Require Import base option list strings gmap pretty.
From Stdlib Require Import ZArith QArith Qpower Qminmax Lqa Strings.Byte Strings.Ascii.

Set Warnings "-register-all".

Local Open Scope Z_scope.
Local Open Scope string_scope.
Local Open Scope list_scope.

(* ===================================================================== *)
(** ** JavaScript values that travel as JSON *)
(* ===================================================================== *)

Module JS.

(** A JSON value. Numbers are restricted to integers; a property that is
    absent (or [undefined]) is [None] in [jsval]. *)
Inductive json : Type :=
| JNull
| JBool (b : bool)
| JNum (n : Z)
| JStr (s : string)
| JArr (items : list json)
| JObj (fields : list (string * json)).

Definition jsval : Type := option json.

(** An object of the source: a secret document, a request body. *)
Abbreviation doc := (gmap string json).

(** [!v] is [negb (truthy v)]: the falsy values are undefined, null, false,
    0 and the empty string; arrays and objects are truthy, also when empty. *)
Definition truthy (v : jsval) : bool :=
  match v with
  | None => false
  | Some JNull => false
  | Some (JBool b) => b
  | Some (JNum n) => negb (n =? 0)%Z
  | Some (JStr s) => negb (String.eqb s "")
  | Some (JArr _) => true
  | Some (JObj _) => true
  end.

(** [a || b] *)
Definition or_else (a b : jsval) : jsval := if truthy a then a else b.

(** [String(v)], as a template literal applies it. *)
Fixpoint toStringJ (j : json) : string :=
  match j with
  | JNull => "null"
  | JBool true => "true"
  | JBool false => "false"
  | JNum n => pretty n
  | JStr s => s
  | JArr items =>
      String.concat ","
        (map (fun i => match i with JNull => "" | _ => toStringJ i end) items)
  | JObj _ => "[object Object]"
  end.

Definition toString (v : jsval) : string :=
  match v with
  | None => "undefined"
  | Some j => toStringJ j
  end.

(** An [Error] object; only its message is observed. *)
Record error : Type := Error { message : string }.

(** The outcome of an awaited call: resolved or rejected. *)
Inductive result (A : Type) : Type :=
| Ok (a : A)
| Err (e : error).
Arguments Ok {A} a.
Arguments Err {A} e.

Definition is_ok {A} (r : result A) : bool :=
  match r with Ok _ => true | Err _ => false end.

Definition is_err {A} (r : result A) : bool := negb (is_ok r).

(** [buffer.toString('hex')] *)
Definition hex_digit (n : N) : ascii :=
  match n with
  | 0 => "0" | 1 => "1" | 2 => "2" | 3 => "3" | 4 => "4" | 5 => "5"
  | 6 => "6" | 7 => "7" | 8 => "8" | 9 => "9" | 10 => "a" | 11 => "b"
  | 12 => "c" | 13 => "d" | 14 => "e" | _ => "f"
  end%N%char.

Fixpoint toHex (bs : list byte) : string :=
  match bs with
  | [] => ""
  | b :: rest =>
      String (hex_digit (Byte.to_N b / 16))
        (String (hex_digit (Byte.to_N b mod 16)) (toHex rest))
  end.

(** A piece of a console message: the literal text and the interpolated
    values of a template literal, kept apart. *)
Inductive piece : Type :=
| Text (s : string)
| Int (n : Z)
| Millis (q : Q)
| Msg (e : option error).

Inductive level : Type := LLog | LWarn | LError.

(** What the engine decides and the source does not: the [TypeError] it
    throws at an expression evaluated on a value, whether [Number(s) >= n]
    for a string [s], the text [String(parseInt(s) || d)], that text when
    the number is above zero, and the text of the property of a name that
    a plain object inherits, if it inherits one. *)
Record engine : Type := Engine {
  typeError : string -> jsval -> error;
  number_at_least : string -> Z -> bool;
  int_or : string -> Z -> string;
  positive_int_or : string -> Z -> option string;
  inherited : string -> option string
}.

(** How a block of statements completes: normally, or by throwing a value,
    which is [undefined] or an error. *)
Inductive completion (A : Type) : Type :=
| Normal (a : A)
| Throw (thrown : option error).
Arguments Normal {A} a.
Arguments Throw {A} thrown.

(** The value of the last member of a name: [JSON.parse] keeps the last of
    the members that share a name. *)
Fixpoint member (key : string) (fields : list (string * json)) : jsval :=
  match fields with
  | [] => None
  | (k, v) :: rest =>
      match member key rest with
      | Some v' => Some v'
      | None => if String.eqb k key then Some v else None
      end
  end.

(** [v.key] on a parsed value that is neither undefined nor null, for a
    [key] that no prototype defines: the own property of an object,
    undefined on anything else. *)
Definition field (v : json) (key : string) : jsval :=
  match v with
  | JObj fields => member key fields
  | _ => None
  end.

(** [String(v)] on a parsed value, where it exists: the conversion of an
    object that has a member [toString] of its own, which is no function,
    throws, and so does that of an array that holds such an object. *)
Fixpoint textJ (j : json) : option string :=
  match j with
  | JObj fields =>
      match member "toString" fields with
      | Some _ => None
      | None => Some "[object Object]"
      end
  | JArr items =>
      let fix texts (items : list json) : option (list string) :=
        match items with
        | [] => Some []
        | i :: rest =>
            match match i with JNull => Some "" | _ => textJ i end,
                  texts rest with
            | Some s, Some l => Some (s :: l)
            | _, _ => None
            end
        end in
      match texts items with
      | Some l => Some (String.concat "," l)
      | None => None
      end
  | _ => Some (toStringJ j)
  end.

(** [String(v)] on a value, where it exists. *)
Definition text_of (v : jsval) : option string :=
  match v with
  | None => Some "undefined"
  | Some j => textJ j
  end.

(** [v.key] on a parsed value: reading a property of undefined or null
    throws. *)
Definition read (js : engine) (expr : string) (v : jsval) (key : string)
  : completion jsval :=
  match v with
  | None => Throw (Some (typeError js expr None))
  | Some JNull => Throw (Some (typeError js expr (Some JNull)))
  | Some j => Normal (field j key)
  end.

(** [v.name(...)] on a parsed value: [v.name] is never a function. *)
Definition call_method (js : engine) (expr : string) (v : jsval)
    (name : string) (arguments : list jsval) : completion jsval :=
  Throw (Some (typeError js expr v)).

(** [String(v)], as a template literal, [parseInt] and an assignment to
    [process.env] apply it. *)
Definition text (js : engine) (expr : string) (v : jsval)
  : completion string :=
  match text_of v with
  | Some s => Normal s
  | None => Throw (Some (typeError js expr v))
  end.

End JS.
Import JS.

(* ===================================================================== *)
(** ** Programs over an interface of awaited calls *)
(* ===================================================================== *)

Inductive prog (E : Type -> Type) (A : Type) : Type :=
| Ret (a : A)
| Vis {T : Type} (e : E T) (k : T -> prog E A).
Arguments Ret {E A} a.
Arguments Vis {E A T} e k.

Fixpoint bind {E A B} (p : prog E A) (f : A -> prog E B) : prog E B :=
  match p with
  | Ret a => f a
  | Vis e k => Vis e (fun t => bind (k t) f)
  end.

Definition call {E T} (e : E T) : prog E T := Vis e Ret.

Notation "'let*' x ':=' p 'in' q" := (bind p (fun x => q))
  (at level 10, x name, p at level 100, q at level 200).
Notation "'do' p 'then' q" := (bind p (fun _ => q))
  (at level 10, p at level 100, q at level 200).

(** The statements [q] that follow the statements [p] in one block: a
    value thrown by [p] leaves the block. *)
Definition and_then {E : Type -> Type} {A B : Type}
    (p : prog E (completion A)) (q : A -> prog E (completion B))
  : prog E (completion B) :=
  let* r := p in
  match r with
  | Normal a => q a
  | Throw thrown => Ret (Throw thrown)
  end.

Notation "'let?' x ':=' p 'in' q" := (and_then p (fun x => q))
  (at level 10, x name, p at level 100, q at level 200).

(** One interaction of a run: the call and what the environment answered. *)
Inductive obs (E : Type -> Type) : Type :=
| Obs {T : Type} (e : E T) (t : T).
Arguments Obs {E T} e t.

(** An environment: a state and the way it answers each call. *)
Definition handler (E : Type -> Type) (W : Type) : Type :=
  forall T, E T -> W -> T * W.

Fixpoint exec {E W A} (h : handler E W) (p : prog E A) (w : W)
  : A * W * list (obs E) :=
  match p with
  | Ret a => (a, w, [])
  | Vis e k =>
      let '(t, w1) := h _ e w in
      let '(a, w2, tr) := exec h (k t) w1 in
      (a, w2, Obs e t :: tr)
  end.

Definition outcome {E W A} (h : handler E W) (p : prog E A) (w : W) : A :=
  (exec h p w).1.1.
Definition after {E W A} (h : handler E W) (p : prog E A) (w : W) : W :=
  (exec h p w).1.2.
Definition trace {E W A} (h : handler E W) (p : prog E A) (w : W)
  : list (obs E) :=
  (exec h p w).2.

(* ===================================================================== *)
(** ** The gateway: VaultManager *)
(* ===================================================================== *)

Module VaultManager.

(** What [this.vault.health()] resolves with. *)
Record health : Type := Health {
  initialized : jsval;
  sealed : jsval;
  standby : jsval;
  version : jsval
}.

(** The argument of [this.vault.tokenCreate]. *)
Record token_request : Type := TokenRequest {
  policies : jsval;
  ttl : string;
  renewable : bool;
  meta_service : jsval;
  meta_created_at : string
}.

(** A policy: its rules, one per [path] block, with the capabilities. *)
Abbreviation rules := (list (string * list string)).

(** The awaited calls of the gateway: the client of the backing store
    ([this.vault], resolving or rejecting with an [Error]), the random
    sources, the clock, the process environment, timers and the console.
    [VRead] answers with the stored document, [result.data.data];
    [VWrite path data] is [this.vault.write(path, { data })];
    [VTokenCreate] answers with [tokenData.auth.client_token];
    [MathRandomFloor n] is [Math.floor(Math.random() * n)]. *)
Inductive vaultE : Type -> Type :=
| VHealth : vaultE (result health)
| VRead (path : string) : vaultE (result doc)
| VWrite (path : string) (data : doc) : vaultE (result unit)
| VAddPolicy (name : string) (policy : rules) : vaultE (result unit)
| VTokenCreate (req : token_request) : vaultE (result string)
| RandomBytes (length : nat) : vaultE (list byte)
| MathRandomFloor (n : nat) : vaultE nat
| Now : vaultE string
| Getenv (name : string) : vaultE (option string)
| SetTimeout (ms : Z) : vaultE unit
| Console (lvl : level) (msg : list piece) : vaultE unit.

Abbreviation vprog := (prog vaultE).

Record manager : Type := Manager { isInitialized : bool }.

Definition waitForVault_message : string :=
  "Vault is not available after maximum retries".

(** [for (let i = 0; i < maxRetries; i++)], entered at [i] with
    [remaining = maxRetries - i] rounds left. *)
Fixpoint waitForVault_from (i remaining maxRetries : nat)
  : vprog (result unit) :=
  match remaining with
  | O => Ret (Err (Error waitForVault_message))
  | S remaining' =>
      let* r := call VHealth in
      match r with
      | Ok _ =>
          do call (Console LLog [Text "✅ Vault is ready"]) then
          Ret (Ok tt)
      | Err _ =>
          do call (Console LLog
                [Text "⏳ Waiting for Vault... ("; Int (Z.of_nat i + 1);
                 Text "/"; Int (Z.of_nat maxRetries); Text ")"]) then
          do call (SetTimeout 2000) then
          waitForVault_from (S i) remaining' maxRetries
      end
  end.

Definition waitForVault (maxRetries : nat) : vprog (result unit) :=
  waitForVault_from 0 maxRetries maxRetries.

Definition policies_table : list (string * rules) :=
  [ ("transcendence-admin",
      [ ("secret/data/transcendence/*",
          ["create"; "read"; "update"; "delete"; "list"]);
        ("secret/metadata/transcendence/*", ["list"; "delete"]);
        ("auth/token/*", ["create"; "read"; "update"; "delete"; "list"]) ]);
    ("transcendence-service",
      [ ("secret/data/transcendence/database", ["read"]);
        ("secret/data/transcendence/jwt", ["read"]);
        ("secret/data/transcendence/encryption", ["read"]);
        ("secret/data/transcendence/oauth", ["read"]);
        ("secret/data/transcendence/api", ["read"]);
        ("auth/token/lookup-self", ["read"]) ]);
    ("transcendence-auth",
      [ ("secret/data/transcendence/database", ["read"]);
        ("secret/data/transcendence/jwt", ["read"; "update"]);
        ("secret/data/transcendence/oauth", ["read"]) ]);
    ("transcendence-db",
      [ ("secret/data/transcendence/database", ["read"]) ]) ].

(** The body of the loop of [setupPolicies]. *)
Definition installPolicy (entry : string * rules) : vprog unit :=
  let '(name, policy) := entry in
  let* r := call (VAddPolicy name policy) in
  match r with
  | Ok _ =>
      call (Console LLog [Text "📋 Policy '"; Text name; Text "' created"])
  | Err error =>
      call (Console LLog
        [Text "📋 Policy '"; Text name; Text "' already exists or error:";
         Text (message error)])
  end.

Fixpoint for_of {E A} (entries : list A) (body : A -> prog E unit)
  : prog E unit :=
  match entries with
  | [] => Ret tt
  | entry :: rest => do body entry then for_of rest body
  end.

Definition setupPolicies : vprog (result unit) :=
  do for_of policies_table installPolicy then Ret (Ok tt).

(** [crypto.randomBytes(length).toString('hex')] *)
Definition generateSecureKey (length : nat) : vprog string :=
  let* bytes := call (RandomBytes length) in
  Ret (toHex bytes).

Definition charset : string :=
  "ABCDEFGHIJKLMNOPQRSTUVWXYZabcdefghijklmnopqrstuvwxyz0123456789!@#$%^&*".

(** [charset[i]], appended to a string: out of range it is [undefined]. *)
Definition char_at (s : string) (i : nat) : string :=
  match String.get i s with
  | Some c => String c ""
  | None => "undefined"
  end.

Fixpoint generateSecurePassword_from (remaining : nat) (password : string)
  : vprog string :=
  match remaining with
  | O => Ret password
  | S remaining' =>
      let* randomIndex := call (MathRandomFloor (String.length charset)) in
      generateSecurePassword_from remaining'
        (password +:+ char_at charset randomIndex)
  end.

Definition generateSecurePassword (length : nat) : vprog string :=
  generateSecurePassword_from length "".

(** [process.env.NAME || fallback] *)
Definition env_or (name fallback : string) : vprog string :=
  let* v := call (Getenv name) in
  Ret (match v with
       | Some s => if String.eqb s "" then fallback else s
       | None => fallback
       end).

Definition object (fields : list (string * string)) : doc :=
  list_to_map (map (fun '(k, v) => (k, JStr v)) fields).

(** The table [secrets] of [storeInitialSecrets]; its values are computed
    in the order of the source text. *)
Definition initialSecrets : vprog (list (string * doc)) :=
  let* password := generateSecurePassword 24 in
  let* root_password := generateSecurePassword 32 in
  let* jwt_secret := generateSecureKey 64 in
  let* jwt_created_at := call Now in
  let* encryption_key := generateSecureKey 32 in
  let* encryption_created_at := call Now in
  let* google_client_id := env_or "GOOGLE_CLIENT_ID" "your-google-client-id" in
  let* google_env := call (Getenv "GOOGLE_CLIENT_SECRET") in
  let* google_client_secret :=
    match google_env with
    | Some s => if String.eqb s "" then generateSecureKey 32 else Ret s
    | None => generateSecureKey 32
    end in
  let* github_client_id := env_or "GITHUB_CLIENT_ID" "Ov23liYOrKaDhnkpgwvT" in
  let* github_client_secret :=
    env_or "GITHUB_CLIENT_SECRET" "e2761b04180f7b5b2f1199e9dc97d699e8074588" in
  let* github_redirect_uri :=
    env_or "GITHUB_REDIRECT_URI" "https://localhost/oauth/github/callback" in
  let* intra_client_id :=
    env_or "INTRA_CLIENT_ID"
      "u-s4t2ud-2e713f8650a64fa14b4653d833834963aaa8d2191f94adf2ed6090215b3b846b" in
  let* intra_client_secret :=
    env_or "INTRA_CLIENT_SECRET"
      "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" in
  let* intra_redirect_uri :=
    env_or "INTRA_REDIRECT_URI" "https://localhost/oauth/42/callback" in
  let* callback_url_base :=
    env_or "CALLBACK_URL_BASE" "https://localhost/auth/callback" in
  let* oauth_created_at := call Now in
  let* rate_limit_max := env_or "RATE_LIMIT_MAX" "100" in
  let* rate_limit_window := env_or "RATE_LIMIT_WINDOW" "60000" in
  let* cors_origin :=
    env_or "CORS_ORIGIN" "http://localhost:3000,https://localhost" in
  let* session_secret := generateSecureKey 32 in
  let* api_created_at := call Now in
  Ret
    [ ("secret/data/transcendence/database",
        object
          [ ("host", "database-service");
            ("port", "3306");
            ("username", "user");
            ("password", password);
            ("root_password", root_password);
            ("main_database", "transcendence");
            ("shared_database", "transcendence");
            ("url_template",
              "mysql://{username}:{password}@{host}:{port}/{database}") ]);
      ("secret/data/transcendence/jwt",
        object
          [ ("secret", jwt_secret);
            ("algorithm", "HS256");
            ("expiration", "24h");
            ("refresh_expiration", "7d");
            ("issuer", "transcendence");
            ("audience", "transcendence-users");
            ("created_at", jwt_created_at) ]);
      ("secret/data/transcendence/encryption",
        object
          [ ("key", encryption_key);
            ("algorithm", "aes-256-gcm");
            ("iv_length", "16");
            ("created_at", encryption_created_at) ]);
      ("secret/data/transcendence/oauth",
        object
          [ ("google_client_id", google_client_id);
            ("google_client_secret", google_client_secret);
            ("github_client_id", github_client_id);
            ("github_client_secret", github_client_secret);
            ("github_redirect_uri", github_redirect_uri);
            ("intra_client_id", intra_client_id);
            ("intra_client_secret", intra_client_secret);
            ("intra_redirect_uri", intra_redirect_uri);
            ("callback_url_base", callback_url_base);
            ("created_at", oauth_created_at) ]);
      ("secret/data/transcendence/api",
        object
          [ ("rate_limit_max", rate_limit_max);
            ("rate_limit_window", rate_limit_window);
            ("cors_origin", cors_origin);
            ("session_secret", session_secret);
            ("api_version", "1.0.0");
            ("created_at", api_created_at) ]);
      ("secret/data/transcendence/services",
        object
          [ ("auth_service_url", "http://auth-service:3000");
            ("user_service_url", "http://user-service:3001");
            ("game_service_url", "http://game-service:3002");
            ("gateway_service_url", "http://gateway-service:3003");
            ("vault_service_url", "http://vault-service:8300");
            ("auth_service_port", "3000");
            ("user_service_port", "3001");
            ("game_service_port", "3002");
            ("gateway_service_port", "3003");
            ("vault_service_port", "8300") ]);
      ("secret/data/transcendence/game",
        object
          [ ("ws_heartbeat_interval", "30000");
            ("ws_connection_timeout", "60000");
            ("game_tick_rate", "60");
            ("match_timeout", "600000");
            ("matchmaking_timeout", "30000");
            ("max_players_per_game", "4");
            ("force_https", "true");
            ("hsts_max_age", "31536000");
            ("security_headers", "true") ]) ].

(** The body of the loop of [storeInitialSecrets]: the inner [try] probes
    the path, its [catch] writes; the outer [catch] takes a failed write. *)
Definition storeSecret (entry : string * doc) : vprog unit :=
  let '(path, secret) := entry in
  let* probe := call (VRead path) in
  match probe with
  | Ok _ =>
      call (Console LLog [Text "🔒 Secret already exists at "; Text path])
  | Err readError =>
      let* w := call (VWrite path secret) in
      match w with
      | Ok _ => call (Console LLog [Text "🔒 Secret stored at "; Text path])
      | Err error =>
          call (Console LLog
            [Text "🔒 Error handling secret at "; Text path; Text ":";
             Text (message error)])
      end
  end.

Definition storeInitialSecrets : vprog (result unit) :=
  let* secrets := initialSecrets in
  do for_of secrets storeSecret then
  Ret (Ok tt).

(** [try { ... } catch (error) { console.error(...); throw error }] around
    the three phases; a phase that rejects skips the ones after it. *)
Definition initialize (this : manager) : vprog (manager * result unit) :=
  let failed (error : error) : vprog (manager * result unit) :=
    do call (Console LError
          [Text "❌ Vault initialization failed:"; Msg (Some error)]) then
    Ret (this, Err error) in
  do call (Console LLog [Text "🔐 Initializing Vault..."]) then
  let* ready := waitForVault 30 in
  match ready with
  | Err error => failed error
  | Ok _ =>
      let* installed := setupPolicies in
      match installed with
      | Err error => failed error
      | Ok _ =>
          let* stored := storeInitialSecrets in
          match stored with
          | Err error => failed error
          | Ok _ =>
              do call (Console LLog
                    [Text "✅ Vault initialized successfully"]) then
              Ret (Manager true, Ok tt)
          end
      end
  end.

Definition secret_path (path : string) : string :=
  "secret/data/transcendence/" +:+ path.

Definition getSecret (path : string) : vprog (result doc) :=
  let* r := call (VRead (secret_path path)) in
  match r with
  | Ok data => Ret (Ok data)
  | Err error =>
      do call (Console LError
            [Text "❌ Error reading secret from "; Text path; Text ":";
             Msg (Some error)]) then
      Ret (Err error)
  end.

Definition updateSecret (path : string) (data : doc) : vprog (result unit) :=
  let* r := call (VWrite (secret_path path) data) in
  match r with
  | Ok _ =>
      do call (Console LLog
            [Text "✅ Secret updated at transcendence/"; Text path]) then
      Ret (Ok tt)
  | Err error =>
      do call (Console LError
            [Text "❌ Error updating secret at "; Text path; Text ":";
             Msg (Some error)]) then
      Ret (Err error)
  end.

(** [{ ...o, k: v }] as it reaches the store: a property whose value is
    [undefined] is not part of the JSON text of the write. *)
Definition with_property (k : string) (v : jsval) (o : doc) : doc :=
  match v with
  | Some j => <[k := j]> o
  | None => delete k o
  end.

(** The document that [rotateJWTSecret] hands to [updateSecret]. *)
Definition rotated (currentJwt : doc) (newSecret now : string) : doc :=
  with_property "previous_secret" (currentJwt !! "secret")
    (<["rotated_at" := JStr now]>
      (<["secret" := JStr newSecret]> currentJwt)).

Definition rotateJWTSecret : vprog (result string) :=
  let* current := getSecret "jwt" in
  match current with
  | Err error => Ret (Err error)
  | Ok currentJwt =>
      let* newSecret := generateSecureKey 64 in
      let* now := call Now in
      let* updated := updateSecret "jwt" (rotated currentJwt newSecret now) in
      match updated with
      | Err error => Ret (Err error)
      | Ok _ => Ret (Ok newSecret)
      end
  end.


(** What [getHealthStatus] returns: both branches of its [try]/[catch]
    return an object. *)
Inductive health_status : Type :=
| VaultHealthy (initialized sealed standby version : jsval)
| VaultUnhealthy (error : string).

Definition vault_status (s : health_status) : string :=
  match s with
  | VaultHealthy _ _ _ _ => "healthy"
  | VaultUnhealthy _ => "unhealthy"
  end.

Definition getHealthStatus : vprog (result health_status) :=
  let* r := call VHealth in
  match r with
  | Ok health =>
      Ret (Ok (VaultHealthy (initialized health) (sealed health)
                 (standby health) (version health)))
  | Err error => Ret (Ok (VaultUnhealthy (message error)))
  end.

(** The closure [getDatabaseUrl: () => ...] of [getDatabaseConfig]: it has
    no parameter, so the arguments of a call are dropped. *)
Definition getDatabaseUrl_closure (dbSecrets : doc) (arguments : list jsval)
  : string :=
  let database := or_else (dbSecrets !! "shared_database")
                    (Some (JStr "transcendence")) in
  "mysql://" +:+ toString (dbSecrets !! "username") +:+ ":"
    +:+ toString (dbSecrets !! "password") +:+ "@"
    +:+ toString (dbSecrets !! "host") +:+ ":"
    +:+ toString (dbSecrets !! "port") +:+ "/" +:+ toString database.

(** The object returned by [getDatabaseConfig]; its [port],
    [parseInt(dbSecrets.port)], is left out. *)
Record database_config : Type := DatabaseConfig {
  host : jsval;
  username : jsval;
  password : jsval;
  database : jsval;
  getDatabaseUrl : list jsval -> string
}.

Definition getDatabaseConfig : vprog (result database_config) :=
  let* r := getSecret "database" in
  match r with
  | Err error => Ret (Err error)
  | Ok dbSecrets =>
      Ret (Ok {| host := dbSecrets !! "host";
                 username := dbSecrets !! "username";
                 password := dbSecrets !! "password";
                 database := or_else (dbSecrets !! "shared_database")
                               (Some (JStr "transcendence"));
                 getDatabaseUrl := getDatabaseUrl_closure dbSecrets |})
  end.

End VaultManager.

(* ===================================================================== *)
(** ** The gateway: the routes of index.ts *)
(* ===================================================================== *)

Module Server.
Import VaultManager.

(** The JSON bodies the routes send. *)
Inductive body : Type :=
| HealthReport (service status timestamp : string) (vault : health_status)
| HealthFailure (service status timestamp error : string)
| TokenIssued (token : string)
| Done (message : string)
| Failure (error : string).

(** The [status] and [success] properties of a body. *)
Definition status_field (b : body) : option string :=
  match b with
  | HealthReport _ status _ _ => Some status
  | HealthFailure _ status _ _ => Some status
  | _ => None
  end.


(** [res.json(b)] answers 200, [res.status(c).json(b)] answers [c]. *)
Record response : Type := Response { status : Z; sent : body }.

Definition res_json (b : body) : response := Response 200 b.
Definition res_status_json (c : Z) (b : body) : response := Response c b.

(** [app.get('/health', ...)] *)
Definition get_health : vprog response :=
  let* r := getHealthStatus in
  match r with
  | Ok health =>
      let* timestamp := call Now in
      Ret (res_json (HealthReport "vault-service" "healthy" timestamp health))
  | Err error =>
      let* timestamp := call Now in
      Ret (res_status_json 500
             (HealthFailure "vault-service" "unhealthy" timestamp
                (message error)))
  end.

(** [req.body] of [POST /api/tokens/service], destructured. *)
Record token_body : Type := TokenBody {
  serviceName : jsval;
  policies : jsval
}.



(** [app.post('/api/jwt/rotate', ...)] *)
Definition post_jwt_rotate : vprog response :=
  let* r := rotateJWTSecret in
  match r with
  | Ok newSecret => Ret (res_json (Done "JWT secret rotated successfully"))
  | Err error => Ret (res_status_json 500 (Failure (message error)))
  end.

(** [startServer]: the process listens only once [initialize] resolved. *)
Inductive started : Type := Listening | Exited (code : Z).

Definition startServer (this : manager) : vprog (manager * started) :=
  do call (Console LLog [Text "🚀 Starting Vault Service..."]) then
  let* r := initialize this in
  match r with
  | (this', Ok _) => Ret (this', Listening)
  | (this', Err error) =>
      do call (Console LError
            [Text "❌ Failed to start Vault Service:"; Msg (Some error)]) then
      Ret (this', Exited 1)
  end.

End Server.

(* ===================================================================== *)
(** ** The client: SecretManager.js and src/VaultClient.js *)
(* ===================================================================== *)

Module SecretManager.

(** The characters of a string, in order. *)
Abbreviation chars := Strings.String.list_ascii_of_string.

(** ['*'.repeat(n)] *)
Fixpoint repeat_star (n : nat) : string :=
  match n with
  | O => ""
  | S n' => String "*" (repeat_star n')
  end.

(** [maskSecret(secret, visibleChars = 4)]; [substring(0, v)] takes the
    first [v] characters, none for a negative [v], all of them past the
    end. *)
Definition maskSecret (secret : string) (visibleChars : option Z) : string :=
  let visibleChars := default 4 visibleChars in
  if String.eqb secret ""
     || (Z.of_nat (String.length secret) <=? visibleChars)%Z
  then "***"
  else
    let visible := String.substring 0 (Z.to_nat visibleChars) secret in
    let masked :=
      repeat_star
        (Z.to_nat
           (Z.min (Z.of_nat (String.length secret) - visibleChars) 8)) in
    visible +:+ masked.

End SecretManager.

Module VaultClient.

(** What [http.request] delivers for a request of [makeRequest]: an answer
    that ended, with its status and its body [data], or an error of the
    request. [JSON.parse] is the engine's, so what it makes of the body
    comes with the answer: [jsonData], [None] where it throws. *)
Inductive reply : Type :=
| Answered (statusCode : Z) (statusMessage data : string)
    (jsonData : option json)
| Failed (error : JS.error).

(** The awaited calls of the client: the request that [makeRequest] sends,
    [makeHealthRequest], [sleep] and the console. *)
Inductive clientE : Type -> Type :=
| Request (endpoint : string) : clientE reply
| MakeHealthRequest : clientE (result unit)
| Sleep (ms : Q) : clientE unit
| Console (lvl : level) (msg : list piece) : clientE unit.

Abbreviation cprog := (prog clientE).

(** What the promise of [makeRequest] is settled with. An error of the
    request rejects it as it is. At the end of an answer, the [try] block
    parses the body and resolves with it when the status is one of
    success, or rejects with the status and [jsonData.error ||
    res.statusMessage]; whatever is thrown there, by [JSON.parse], by the
    property read on [null] or by the template literal, lands in the
    [catch] block, which rejects with the body as it was received. *)
Definition settled (r : reply) : result json :=
  match r with
  | Failed error => Err error
  | Answered statusCode statusMessage data jsonData =>
      let invalid := Err (Error ("Invalid JSON response: " +:+ data)) in
      match jsonData with
      | None => invalid
      | Some jsonData =>
          if (200 <=? statusCode)%Z && (statusCode <? 300)%Z then Ok jsonData
          else
            match jsonData with
            | JNull => invalid
            | _ =>
                match text_of (or_else (field jsonData "error")
                                 (Some (JStr statusMessage))) with
                | Some reason =>
                    Err (Error ("HTTP " +:+ pretty statusCode +:+ ": "
                                +:+ reason))
                | None => invalid
                end
            end
      end
  end.

(** [makeRequest(endpoint)], as the client calls it: a [GET]. *)
Definition makeRequest (endpoint : string) : cprog (result json) :=
  let* r := call (Request endpoint) in
  Ret (settled r).

(** [response.success], [response.error] and [response.data] on a parsed
    body that is not [null]. *)
Definition success (response : json) : jsval := field response "success".
Definition error (response : json) : jsval := field response "error".
Definition data (response : json) : jsval := field response "data".

(** [config.retryCount || 3] *)
Definition retryCount_of (configured : option nat) : nat :=
  match configured with
  | Some (S n) => S n
  | _ => 3%nat
  end.

(** What a call of [getSecret] ends with: the data it returns, or the value
    it throws, [lastError], which is [undefined] before any attempt. *)
Inductive fetched : Type :=
| Returned (data : jsval)
| Thrown (lastError : option JS.error).

(** The [catch] block of [getSecret] at [attempt], followed by the rest of
    the loop, [next], which is given the new [lastError]. *)
Definition caught (attempt retryCount : nat) (error : option JS.error)
    (next : option JS.error -> cprog fetched) : cprog fetched :=
  if (attempt <? retryCount)%nat then
    do call (Console LWarn
          [Text "⚠️ Secret retrieval failed (attempt ";
           Int (Z.of_nat attempt); Text "/";
           Int (Z.of_nat retryCount); Text "), retrying..."]) then
    do call (Sleep (inject_Z (1000 * Z.of_nat attempt))) then
    next error
  else
    next error.

Section Engine.
Variable js : engine.

(** [if (!response.success) throw new Error(failed + response.error)] and
    [response.data], on what the request was settled with: the statements
    that [getSecret], [getDatabaseConfig] and [getServiceUrls] share. The
    body [null] has no property to read, and [response.error] may have no
    text. *)
Definition unwrap (failed : string) (r : result json) : completion jsval :=
  match r with
  | Ok response =>
      match read js "response.success" (Some response) "success" with
      | Normal success =>
          if negb (truthy success) then
            match text js "response.error" (error response) with
            | Normal reason => Throw (Some (Error (failed +:+ reason)))
            | Throw thrown => Throw thrown
            end
          else Normal (data response)
      | Throw thrown => Throw thrown
      end
  | Err error => Throw (Some error)
  end.

(** [for (let attempt = 1; attempt <= this.retryCount; attempt++)], entered
    at [attempt] with [remaining = retryCount - attempt + 1] rounds left.
    Whatever the [try] block throws lands in the [catch] block as a
    rejected request does. *)
Fixpoint getSecret_from (attempt remaining retryCount : nat) (path : string)
    (lastError : option JS.error) : cprog fetched :=
  match remaining with
  | O =>
      do call (Console LError
            [Text "❌ Failed to retrieve secret from "; Text path;
             Text " after "; Int (Z.of_nat retryCount); Text " attempts"]) then
      Ret (Thrown lastError)
  | S remaining' =>
      let next := getSecret_from (S attempt) remaining' retryCount path in
      let* response := makeRequest ("/api/secrets/" +:+ path) in
      match unwrap "Failed to get secret: " response with
      | Normal data =>
          do call (Console LLog
                [Text "✅ Secret retrieved from path: "; Text path;
                 Text " (attempt "; Int (Z.of_nat attempt); Text ")"]) then
          Ret (Returned data)
      | Throw error => caught attempt retryCount error next
      end
  end.

Definition getSecret (retryCount : nat) (path : string) : cprog fetched :=
  getSecret_from 1 retryCount retryCount path None.

(** [getDatabaseConfig()] *)
Definition getDatabaseConfig : cprog (completion jsval) :=
  let* response := makeRequest "/api/database/config" in
  Ret (unwrap "Failed to get database config: " response).

(** [getServiceUrls()] *)
Definition getServiceUrls : cprog (completion jsval) :=
  let* response := makeRequest "/api/services/urls" in
  Ret (unwrap "Failed to get service URLs: " response).

(** [getDatabaseUrl(database)]: [dbConfig] is what travelled as JSON. *)
Definition getDatabaseUrl (database : string) : cprog (completion jsval) :=
  let? dbConfig := getDatabaseConfig in
  Ret (call_method js "dbConfig.getDatabaseUrl" dbConfig "getDatabaseUrl"
         [Some (JStr database)]).
End Engine.

(** [Math.min(1000 * Math.pow(1.5, i), 10000)], as a rational: below the
    ceiling the product is a dyadic number that a double holds exactly, and
    from [i = 6] on the minimum is the ceiling. *)
Definition waitTime (i : nat) : Q :=
  Qmin (1000 * Qpower (3 # 2) (Z.of_nat i)) 10000.

Definition waitForVault_message : string :=
  "Vault service is not available after maximum retries".

Fixpoint waitForVault_from (serviceName : jsval) (i remaining maxRetries : nat)
  : cprog (result unit) :=
  match remaining with
  | O => Ret (Err (Error waitForVault_message))
  | S remaining' =>
      let* r := call MakeHealthRequest in
      match r with
      | Ok _ =>
          do call (Console LLog
                [Text "✅ Vault service is ready for ";
                 Text (toString serviceName)]) then
          Ret (Ok tt)
      | Err _ =>
          do call (Console LLog
                [Text "⏳ Waiting for Vault service... (";
                 Int (Z.of_nat i + 1); Text "/"; Int (Z.of_nat maxRetries);
                 Text ") - retry in "; Millis (waitTime i); Text "ms"]) then
          do call (Sleep (waitTime i)) then
          waitForVault_from serviceName (S i) remaining' maxRetries
      end
  end.

(** [waitForVault(maxRetries = 30)] *)
Definition waitForVault (serviceName : jsval) (maxRetries : option nat)
  : cprog (result unit) :=
  let maxRetries := default 30%nat maxRetries in
  waitForVault_from serviceName 0 maxRetries maxRetries.

(** [dbMap[serviceName] || 'transcendence'] *)
Definition getServiceDatabase (serviceName : string) : string :=
  if String.eqb serviceName "auth-service" then "auth_db"
  else if String.eqb serviceName "user-service" then "user_db"
  else if String.eqb serviceName "game-service" then "game_db"
  else "transcendence".

End VaultClient.

(* ===================================================================== *)
(** ** The backing store, as the gateway sees it *)
(* ===================================================================== *)

(** The store is not part of the repository. It is modelled as the
    key-value engine the gateway takes it for: documents by path, policies
    by name (creating a policy again replaces it), both reachable or not as
    a whole. A read is rejected when the store is unreachable or the path
    holds no document. The random source, the clock and the process
    environment are streams and tables the run consumes. *)
Module Store.
Import VaultManager.

Record world : Type := World {
  up : bool;
  status : health;
  kv : gmap string doc;
  policies : gmap string rules;
  minted : nat -> string;
  issued : nat;
  entropy : nat -> byte;
  drawn : nat;
  clock : nat -> string;
  ticks : nat;
  env : gmap string string
}.

Definition set_kv (m : gmap string doc) (w : world) : world :=
  World (up w) (status w) m (policies w) (minted w) (issued w)
    (entropy w) (drawn w) (clock w) (ticks w) (env w).

Definition set_policies (m : gmap string rules) (w : world) : world :=
  World (up w) (status w) (kv w) m (minted w) (issued w)
    (entropy w) (drawn w) (clock w) (ticks w) (env w).

Definition issue (w : world) : world :=
  World (up w) (status w) (kv w) (policies w) (minted w) (S (issued w))
    (entropy w) (drawn w) (clock w) (ticks w) (env w).

Definition draw (n : nat) (w : world) : world :=
  World (up w) (status w) (kv w) (policies w) (minted w) (issued w)
    (entropy w) (drawn w + n) (clock w) (ticks w) (env w).

Definition tick (w : world) : world :=
  World (up w) (status w) (kv w) (policies w) (minted w) (issued w)
    (entropy w) (drawn w) (clock w) (S (ticks w)) (env w).

Definition unreachable : error := Error "connect ECONNREFUSED".
Definition not_found : error := Error "Status 404".

(** The next [n] bytes of the random source. *)
Definition next_bytes (n : nat) (w : world) : list byte :=
  map (entropy w) (seq (drawn w) n).

Definition handle : handler vaultE world :=
  fun T e w =>
    match e in vaultE T return T * world with
    | VHealth => (if up w then Ok (status w) else Err unreachable, w)
    | VRead path =>
        (if up w then
           match kv w !! path with
           | Some d => Ok d
           | None => Err not_found
           end
         else Err unreachable, w)
    | VWrite path data =>
        if up w then (Ok tt, set_kv (<[path := data]> (kv w)) w)
        else (Err unreachable, w)
    | VAddPolicy name policy =>
        if up w then (Ok tt, set_policies (<[name := policy]> (policies w)) w)
        else (Err unreachable, w)
    | VTokenCreate _ =>
        if up w then (Ok (minted w (issued w)), issue w)
        else (Err unreachable, w)
    | RandomBytes n => (next_bytes n w, draw n w)
    | MathRandomFloor n =>
        ((N.to_nat (Byte.to_N (entropy w (drawn w))) mod n)%nat, draw 1 w)
    | Now => (clock w (ticks w), tick w)
    | Getenv name => (env w !! name, w)
    | SetTimeout _ => (tt, w)
    | Console _ _ => (tt, w)
    end.

(** One rotation of the signing key, as a step of the store. *)
Definition rotation (w : world) : world := after handle rotateJWTSecret w.

(** The key the next rotation generates, and its time stamp. *)
Definition next_key (w : world) : string := toHex (next_bytes 64 w).
Definition next_stamp (w : world) : string := clock w (ticks w).

Definition jwt_path : string := "secret/data/transcendence/jwt".

End Store.

(* ===================================================================== *)
(** ** What a run lets one observe *)
(* ===================================================================== *)

Module Observe.
Import VaultManager.

(** The answers of the health checks of a gateway run, in order:
    [true] for a check that resolved. *)
Definition health_answer (o : obs vaultE) : option bool :=
  match o with
  | Obs e t =>
      match e in vaultE T return T -> option bool with
      | VHealth => fun t => Some (is_ok t)
      | _ => fun _ => None
      end t
  end.

Definition health_answers (tr : list (obs vaultE)) : list bool :=
  omap health_answer tr.

(** The delays of the timers of a gateway run. *)
Definition timeout (o : obs vaultE) : option Z :=
  match o with
  | Obs e _ =>
      match e with
      | SetTimeout ms => Some ms
      | _ => None
      end
  end.

Definition timeouts (tr : list (obs vaultE)) : list Z := omap timeout tr.

(** The health checks and the timers of a gateway run, in the order they
    were made: the answer of a check, the delay of a timer. *)
Inductive beat : Type :=
| Checked (resolved : bool)
| Paused (ms : Z).

Definition beat_of (o : obs vaultE) : option beat :=
  match o with
  | Obs e t =>
      match e in vaultE T return T -> option beat with
      | VHealth => fun t => Some (Checked (is_ok t))
      | SetTimeout ms => fun _ => Some (Paused ms)
      | _ => fun _ => None
      end t
  end.

Definition beats (tr : list (obs vaultE)) : list beat := omap beat_of tr.

(** The error of a rejected attempt to create a policy or to write a
    document. *)
Definition rejection (o : obs vaultE) : option error :=
  match o with
  | Obs e t =>
      match e in vaultE T return T -> option error with
      | VAddPolicy _ _ => fun t =>
          match t with Err error => Some error | Ok _ => None end
      | VWrite _ _ => fun t =>
          match t with Err error => Some error | Ok _ => None end
      | _ => fun _ => None
      end t
  end.

(** A call that prints a line which carries the text [s]. *)
Definition prints (s : string) (T : Type) (e : vaultE T) : Prop :=
  match e with
  | Console _ msg => Text s ∈ msg
  | _ => False
  end.

(** Every rejected attempt to create a policy or to write a document is
    followed at once by a line of the console that carries the message of
    its error. *)
Fixpoint reported (tr : list (obs vaultE)) : Prop :=
  match tr with
  | [] => True
  | o :: rest =>
      match rejection o, rest with
      | Some error, Obs e _ :: _ => prints (message error) _ e
      | Some _, [] => False
      | None, _ => True
      end /\ reported rest
  end.

(** The calls of a gateway run that reach the backing store. *)
Inductive store_call : Type :=
| CallHealth
| CallRead (path : string)
| CallWrite (path : string) (data : doc)
| CallAddPolicy (name : string) (policy : rules)
| CallTokenCreate (req : token_request).

Definition store_call_of (o : obs vaultE) : option store_call :=
  match o with
  | Obs e _ =>
      match e with
      | VHealth => Some CallHealth
      | VRead path => Some (CallRead path)
      | VWrite path data => Some (CallWrite path data)
      | VAddPolicy name policy => Some (CallAddPolicy name policy)
      | VTokenCreate req => Some (CallTokenCreate req)
      | _ => None
      end
  end.

Definition store_calls (tr : list (obs vaultE)) : list store_call :=
  omap store_call_of tr.

(** The documents written during a gateway run. *)
Definition write_of (o : obs vaultE) : option (string * doc) :=
  match o with
  | Obs e _ =>
      match e with
      | VWrite path data => Some (path, data)
      | _ => None
      end
  end.

Definition writes (tr : list (obs vaultE)) : list (string * doc) :=
  omap write_of tr.

(** The path of a probe that was rejected. *)
Definition failed_read (o : obs vaultE) : option string :=
  match o with
  | Obs e t =>
      match e in vaultE T return T -> option string with
      | VRead path => fun t => if is_ok t then None else Some path
      | _ => fun _ => None
      end t
  end.

(** Every write of the trace comes right after a rejected read of the same
    path; [probe] is the rejected read the trace starts after, if any. *)
Fixpoint guarded_writes (probe : option string) (tr : list (obs vaultE))
  : Prop :=
  match tr with
  | [] => True
  | o :: rest =>
      match write_of o with
      | Some (path, _) => probe = Some path
      | None => True
      end /\ guarded_writes (failed_read o) rest
  end.

Import VaultClient.

(** The steps of a client run that matter for its pace: a request, a wait. *)
Inductive step : Type :=
| Attempt
| Wait (ms : Q).

Definition step_of (o : obs clientE) : option step :=
  match o with
  | Obs e _ =>
      match e with
      | Request _ => Some Attempt
      | MakeHealthRequest => Some Attempt
      | Sleep ms => Some (Wait ms)
      | Console _ _ => None
      end
  end.

Definition steps (tr : list (obs clientE)) : list step := omap step_of tr.

(** The replies to the requests of a client run, in order. *)
Definition attempt_of (o : obs clientE) : option reply :=
  match o with
  | Obs e t =>
      match e in clientE T return T -> option reply with
      | Request _ => fun t => Some t
      | _ => fun _ => None
      end t
  end.

Definition attempts (tr : list (obs clientE)) : list reply :=
  omap attempt_of tr.

(** The answers of the health requests of the client's [waitForVault]. *)
Definition probe_of (o : obs clientE) : option bool :=
  match o with
  | Obs e t =>
      match e in clientE T return T -> option bool with
      | MakeHealthRequest => fun t => Some (is_ok t)
      | _ => fun _ => None
      end t
  end.

Definition probes (tr : list (obs clientE)) : list bool := omap probe_of tr.

Definition sleep_of (o : obs clientE) : option Q :=
  match o with
  | Obs e _ =>
      match e with
      | Sleep ms => Some ms
      | _ => None
      end
  end.

Definition sleeps (tr : list (obs clientE)) : list Q := omap sleep_of tr.

Definition console_of (o : obs clientE) : option (level * list piece) :=
  match o with
  | Obs e _ =>
      match e with
      | Console lvl msg => Some (lvl, msg)
      | _ => None
      end
  end.

Definition console (tr : list (obs clientE)) : list (level * list piece) :=
  omap console_of tr.

(** What the [try] block of [getSecret] makes of the reply to its request:
    the data it returns, or the value that lands in the [catch] block. *)
Definition attempt (js : engine) (r : reply) : completion jsval :=
  unwrap js "Failed to get secret: " (settled r).

(** An attempt that lands in the [catch] block. *)
Definition failing (js : engine) (r : reply) : Prop :=
  exists thrown : option JS.error, attempt js r = Throw thrown.

(** The requests and waits of [getSecret] when no attempt succeeds, from
    attempt [attempt] on with [remaining] attempts left: attempt [k] is
    followed by a wait of [1000 * k] ms, the last attempt by none. *)
Fixpoint schedule (attempt remaining : nat) : list step :=
  match remaining with
  | O => []
  | S O => [Attempt]
  | S remaining' =>
      Attempt :: Wait (inject_Z (1000 * Z.of_nat attempt))
        :: schedule (S attempt) remaining'
  end.

(** The three messages [getSecret] can print, for a path, an attempt number
    and a retry count. *)
Definition retrieved_line (path : string) (attempt : nat)
  : level * list piece :=
  (LLog, [Text "✅ Secret retrieved from path: "; Text path;
          Text " (attempt "; Int (Z.of_nat attempt); Text ")"]).

Definition retrying_line (attempt retryCount : nat) : level * list piece :=
  (LWarn, [Text "⚠️ Secret retrieval failed (attempt ";
           Int (Z.of_nat attempt); Text "/"; Int (Z.of_nat retryCount);
           Text "), retrying..."]).

Definition exhausted_line (path : string) (retryCount : nat)
  : level * list piece :=
  (LError, [Text "❌ Failed to retrieve secret from "; Text path;
            Text " after "; Int (Z.of_nat retryCount); Text " attempts"]).

Definition getSecret_line (path : string) (retryCount : nat)
    (line : level * list piece) : Prop :=
  line = exhausted_line path retryCount
  \/ exists attempt : nat,
       (1 <= attempt <= retryCount)%nat
       /\ (line = retrieved_line path attempt
           \/ line = retrying_line attempt retryCount).

End Observe.

(* ===================================================================== *)
(** ** Reasoning about programs without running them *)
(* ===================================================================== *)

Module Logic.
Import VaultManager.

(** Every call the program can make satisfies [P], whatever it is
    answered. *)
Fixpoint calls_only {E A} (P : forall T, E T -> Prop) (p : prog E A) : Prop :=
  match p with
  | Ret _ => True
  | Vis e k => P _ e /\ forall t, calls_only P (k t)
  end.

(** Every result the program can return satisfies [Q]. *)
Fixpoint returns_only {E A} (Q : A -> Prop) (p : prog E A) : Prop :=
  match p with
  | Ret a => Q a
  | Vis _ k => forall t, returns_only Q (k t)
  end.

Definition performed {E} (P : forall T, E T -> Prop) (o : obs E) : Prop :=
  match o with
  | Obs e _ => P _ e
  end.

(** Calls of the gateway that neither probe the health of the store nor
    set a timer. *)
Definition quiet (T : Type) (e : vaultE T) : Prop :=
  match e with
  | VHealth | SetTimeout _ => False
  | _ => True
  end.

(** Calls of the gateway that neither create a policy nor touch a
    document. *)
Definition idle (T : Type) (e : vaultE T) : Prop :=
  match e with
  | VAddPolicy _ _ | VRead _ | VWrite _ _ => False
  | _ => True
  end.

(** Calls of the gateway that create no policy. *)
Definition no_install (T : Type) (e : vaultE T) : Prop :=
  match e with
  | VAddPolicy _ _ => False
  | _ => True
  end.

(** Calls of the gateway that do not reach the backing store. *)
Definition local (T : Type) (e : vaultE T) : Prop :=
  match e with
  | RandomBytes _ | MathRandomFloor _ | Now | Getenv _ | SetTimeout _
  | Console _ _ => True
  | _ => False
  end.

(** Whatever the program is answered, a rejected attempt to create a
    policy or to write a document is followed by a call, and this call
    prints a line that carries the message of the error. *)
Fixpoint announced {A} (p : vprog A) : Prop :=
  match p with
  | Ret _ => True
  | Vis e k =>
      forall t,
        announced (k t)
        /\ match Observe.rejection (Obs e t) with
           | Some error =>
               match k t with
               | Vis e' _ => Observe.prints (message error) _ e'
               | Ret _ => False
               end
           | None => True
           end
  end.

End Logic.

(* ===================================================================== *)
(** ** What seeding amounts to on a reachable store *)
(* ===================================================================== *)

Module Seeding.
Import VaultManager.

(** The paths of the table of [initialSecrets], in its order. *)
Definition secret_paths : list string :=
  [ "secret/data/transcendence/database";
    "secret/data/transcendence/jwt";
    "secret/data/transcendence/encryption";
    "secret/data/transcendence/oauth";
    "secret/data/transcendence/api";
    "secret/data/transcendence/services";
    "secret/data/transcendence/game" ].

(** The documents of a reachable store after the loop of
    [storeInitialSecrets] over [entries]: an entry is stored when its path
    holds nothing at that moment. *)
Fixpoint seed (entries : list (string * doc)) (m : gmap string doc)
  : gmap string doc :=
  match entries with
  | [] => m
  | (path, secret) :: rest =>
      seed rest
        match m !! path with
        | Some _ => m
        | None => <[path := secret]> m
        end
  end.

(** The entries that loop writes. *)
Fixpoint seeded (entries : list (string * doc)) (m : gmap string doc)
  : list (string * doc) :=
  match entries with
  | [] => []
  | (path, secret) :: rest =>
      match m !! path with
      | Some _ => seeded rest m
      | None => (path, secret) :: seeded rest (<[path := secret]> m)
      end
  end.

(** The policies of a reachable store after the loop of [setupPolicies]. *)
Fixpoint install (table : list (string * rules)) (m : gmap string rules)
  : gmap string rules :=
  match table with
  | [] => m
  | (name, policy) :: rest => install rest (<[name := policy]> m)
  end.

(** The paths probed during a gateway run, in order. *)
Definition read_of (o : obs vaultE) : option string :=
  match o with
  | Obs e _ =>
      match e with
      | VRead path => Some path
      | _ => None
      end
  end.

Definition reads (tr : list (obs vaultE)) : list string := omap read_of tr.

(** The policies the store is asked to create during a gateway run. *)
Definition install_of (o : obs vaultE) : option (string * rules) :=
  match o with
  | Obs e _ =>
      match e with
      | VAddPolicy name policy => Some (name, policy)
      | _ => None
      end
  end.

Definition installs (tr : list (obs vaultE)) : list (string * rules) :=
  omap install_of tr.

End Seeding.

(* ===================================================================== *)
(** ** Some stores to run the gateway against *)
(* ===================================================================== *)

Module Examples.
Import Store.

Definition unsealed : VaultManager.health :=
  VaultManager.Health (Some (JBool true)) (Some (JBool false))
    (Some (JBool false)) (Some (JStr "1.15.2")).

Definition counting (n : nat) : byte :=
  default x00 (Byte.of_N (N.of_nat n mod 256)).

Definition stamps (n : nat) : string :=
  "2025-01-01T00:00:00." +:+ pretty n +:+ "Z".

Definition tokens (n : nat) : string := "hvs." +:+ pretty n.

(** A reachable store that holds nothing yet. *)
Definition fresh : world :=
  World true unsealed ∅ ∅ tokens 0 counting 0 stamps 0 ∅.

(** A store that cannot be reached. *)
Definition offline : world :=
  World false unsealed ∅ ∅ tokens 0 counting 0 stamps 0 ∅.

(** The scenario of the rotation: a signing-key document with secret s1. *)
Definition with_s1 : world :=
  set_kv
    (<[jwt_path := <["secret" := JStr "s1"]>
                     (<["algorithm" := JStr "HS256"]> ∅)]> ∅)
    fresh.

(** A random source that only yields zero bytes, and a signing-key document
    whose secret is the hex text of sixty-four of them. *)
Definition zeros : string := toHex (replicate 64 x00).

Definition colliding : world :=
  World true unsealed
    (<[jwt_path := <["secret" := JStr zeros]> ∅]> ∅) ∅
    tokens 0 (fun _ => x00) 0 stamps 0 ∅.

(** [JSON.stringify], for values whose strings hold no quote, backslash
    or control character. *)
Definition quote : string := String (ascii_of_nat 34) "".

Fixpoint stringify (j : json) : string :=
  match j with
  | JNull => "null"
  | JBool true => "true"
  | JBool false => "false"
  | JNum n => pretty n
  | JStr s => quote +:+ s +:+ quote
  | JArr items => "[" +:+ String.concat "," (map stringify items) +:+ "]"
  | JObj fields =>
      "{" +:+ String.concat ","
                (map (fun member =>
                        quote +:+ member.1 +:+ quote +:+ ":"
                        +:+ stringify member.2) fields)
      +:+ "}"
  end.

(** An answer of the gateway: [res.status(statusCode).json(body)]. *)
Definition answer (statusCode : Z) (statusMessage : string) (body : json)
  : VaultClient.reply :=
  VaultClient.Answered statusCode statusMessage (stringify body) (Some body).

(** The gateway as a client sees it: it answers the requests with the
    replies of a script, in order, and lets them fail once the script is
    over; a health request is resolved by an answer of status 200 and
    rejected by any other reply. *)
Definition scripted : handler VaultClient.clientE (list VaultClient.reply) :=
  fun T e script =>
    match e in VaultClient.clientE T return T * list VaultClient.reply with
    | VaultClient.Request _ =>
        match script with
        | a :: rest => (a, rest)
        | [] => (VaultClient.Failed (Error "socket hang up"), [])
        end
    | VaultClient.MakeHealthRequest =>
        match script with
        | VaultClient.Answered statusCode _ _ _ :: rest =>
            (if (statusCode =? 200)%Z then Ok tt
             else Err (Error ("Health check failed: " +:+ pretty statusCode)),
             rest)
        | VaultClient.Failed e :: rest => (Err e, rest)
        | [] => (Err (Error "connect ECONNREFUSED"), [])
        end
    | VaultClient.Sleep _ => (tt, script)
    | VaultClient.Console _ _ => (tt, script)
    end.

(** The answer of the gateway for a path that holds no document. *)
Definition refused : VaultClient.reply :=
  answer 404 "Not Found"
    (JObj [("success", JBool false); ("error", JStr "Status 404")]).

Definition three_failures : list VaultClient.reply :=
  [VaultClient.Failed (Error "socket hang up"); refused; refused].




(** The answer of the gateway to [GET /api/database/config] for the
    document a first start stores: the configuration as [res.json] sends
    it, without its function. *)
Definition database_config : json :=
  JObj [("success", JBool true);
        ("data",
         JObj [("host", JStr "database-service"); ("port", JNum 3306);
               ("username", JStr "user"); ("password", JStr "pw");
               ("database", JStr "transcendence")])].

(** A request for a token that names no policy at all. *)
Definition no_policies : Server.token_body :=
  Server.TokenBody (Some (JStr "auth-service")) (Some (JArr [])).

End Examples.

(* ===================================================================== *)
(** ** The gateway: the construction of the manager and two more routes *)
(* ===================================================================== *)

Module Gateway.
Import VaultManager.

(** The options [new VaultManager()] hands to the client of the store. *)
Record vault_options : Type := VaultOptions {
  apiVersion : string;
  endpoint : string;
  token : option string
}.

Definition dev_token : string := "vault-root-token".

Definition token_required : string :=
  "VAULT_TOKEN must be provided in production environment".

(** A variable of the process environment that is set and not empty. *)
Definition set_to (v : option string) : option string :=
  match v with
  | Some s => if String.eqb s "" then None else Some s
  | None => None
  end.

(** [getSecureRootToken()]; each [process.env.NAME] is a read of the
    environment. *)
Definition getSecureRootToken : vprog (result (option string)) :=
  let* node_env := call (Getenv "NODE_ENV") in
  match node_env with
  | Some "development" => Ret (Ok (Some dev_token))
  | _ =>
      let* guard := call (Getenv "VAULT_TOKEN") in
      match set_to guard with
      | None => Ret (Err (Error token_required))
      | Some _ =>
          let* provided := call (Getenv "VAULT_TOKEN") in
          Ret (Ok provided)
      end
  end.

(** The constructor: the fields of the options are computed in the order
    of the source text; [process.env.VAULT_TOKEN || this.getSecureRootToken()]
    calls the method only when the variable is unset or empty. *)
Definition construct : vprog (result vault_options) :=
  let* addr := env_or "VAULT_ADDR" "http://vault:8200" in
  let* provided := call (Getenv "VAULT_TOKEN") in
  match set_to provided with
  | Some t => Ret (Ok (VaultOptions "v1" addr (Some t)))
  | None =>
      let* r := getSecureRootToken in
      match r with
      | Ok t => Ret (Ok (VaultOptions "v1" addr t))
      | Err error => Ret (Err error)
      end
  end.

(** [getServiceUrls()] *)
Definition getServiceUrls : vprog (result doc) := getSecret "services".

(** [isReady()] *)
Definition isReady (this : manager) : bool := isInitialized this.

(** The bodies of the routes that carry a document. *)
Inductive payload : Type :=
| Data (data : doc)
| Failed (error : string).

Record reply : Type := Reply { code : Z; sent : payload }.

(** [app.get('/api/secrets/:path', ...)] *)
Definition get_secret (path : string) : vprog reply :=
  let* r := getSecret path in
  match r with
  | Ok secrets => Ret (Reply 200 (Data secrets))
  | Err error => Ret (Reply 404 (Failed (message error)))
  end.

(** [app.get('/api/services/urls', ...)] *)
Definition get_services_urls : vprog reply :=
  let* r := getServiceUrls in
  match r with
  | Ok urls => Ret (Reply 200 (Data urls))
  | Err error => Ret (Reply 500 (Failed (message error)))
  end.

(** The random draws of a gateway run: the bounds asked of
    [Math.floor(Math.random() * n)] with the index drawn, and the sizes
    asked of [crypto.randomBytes] with the bytes drawn. *)
Definition index_of (o : obs vaultE) : option (nat * nat) :=
  match o with
  | Obs e t =>
      match e in vaultE T return T -> option (nat * nat) with
      | MathRandomFloor n => fun t => Some (n, t)
      | _ => fun _ => None
      end t
  end.

Definition bytes_of (o : obs vaultE) : option (nat * list byte) :=
  match o with
  | Obs e t =>
      match e in vaultE T return T -> option (nat * list byte) with
      | RandomBytes n => fun t => Some (n, t)
      | _ => fun _ => None
      end t
  end.

(** The random sources behave during a run: an index is below its bound,
    and as many bytes come as were asked for. *)
Definition fair (tr : list (obs vaultE)) : Prop :=
  Forall (fun d : nat * nat => (d.2 < d.1)%nat) (omap index_of tr)
  /\ Forall (fun d : nat * list byte => length d.2 = d.1) (omap bytes_of tr).

(** The characters of a string all belong to an alphabet. *)
Definition over (alphabet s : string) : Prop :=
  Forall (fun c => c ∈ SecretManager.chars alphabet) (SecretManager.chars s).

Definition hex_alphabet : string := "0123456789abcdef".

(** Calls of the gateway that never ask for an index below zero. *)
Definition bounded (T : Type) (e : vaultE T) : Prop :=
  match e with
  | MathRandomFloor n => n <> 0%nat
  | _ => True
  end.

Definition database_path : string := "secret/data/transcendence/database".

(** The sum of the delays of a run. *)
Definition total (delays : list Q) : Q := foldr Qplus 0%Q delays.

(** The lines the gateway prints during a run. *)
Definition printed_of (o : obs vaultE) : option (level * list piece) :=
  match o with
  | Obs e _ =>
      match e with
      | Console lvl msg => Some (lvl, msg)
      | _ => None
      end
  end.

Definition printed (tr : list (obs vaultE)) : list (level * list piece) :=
  omap printed_of tr.

(** The delay of a step of the client, if it is a wait. *)
Definition wait_of (s : Observe.step) : option Q :=
  match s with
  | Observe.Attempt => None
  | Observe.Wait ms => Some ms
  end.

End Gateway.

(* ===================================================================== *)
(** ** The client side: the rest of SecretManager.js *)
(* ===================================================================== *)

Module Secrets.

(** A string stands for the sequence of its UTF-16 code units, each below
    256. *)

(** The calls into [crypto] that draw randomness. *)
Inductive cryptoE : Type -> Type :=
| RandomBytes (size : nat) : cryptoE (list byte)
| RandomUUID : cryptoE string
| RandomInt (min max : Z) : cryptoE Z.

Abbreviation kprog := (prog cryptoE).

(** [generateSecureToken(length = 32)] *)
Definition generateSecureToken (length : option nat) : kprog string :=
  let* bytes := call (RandomBytes (default 32%nat length)) in
  Ret (toHex bytes).

(** [generateUUID()] *)
Definition generateUUID : kprog string := call RandomUUID.

Definition charset : string :=
  "ABCDEFGHIJKLMNOPQRSTUVWXYZabcdefghijklmnopqrstuvwxyz0123456789!@#$%^&*".

(** [charset[i]], appended to a string, for a number [i]. *)
Definition char_at (s : string) (i : Z) : string :=
  if (i <? 0)%Z then "undefined" else VaultManager.char_at s (Z.to_nat i).

Fixpoint generateSecurePassword_from (remaining : nat) (password : string)
  : kprog string :=
  match remaining with
  | O => Ret password
  | S remaining' =>
      let* randomIndex :=
        call (RandomInt 0 (Z.of_nat (String.length charset))) in
      generateSecurePassword_from remaining'
        (password +:+ char_at charset randomIndex)
  end.

(** [generateSecurePassword(length = 16)] *)
Definition generateSecurePassword (length : option nat) : kprog string :=
  generateSecurePassword_from (default 16%nat length) "".

Section Hashing.
(** [crypto.pbkdf2Sync(data, salt, 10000, 64, 'sha512').toString('hex')],
    a function of the data and the salt. *)
Variable pbkdf2 : string -> string -> string.

(** [hashWithSalt(data, salt = null)]: an empty salt counts as none. *)
Definition hashWithSalt (data : string) (salt : option string)
  : kprog (string * string) :=
  let* salt :=
    match Gateway.set_to salt with
    | Some s => Ret s
    | None =>
        let* bytes := call (RandomBytes 16) in
        Ret (toHex bytes)
    end in
  Ret (pbkdf2 data salt, salt).

(** [verifyHash(data, hash, salt)] *)
Definition verifyHash (data hash : string) (salt : option string)
  : kprog bool :=
  let* computed := hashWithSalt data salt in
  Ret (String.eqb computed.1 hash).
End Hashing.

(** The character classes of [validatePasswordStrength]. *)
Definition between (lo hi : nat) (c : ascii) : bool :=
  (lo <=? nat_of_ascii c)%nat && (nat_of_ascii c <=? hi)%nat.

Definition isUppercase : ascii -> bool := between 65 90.
Definition isLowercase : ascii -> bool := between 97 122.
Definition isNumber : ascii -> bool := between 48 57.

(** The class of special characters of the source; its double quote is
    the character 34. *)
Definition specialChars : list ascii :=
  ascii_of_nat 34 :: SecretManager.chars "!@#$%^&*()_+-=[]{};':\|,.<>/?".

Definition isSpecialChar (c : ascii) : bool :=
  existsb (Ascii.eqb c) specialChars.

(** [regex.test(password)] for a class of single characters. *)
Definition test (class : ascii -> bool) (password : string) : bool :=
  existsb class (SecretManager.chars password).

Record requirements : Type := Requirements {
  minLength : bool;
  hasUppercase : bool;
  hasLowercase : bool;
  hasNumbers : bool;
  hasSpecialChars : bool
}.

Record strength : Type := Strength {
  valid : bool;
  score : nat;
  required : requirements
}.

(** [Object.values(result.requirements).filter(Boolean).length] *)
Definition met (r : requirements) : nat :=
  length (List.filter (fun b : bool => b)
            [minLength r; hasUppercase r; hasLowercase r; hasNumbers r;
             hasSpecialChars r]).

(** [validatePasswordStrength(password)] *)
Definition validatePasswordStrength (password : string) : strength :=
  if String.eqb password "" then
    Strength false 0 (Requirements false false false false false)
  else
    let requirements :=
      Requirements (12 <=? String.length password)%nat
        (test isUppercase password) (test isLowercase password)
        (test isNumber password) (test isSpecialChar password) in
    Strength ((4 <=? met requirements)%nat && minLength requirements)
      (met requirements) requirements.

(** The number of character classes, out of the four, that a password
    draws from. *)
Definition classes (password : string) : nat :=
  length (List.filter (fun b : bool => b)
            [test isUppercase password; test isLowercase password;
             test isNumber password; test isSpecialChar password]).

(** The indices drawn by [crypto.randomInt] during a run, with their
    bounds, and the bytes drawn with the sizes asked. *)
Definition int_of (o : obs cryptoE) : option (Z * Z * Z) :=
  match o with
  | Obs e t =>
      match e in cryptoE T return T -> option (Z * Z * Z) with
      | RandomInt lo hi => fun t => Some (lo, hi, t)
      | _ => fun _ => None
      end t
  end.

Definition bytes_of (o : obs cryptoE) : option (nat * list byte) :=
  match o with
  | Obs e t =>
      match e in cryptoE T return T -> option (nat * list byte) with
      | RandomBytes n => fun t => Some (n, t)
      | _ => fun _ => None
      end t
  end.

(** [crypto.randomInt(min, max)] answers within [min <= n < max], and
    [crypto.randomBytes(size)] with [size] bytes. *)
Definition fair (tr : list (obs cryptoE)) : Prop :=
  Forall (fun d : Z * Z * Z => (d.1.1 <= d.2 < d.1.2)%Z) (omap int_of tr)
  /\ Forall (fun d : nat * list byte => length d.2 = d.1) (omap bytes_of tr).

(** A source of randomness to run the generators against: a stream of
    bytes, read from a position. *)
Definition draw : handler cryptoE (nat * (nat -> byte)) :=
  fun T e w =>
    match e in cryptoE T return T * (nat * (nat -> byte)) with
    | RandomBytes n => (map w.2 (seq w.1 n), ((w.1 + n)%nat, w.2))
    | RandomUUID => ("00000000-0000-4000-8000-000000000000", w)
    | RandomInt lo hi =>
        ((lo + Z.of_N (Byte.to_N (w.2 w.1)) mod (hi - lo))%Z,
         (S w.1, w.2))
    end.

End Secrets.

(* ===================================================================== *)
(** ** The client side: the loader of src/VaultClient.js *)
(* ===================================================================== *)

(** A program over one interface, run as a part of a program over a larger
    one. *)
Fixpoint lift {E F : Type -> Type} {A : Type} (f : forall T, E T -> F T)
    (p : prog E A) : prog F A :=
  match p with
  | Ret a => Ret a
  | Vis e k => Vis (f _ e) (fun t => lift f (k t))
  end.

(** The handler that answers the part as it answers the whole, and a call
    of the part as it is seen in the whole. *)
Definition within {E F : Type -> Type} {W : Type} (f : forall T, E T -> F T)
    (h : handler F W) : handler E W :=
  fun T e => h T (f T e).

Definition seen {E F : Type -> Type} (f : forall T, E T -> F T) (o : obs E)
  : obs F :=
  match o with
  | Obs e t => Obs (f _ e) t
  end.

Module Loader.
Import VaultClient.

(** [process.env], read and assigned. *)
Inductive envE : Type -> Type :=
| GetEnv (name : string) : envE (option string)
| SetEnv (name value : string) : envE unit.

(** The calls of the loader: those of the client, those of [crypto] and
    those of the environment. *)
Inductive loadE (T : Type) : Type :=
| Client (e : clientE T)
| Crypto (e : Secrets.cryptoE T)
| Env (e : envE T).
Arguments Client {T} e.
Arguments Crypto {T} e.
Arguments Env {T} e.

Abbreviation lprog := (prog loadE).

(** [v.length] on a truthy parsed value. *)
Definition length_of (v : json) : jsval :=
  match v with
  | JStr s => Some (JNum (Z.of_nat (String.length s)))
  | JArr items => Some (JNum (Z.of_nat (length items)))
  | JObj fields => member "length" fields
  | _ => None
  end.

Section Engine.
Variable js : engine.

(** [v.startsWith(prefix)]: only a string has the method. *)
Definition startsWith (expr : string) (v : jsval) (prefix : string)
  : completion bool :=
  match v with
  | Some (JStr s) => Normal (Strings.String.prefix prefix s)
  | _ => Throw (Some (typeError js expr v))
  end.

(** [x >= n] for a number [n]: an object or an array is compared through
    its text. *)
Definition at_least (expr : string) (x : jsval) (n : Z) : completion bool :=
  match x with
  | None => Normal false
  | Some JNull => Normal (n <=? 0)%Z
  | Some (JBool b) => Normal (n <=? (if b then 1 else 0))%Z
  | Some (JNum k) => Normal (n <=? k)%Z
  | Some (JStr s) => Normal (number_at_least js s n)
  | Some (JArr items) =>
      match textJ (JArr items) with
      | Some s => Normal (number_at_least js s n)
      | None => Throw (Some (typeError js expr x))
      end
  | Some (JObj fields) =>
      match textJ (JObj fields) with
      | Some _ => Normal false
      | None => Throw (Some (typeError js expr x))
      end
  end.

(** [error.message] in a [catch] block. *)
Definition message_of (thrown : option JS.error) : completion string :=
  match thrown with
  | Some error => Normal (message error)
  | None => Throw (Some (typeError js "error.message" None))
  end.

Definition say (lvl : level) (msg : list piece) : lprog (completion unit) :=
  do call (Client (Console lvl msg)) then
  Ret (Normal tt).

(** [process.env[name] = value]: the value is turned into a string. *)
Definition assign (name : string) (value : jsval) : lprog (completion unit) :=
  match text js name value with
  | Normal s =>
      do call (Env (SetEnv name s)) then
      Ret (Normal tt)
  | Throw t => Ret (Throw t)
  end.

(** A pure expression, as a statement. *)
Definition eval {A : Type} (c : completion A) : lprog (completion A) := Ret c.

(** A [catch] block that only warns, with a text and [error.message]. *)
Definition warn (text : string) (thrown : option JS.error)
  : lprog (completion unit) :=
  let? message := eval (message_of thrown) in
  say LWarn [Text text; Text message].

(** [try { body } catch (error) { handler }] *)
Definition try_catch {A : Type} (body : lprog (completion A))
    (handler : option JS.error -> lprog (completion A))
  : lprog (completion A) :=
  let* r := body in
  match r with
  | Normal a => Ret (Normal a)
  | Throw thrown => handler thrown
  end.

(** The first block: the configuration of the database. *)
Definition load_database (serviceName : string) : lprog (completion unit) :=
  try_catch
    (let? dbConfig := lift (@Client) (getDatabaseConfig js) in
     let? dbUrl :=
       eval (call_method js "dbConfig.getDatabaseUrl" dbConfig "getDatabaseUrl"
               [Some (JStr (getServiceDatabase serviceName))]) in
     let? valid :=
       eval (if truthy dbUrl
             then startsWith "dbUrl.startsWith" dbUrl "mysql://"
             else Normal false) in
     if valid : bool then
       let? _ := assign "DATABASE_URL" dbUrl in
       say LLog [Text "✅ Database configuration loaded for ";
                 Text (getServiceDatabase serviceName)]
     else Ret (Throw (Some (Error "Invalid database URL format"))))
    (warn "⚠️ Failed to load database config from Vault: ").

(** [url && (url.startsWith('http://') || url.startsWith('https://'))] *)
Definition is_http (url : jsval) : completion bool :=
  if truthy url then
    match startsWith "url.startsWith" url "http://" with
    | Normal true => Normal true
    | Normal false => startsWith "url.startsWith" url "https://"
    | Throw t => Throw t
    end
  else Normal false.

(** [for (const [envVar, url] of Object.entries(urlMap))] *)
Fixpoint assign_urls (urlMap : list (string * jsval))
  : lprog (completion unit) :=
  match urlMap with
  | [] => Ret (Normal tt)
  | (envVar, url) :: rest =>
      let? http := eval (is_http url) in
      if http : bool then
        let? _ := assign envVar url in
        assign_urls rest
      else assign_urls rest
  end.

(** The second block: the addresses of the services. The four properties
    are read before the loop starts. *)
Definition load_urls : lprog (completion unit) :=
  try_catch
    (let? serviceUrls := lift (@Client) (getServiceUrls js) in
     let? auth :=
       eval (read js "serviceUrls.auth_service_url" serviceUrls
               "auth_service_url") in
     let? user :=
       eval (read js "serviceUrls.user_service_url" serviceUrls
               "user_service_url") in
     let? game :=
       eval (read js "serviceUrls.game_service_url" serviceUrls
               "game_service_url") in
     let? gateway :=
       eval (read js "serviceUrls.gateway_service_url" serviceUrls
               "gateway_service_url") in
     let? _ :=
       assign_urls [("AUTH_SERVICE_URL", auth); ("USER_SERVICE_URL", user);
                    ("GAME_SERVICE_URL", game);
                    ("GATEWAY_SERVICE_URL", gateway)] in
     say LLog [Text "✅ Service URLs loaded from Vault"])
    (warn "⚠️ Failed to load service URLs from Vault: ").

(** [await vaultClient.getSecret(path)] for the client the loader
    constructs, which has no retry count of its own. *)
Definition awaitSecret (path : string) : lprog (completion jsval) :=
  let* r := lift (@Client) (getSecret js (retryCount_of None) path) in
  match r with
  | Returned data => Ret (Normal data)
  | Thrown lastError => Ret (Throw lastError)
  end.

(** [jwtSecrets.secret && jwtSecrets.secret.length >= 32] *)
Definition long_enough (secret : jsval) : completion bool :=
  match secret with
  | Some s =>
      if truthy secret
      then at_least "jwtSecrets.secret.length" (length_of s) 32
      else Normal false
  | None => Normal false
  end.

(** The signing key as the gateway holds it: the statements of the third
    block that follow its request. *)
Definition adopt_jwt (jwtSecrets : jsval) : lprog (completion unit) :=
  let? secret := eval (read js "jwtSecrets.secret" jwtSecrets "secret") in
  let? long := eval (long_enough secret) in
  if long : bool then
    let? _ := assign "JWT_SECRET" secret in
    let? algorithm :=
      eval (read js "jwtSecrets.algorithm" jwtSecrets "algorithm") in
    let? _ :=
      assign "JWT_ALGORITHM" (or_else algorithm (Some (JStr "HS256"))) in
    let? expiration :=
      eval (read js "jwtSecrets.expiration" jwtSecrets "expiration") in
    let? _ :=
      assign "JWT_EXPIRATION" (or_else expiration (Some (JStr "24h"))) in
    let? shown := eval (text js "jwtSecrets.algorithm" algorithm) in
    say LLog [Text "✅ JWT secrets loaded (algorithm: "; Text shown;
              Text ")"]
  else Ret (Throw (Some (Error "JWT secret too short or missing"))).

(** A signing key of its own: the [catch] block of the third block. *)
Definition generate_jwt (thrown : option JS.error)
  : lprog (completion unit) :=
  let? _ := warn "⚠️ Failed to load JWT secrets: " thrown in
  let? _ :=
    say LWarn [Text "🔧 Generating temporary JWT secret for development"] in
  let* token := lift (@Crypto) (Secrets.generateSecureToken (Some 32%nat)) in
  let? _ := assign "JWT_SECRET" (Some (JStr token)) in
  let? _ := assign "JWT_ALGORITHM" (Some (JStr "HS256")) in
  assign "JWT_EXPIRATION" (Some (JStr "24h")).

(** The third block, of the service [auth-service] only: the signing key,
    from the gateway or generated. *)
Definition load_jwt : lprog (completion unit) :=
  try_catch
    (let? jwtSecrets := awaitSecret "jwt" in
     adopt_jwt jwtSecrets)
    generate_jwt.

(** [process.env[name] = String(parseInt(v) || d)] *)
Definition assign_int (name expr : string) (v : jsval) (d : Z)
  : lprog (completion unit) :=
  let? s := eval (text js expr v) in
  assign name (Some (JStr (int_or js s d))).

(** The fourth block: the settings of the API. *)
Definition load_api : lprog (completion unit) :=
  try_catch
    (let? apiConfig := awaitSecret "api" in
     let? rate_limit_max :=
       eval (read js "apiConfig.rate_limit_max" apiConfig "rate_limit_max") in
     let? _ :=
       assign_int "RATE_LIMIT_MAX" "apiConfig.rate_limit_max"
         rate_limit_max 100 in
     let? rate_limit_window :=
       eval (read js "apiConfig.rate_limit_window" apiConfig
               "rate_limit_window") in
     let? _ :=
       assign_int "RATE_LIMIT_WINDOW" "apiConfig.rate_limit_window"
         rate_limit_window 60000 in
     let? cors_origin :=
       eval (read js "apiConfig.cors_origin" apiConfig "cors_origin") in
     let? _ := assign "CORS_ORIGIN" (or_else cors_origin (Some (JStr "*"))) in
     say LLog [Text "✅ API configuration loaded from Vault"])
    (warn "⚠️ Failed to load API config: ").

(** [parseInt(gameConfig[key]) || d], kept as the text it has when it is
    above zero. *)
Definition setting (gameConfig : jsval) (key : string) (d : Z)
  : completion (option string) :=
  match read js ("gameConfig." +:+ key) gameConfig key with
  | Normal v =>
      match text js ("gameConfig." +:+ key) v with
      | Normal s => Normal (positive_int_or js s d)
      | Throw t => Throw t
      end
  | Throw t => Throw t
  end.

(** [for (const [key, value] of Object.entries(gameSettings))] *)
Fixpoint assign_settings (gameSettings : list (string * option string))
  : lprog (completion unit) :=
  match gameSettings with
  | [] => Ret (Normal tt)
  | (key, Some value) :: rest =>
      let? _ := assign key (Some (JStr value)) in
      assign_settings rest
  | (key, None) :: rest => assign_settings rest
  end.

(** The fifth block, of the service [game-service] only. The five
    settings are computed before the loop starts. *)
Definition load_game : lprog (completion unit) :=
  try_catch
    (let? gameConfig := awaitSecret "game" in
     let? heartbeat :=
       eval (setting gameConfig "ws_heartbeat_interval" 30000) in
     let? connection :=
       eval (setting gameConfig "ws_connection_timeout" 60000) in
     let? tick_rate := eval (setting gameConfig "game_tick_rate" 60) in
     let? match_timeout := eval (setting gameConfig "match_timeout" 600000) in
     let? matchmaking :=
       eval (setting gameConfig "matchmaking_timeout" 30000) in
     let? _ :=
       assign_settings
         [("WS_HEARTBEAT_INTERVAL", heartbeat);
          ("WS_CONNECTION_TIMEOUT", connection);
          ("GAME_TICK_RATE", tick_rate);
          ("MATCH_TIMEOUT", match_timeout);
          ("MATCHMAKING_TIMEOUT", matchmaking)] in
     say LLog [Text "✅ Game configuration loaded from Vault"])
    (warn "⚠️ Failed to load game config: ").

(** [portMap[serviceName]]: an own property, or else an inherited one. *)
Definition portMap (serviceName : string) : option string :=
  if String.eqb serviceName "auth-service" then Some "3000"
  else if String.eqb serviceName "user-service" then Some "3001"
  else if String.eqb serviceName "game-service" then Some "3002"
  else if String.eqb serviceName "gateway-service" then Some "3003"
  else inherited js serviceName.

(** The [catch] block of the loader. *)
Definition fallback (serviceName : string) (thrown : option JS.error)
  : lprog (completion unit) :=
  let? message := eval (message_of thrown) in
  let? _ :=
    say LError [Text "❌ Failed to load environment from Vault for ";
                Text serviceName; Text ":"; Text message] in
  let? _ := say LWarn [Text "🔧 Using fallback configuration..."] in
  let* port := call (Env (GetEnv "PORT")) in
  match Gateway.set_to port with
  | Some _ => Ret (Normal tt)
  | None =>
      assign "PORT" (Some (JStr (default "3000" (portMap serviceName))))
  end.

(** The five blocks of [loadEnvFromVault] that follow the wait. *)
Definition settings (serviceName : string) : lprog (completion unit) :=
  let? _ := load_database serviceName in
  let? _ := load_urls in
  let? _ :=
    if String.eqb serviceName "auth-service" then load_jwt
    else Ret (Normal tt) in
  let? _ := load_api in
  if String.eqb serviceName "game-service" then load_game
  else Ret (Normal tt).

(** The statements of [loadEnvFromVault] that follow the wait. *)
Definition loaded (serviceName : string) : lprog (completion unit) :=
  let? _ := settings serviceName in
  let? _ :=
    match portMap serviceName with
    | Some port => assign "PORT" (Some (JStr port))
    | None => Ret (Normal tt)
    end in
  say LLog [Text "✅ Environment variables loaded from Vault for ";
            Text serviceName].

(** [await vaultClient.waitForVault()] *)
Definition ready (serviceName : string) : lprog (completion unit) :=
  let* r := lift (@Client) (waitForVault (Some (JStr serviceName)) None) in
  match r with
  | Ok _ => Ret (Normal tt)
  | Err error => Ret (Throw (Some error))
  end.

(** [loadEnvFromVault(serviceName)] *)
Definition loadEnvFromVault (serviceName : string) : lprog (completion unit) :=
  try_catch
    (let? _ :=
       say LLog [Text "🔐 Loading environment variables for ";
                 Text serviceName; Text " from Vault..."] in
     let? _ := ready serviceName in
     loaded serviceName)
    (fallback serviceName).
End Engine.

(** The names the loader assigns, in order, and the requests it makes. *)
Definition assigned_of (o : obs loadE) : option (string * string) :=
  match o with
  | Obs e _ =>
      match e with
      | Env (SetEnv name value) => Some (name, value)
      | _ => None
      end
  end.

Definition assigned (tr : list (obs loadE)) : list (string * string) :=
  omap assigned_of tr.

Definition request_of (o : obs loadE) : option string :=
  match o with
  | Obs e _ =>
      match e with
      | Client (Request endpoint) => Some endpoint
      | _ => None
      end
  end.

Definition requests (tr : list (obs loadE)) : list string :=
  omap request_of tr.

(** The answers of the health requests, and the values read from the
    environment. *)
Definition probe_of (o : obs loadE) : option bool :=
  match o with
  | Obs e t =>
      match e with
      | Client c =>
          match c in clientE T return T -> option bool with
          | MakeHealthRequest => fun t => Some (is_ok t)
          | _ => fun _ => None
          end t
      | _ => None
      end
  end.

Definition probes (tr : list (obs loadE)) : list bool := omap probe_of tr.

Definition looked_up_of (o : obs loadE) : option (string * option string) :=
  match o with
  | Obs e t =>
      match e with
      | Env c =>
          match c in envE T return T -> option (string * option string) with
          | GetEnv name => fun t => Some (name, t)
          | SetEnv _ _ => fun _ => None
          end t
      | _ => None
      end
  end.

Definition looked_up (tr : list (obs loadE))
  : list (string * option string) :=
  omap looked_up_of tr.

(** The bytes drawn from [crypto.randomBytes]. *)
Definition drawn_of (o : obs loadE) : option (nat * list byte) :=
  match o with
  | Obs e t =>
      match e with
      | Crypto c =>
          match c in Secrets.cryptoE T return T -> option (nat * list byte) with
          | Secrets.RandomBytes n => fun t => Some (n, t)
          | _ => fun _ => None
          end t
      | _ => None
      end
  end.

Definition drawn (tr : list (obs loadE)) : list (nat * list byte) :=
  omap drawn_of tr.

(** The names a service may see assigned. *)
Definition url_names : list string :=
  ["AUTH_SERVICE_URL"; "USER_SERVICE_URL"; "GAME_SERVICE_URL";
   "GATEWAY_SERVICE_URL"].

Definition jwt_names : list string :=
  ["JWT_SECRET"; "JWT_ALGORITHM"; "JWT_EXPIRATION"].

Definition api_names : list string :=
  ["RATE_LIMIT_MAX"; "RATE_LIMIT_WINDOW"; "CORS_ORIGIN"].

Definition game_names : list string :=
  ["WS_HEARTBEAT_INTERVAL"; "WS_CONNECTION_TIMEOUT"; "GAME_TICK_RATE";
   "MATCH_TIMEOUT"; "MATCHMAKING_TIMEOUT"].

Definition setting_names (serviceName : string) : list string :=
  url_names
  ++ (if String.eqb serviceName "auth-service" then jwt_names else [])
  ++ api_names
  ++ (if String.eqb serviceName "game-service" then game_names else []).

Definition names (serviceName : string) : list string :=
  setting_names serviceName ++ ["PORT"].

(** A completion that does not throw [undefined]. *)
Definition defined {A : Type} (c : completion A) : Prop := c <> Throw None.

(** A text that starts as the address of a web service does. *)
Definition web (value : string) : Prop :=
  Strings.String.prefix "http://" value = true
  \/ Strings.String.prefix "https://" value = true.

(** The endpoints of the gateway that the loader may ask. *)
Definition endpoints : list string :=
  ["/api/database/config"; "/api/services/urls"; "/api/secrets/jwt";
   "/api/secrets/api"; "/api/secrets/game"].

(** Calls that ask only the endpoints above, assign only names of a list,
    an address of a service only to a text that starts as one, and draw
    random bytes only where the signing key may be assigned. *)
Definition loading (allowed : list string) (T : Type) (e : loadE T) : Prop :=
  match e with
  | Client (Request endpoint) => endpoint ∈ endpoints
  | Env (SetEnv name value) =>
      name ∈ allowed /\ (name ∈ url_names -> web value)
  | Crypto _ => "JWT_SECRET" ∈ allowed
  | _ => True
  end.

(** Such calls that, moreover, probe no health and look nothing up in the
    environment. *)
Definition confined (allowed : list string) (T : Type) (e : loadE T) : Prop :=
  match e with
  | Client MakeHealthRequest => False
  | Env (GetEnv _) => False
  | _ => loading allowed T e
  end.

(** The calls of a wait: health requests, pauses and lines of the
    console. *)
Definition waiting (T : Type) (e : loadE T) : Prop :=
  match e with
  | Client (Request _) => False
  | Client _ => True
  | _ => False
  end.

(** Calls of the client other than a request for a document. *)
Definition probing (T : Type) (e : clientE T) : Prop :=
  match e with
  | Request _ => False
  | _ => True
  end.

(** Calls of the client other than a health request. *)
Definition asking (T : Type) (e : clientE T) : Prop :=
  match e with
  | MakeHealthRequest => False
  | _ => True
  end.


(** An environment to run the loader in: the gateway answers from a
    script, the random bytes come from a stream, and [process.env] is a
    table. *)
Record world : Type := World {
  script : list reply;
  entropy : nat * (nat -> byte);
  env : gmap string string
}.

Definition handle : handler loadE world :=
  fun T e w =>
    match e with
    | Client c =>
        let answer := Examples.scripted T c (script w) in
        (answer.1, World answer.2 (entropy w) (env w))
    | Crypto c =>
        let answer := Secrets.draw T c (entropy w) in
        (answer.1, World (script w) answer.2 (env w))
    | Env c =>
        match c in envE T return T * world with
        | GetEnv name => (env w !! name, w)
        | SetEnv name value =>
            (tt, World (script w) (entropy w) (<[name := value]> (env w)))
        end
    end.

(** An engine to run it with: decimal numbers only. *)
Definition plain : engine :=
  Engine (fun expr _ => Error (expr +:+ " is not a function"))
    (fun _ _ => false) (fun _ d => pretty d) (fun _ d => Some (pretty d))
    (fun _ => None).

End Loader.

(* ===================================================================== *)
(** ** The earlier clients *)
(* ===================================================================== *)

(** The client of [part_002]: no retry, a fixed pause, and a loader that
    rethrows. *)
Module Legacy.
Import VaultClient Loader.

Section Engine.
Variable js : engine.

(** [getSecret(path)] *)
Definition getSecret (path : string) : cprog (completion jsval) :=
  let* r := makeRequest ("/api/secrets/" +:+ path) in
  Ret (unwrap js "Failed to get secret: " r).

(** [getDatabaseConfig()] and [getServiceUrls()] have the text they have
    in [src/VaultClient.js]. *)
Definition getDatabaseConfig : cprog (completion jsval) :=
  VaultClient.getDatabaseConfig js.

Definition getServiceUrls : cprog (completion jsval) :=
  VaultClient.getServiceUrls js.

(** The pause [new Promise(resolve => setTimeout(resolve, 2000))] is the
    call [Sleep 2000]. *)
Fixpoint waitForVault_from (serviceName : jsval) (i remaining maxRetries : nat)
  : cprog (result unit) :=
  match remaining with
  | O => Ret (Err (Error VaultClient.waitForVault_message))
  | S remaining' =>
      let* r := call MakeHealthRequest in
      match r with
      | Ok _ =>
          do call (Console LLog
                [Text "✅ Vault service is ready for ";
                 Text (toString serviceName)]) then
          Ret (Ok tt)
      | Err _ =>
          do call (Console LLog
                [Text "⏳ Waiting for Vault service... (";
                 Int (Z.of_nat i + 1); Text "/"; Int (Z.of_nat maxRetries);
                 Text ")"]) then
          do call (Sleep 2000) then
          waitForVault_from serviceName (S i) remaining' maxRetries
      end
  end.

(** [waitForVault(maxRetries = 30)] *)
Definition waitForVault (serviceName : jsval) (maxRetries : option nat)
  : cprog (result unit) :=
  let maxRetries := default 30%nat maxRetries in
  waitForVault_from serviceName 0 maxRetries maxRetries.

(** [process.env[name] = v[key]] *)
Definition copy (name expr : string) (v : jsval) (key : string)
  : lprog (completion unit) :=
  let? value := eval (read js expr v key) in
  assign js name value.

(** [loadEnvFromVault(serviceName)] *)
Definition loadEnvFromVault (serviceName : string) : lprog (completion unit) :=
  try_catch
    (let? _ :=
       let* r :=
         lift (@Client) (waitForVault (Some (JStr serviceName)) None) in
       match r with
       | Ok _ => Ret (Normal tt)
       | Err error => Ret (Throw (Some error))
       end in
     let? dbConfig := lift (@Client) getDatabaseConfig in
     let? dbUrl :=
       eval (call_method js "dbConfig.getDatabaseUrl" dbConfig
               "getDatabaseUrl"
               [Some (JStr (getServiceDatabase serviceName))]) in
     let? _ := assign js "DATABASE_URL" dbUrl in
     let? serviceUrls := lift (@Client) getServiceUrls in
     let? _ :=
       copy "AUTH_SERVICE_URL" "serviceUrls.auth_service_url" serviceUrls
         "auth_service_url" in
     let? _ :=
       copy "USER_SERVICE_URL" "serviceUrls.user_service_url" serviceUrls
         "user_service_url" in
     let? _ :=
       copy "GAME_SERVICE_URL" "serviceUrls.game_service_url" serviceUrls
         "game_service_url" in
     let? _ :=
       copy "GATEWAY_SERVICE_URL" "serviceUrls.gateway_service_url"
         serviceUrls "gateway_service_url" in
     let? _ :=
       if String.eqb serviceName "auth-service" then
         let? jwtSecrets := lift (@Client) (getSecret "jwt") in
         let? _ :=
           copy "JWT_SECRET" "jwtSecrets.secret" jwtSecrets "secret" in
         let? _ :=
           copy "JWT_ALGORITHM" "jwtSecrets.algorithm" jwtSecrets
             "algorithm" in
         copy "JWT_EXPIRATION" "jwtSecrets.expiration" jwtSecrets
           "expiration"
       else Ret (Normal tt) in
     let? apiConfig := lift (@Client) (getSecret "api") in
     let? _ :=
       copy "RATE_LIMIT_MAX" "apiConfig.rate_limit_max" apiConfig
         "rate_limit_max" in
     let? _ :=
       copy "RATE_LIMIT_WINDOW" "apiConfig.rate_limit_window" apiConfig
         "rate_limit_window" in
     let? _ :=
       copy "CORS_ORIGIN" "apiConfig.cors_origin" apiConfig "cors_origin" in
     let? _ :=
       if String.eqb serviceName "game-service" then
         let? gameConfig := lift (@Client) (getSecret "game") in
         let? _ :=
           copy "WS_HEARTBEAT_INTERVAL" "gameConfig.ws_heartbeat_interval"
             gameConfig "ws_heartbeat_interval" in
         let? _ :=
           copy "WS_CONNECTION_TIMEOUT" "gameConfig.ws_connection_timeout"
             gameConfig "ws_connection_timeout" in
         let? _ :=
           copy "GAME_TICK_RATE" "gameConfig.game_tick_rate" gameConfig
             "game_tick_rate" in
         let? _ :=
           copy "MATCH_TIMEOUT" "gameConfig.match_timeout" gameConfig
             "match_timeout" in
         let? _ :=
           copy "MATCHMAKING_TIMEOUT" "gameConfig.matchmaking_timeout"
             gameConfig "matchmaking_timeout" in
         assign js "PORT" (Some (JStr "3002"))
       else Ret (Normal tt) in
     let? _ :=
       if String.eqb serviceName "auth-service" then
         assign js "PORT" (Some (JStr "3000"))
       else if String.eqb serviceName "user-service" then
         assign js "PORT" (Some (JStr "3001"))
       else if String.eqb serviceName "gateway-service" then
         assign js "PORT" (Some (JStr "3003"))
       else Ret (Normal tt) in
     say LLog [Text "✅ Environment variables loaded from Vault for ";
               Text serviceName])
    (fun error =>
       do call (Client (Console LError
             [Text "❌ Failed to load environment from Vault for ";
              Text serviceName; Text ":"; Msg error])) then
       Ret (Throw error)).
End Engine.

End Legacy.

(** The client of [part_003], written against [fetch]. *)
Module Fetching.

(** The awaited calls of its wait: [fetch], whose answer is observed
    through [response.ok] alone, the timer and the console. *)
Inductive fetchE : Type -> Type :=
| Fetch (url : string) : fetchE (result bool)
| SetTimeout (ms : Z) : fetchE unit
| Console (lvl : level) (msg : list piece) : fetchE unit.

Definition waitForVault_message : string :=
  "Vault service is not available after maximum retries".

(** [for (let i = 0; i < maxRetries; i++)], entered at [i], for a client
    whose [baseUrl] is given: an answer that is not [ok] leaves the [try]
    block without a word. *)
Fixpoint waitForVault_from (baseUrl : string) (serviceName : jsval)
    (i remaining maxRetries : nat) : prog fetchE (result unit) :=
  match remaining with
  | O => Ret (Err (Error waitForVault_message))
  | S remaining' =>
      let* r := call (Fetch (baseUrl +:+ "/health")) in
      match r with
      | Ok true =>
          do call (Console LLog
                [Text "✅ Vault service is ready for ";
                 Text (toString serviceName)]) then
          Ret (Ok tt)
      | Ok false =>
          waitForVault_from baseUrl serviceName (S i) remaining' maxRetries
      | Err _ =>
          do call (Console LLog
                [Text "⏳ Waiting for Vault service... (";
                 Int (Z.of_nat i + 1); Text "/"; Int (Z.of_nat maxRetries);
                 Text ")"]) then
          do call (SetTimeout 2000) then
          waitForVault_from baseUrl serviceName (S i) remaining' maxRetries
      end
  end.

(** [waitForVault(maxRetries = 30)] *)
Definition waitForVault (baseUrl : string) (serviceName : jsval)
    (maxRetries : option nat) : prog fetchE (result unit) :=
  let maxRetries := default 30%nat maxRetries in
  waitForVault_from baseUrl serviceName 0 maxRetries maxRetries.

(** The answers of the fetches and the timers of a run. *)
Definition answer_of (o : obs fetchE) : option (result bool) :=
  match o with
  | Obs e t =>
      match e in fetchE T return T -> option (result bool) with
      | Fetch _ => fun t => Some t
      | _ => fun _ => None
      end t
  end.

Definition answers (tr : list (obs fetchE)) : list (result bool) :=
  omap answer_of tr.

Definition timer_of (o : obs fetchE) : option Z :=
  match o with
  | Obs e _ =>
      match e with
      | SetTimeout ms => Some ms
      | _ => None
      end
  end.

Definition timers (tr : list (obs fetchE)) : list Z := omap timer_of tr.

(** An answer that lets the wait return. *)
Definition is_ready (a : result bool) : bool :=
  match a with
  | Ok true => true
  | _ => false
  end.

End Fetching.
(* ===================================================================== *)
(** * Properties *)
(* ===================================================================== *)

Import VaultManager Observe Logic Seeding.

Section Runs.
Context {E : Type -> Type} {W : Type} (h : handler E W).

Lemma exec_bind {A B} (p : prog E A) (f : A -> prog E B) (w : W) :
  exec h (bind p f) w =
    let '(a, w1, t1) := exec h p w in
    let '(b, w2, t2) := exec h (f a) w1 in
    (b, w2, t1 ++ t2).
Proof.
  revert w. induction p as [a | T e k IH]; intros w; simpl.
  - destruct (exec h (f a) w) as [[b w2] t2]. reflexivity.
  - destruct (h T e w) as [t w1]. rewrite IH.
    destruct (exec h (k t) w1) as [[a w2] t1].
    destruct (exec h (f a) w2) as [[b w3] t2]. reflexivity.
Qed.

Lemma outcome_bind {A B} (p : prog E A) (f : A -> prog E B) w :
  outcome h (bind p f) w = outcome h (f (outcome h p w)) (after h p w).
Proof.
  unfold outcome, after. rewrite exec_bind.
  destruct (exec h p w) as [[a w1] t1]. simpl.
  destruct (exec h (f a) w1) as [[b w2] t2]. reflexivity.
Qed.

Lemma after_bind {A B} (p : prog E A) (f : A -> prog E B) w :
  after h (bind p f) w = after h (f (outcome h p w)) (after h p w).
Proof.
  unfold outcome, after. rewrite exec_bind.
  destruct (exec h p w) as [[a w1] t1]. simpl.
  destruct (exec h (f a) w1) as [[b w2] t2]. reflexivity.
Qed.

Lemma trace_bind {A B} (p : prog E A) (f : A -> prog E B) w :
  trace h (bind p f) w =
    trace h p w ++ trace h (f (outcome h p w)) (after h p w).
Proof.
  unfold outcome, after, trace. rewrite exec_bind.
  destruct (exec h p w) as [[a w1] t1]. simpl.
  destruct (exec h (f a) w1) as [[b w2] t2]. reflexivity.
Qed.

Lemma outcome_ret {A} (a : A) w : outcome h (Ret a) w = a.
Proof. reflexivity. Qed.

Lemma after_ret {A} (a : A) w : after h (Ret a) w = w.
Proof. reflexivity. Qed.

Lemma trace_ret {A} (a : A) w : trace h (Ret a) w = [].
Proof. reflexivity. Qed.

Lemma outcome_vis {A T} (e : E T) (k : T -> prog E A) w :
  outcome h (Vis e k) w = outcome h (k (h T e w).1) (h T e w).2.
Proof.
  unfold outcome. simpl. destruct (h T e w) as [t w1]. simpl.
  destruct (exec h (k t) w1) as [[a w2] tr]. reflexivity.
Qed.

Lemma after_vis {A T} (e : E T) (k : T -> prog E A) w :
  after h (Vis e k) w = after h (k (h T e w).1) (h T e w).2.
Proof.
  unfold after. simpl. destruct (h T e w) as [t w1]. simpl.
  destruct (exec h (k t) w1) as [[a w2] tr]. reflexivity.
Qed.

Lemma trace_vis {A T} (e : E T) (k : T -> prog E A) w :
  trace h (Vis e k) w =
    Obs e (h T e w).1 :: trace h (k (h T e w).1) (h T e w).2.
Proof.
  unfold trace. simpl. destruct (h T e w) as [t w1]. simpl.
  destruct (exec h (k t) w1) as [[a w2] tr]. reflexivity.
Qed.

Lemma calls_only_trace {A} (P : forall T, E T -> Prop) (p : prog E A) w :
  calls_only P p -> Forall (performed P) (trace h p w).
Proof.
  revert w. induction p as [a | T e k IH]; intros w Hp.
  - constructor.
  - destruct Hp as [He Hk]. rewrite trace_vis. constructor; [exact He |].
    apply IH, Hk.
Qed.

Lemma returns_only_outcome {A} (Q : A -> Prop) (p : prog E A) w :
  returns_only Q p -> Q (outcome h p w).
Proof.
  revert w. induction p as [a | T e k IH]; intros w Hp.
  - exact Hp.
  - rewrite outcome_vis. apply IH, Hp.
Qed.

Lemma calls_only_invariant {A} (P : forall T, E T -> Prop) (I : W -> Prop)
    (p : prog E A) w :
  (forall T (e : E T) w', P T e -> I w' -> I (h T e w').2) ->
  calls_only P p -> I w -> I (after h p w).
Proof.
  intros Hstep. revert w. induction p as [a | T e k IH]; intros w Hp Hw.
  - exact Hw.
  - destruct Hp as [He Hk]. rewrite after_vis. apply IH; [apply Hk |].
    apply Hstep; assumption.
Qed.
End Runs.

(** Unfold a run along the calls of the program, leaving the phases of the
    program folded. *)
Ltac run :=
  repeat first
    [ progress unfold call
    | progress cbn [bind fst snd app]
    | rewrite outcome_ret | rewrite after_ret | rewrite trace_ret
    | rewrite outcome_vis | rewrite after_vis | rewrite trace_vis
    | rewrite outcome_bind | rewrite after_bind | rewrite trace_bind ].

Lemma calls_only_bind {E A B} (P : forall T, E T -> Prop)
    (p : prog E A) (f : A -> prog E B) :
  calls_only P p -> (forall a, calls_only P (f a)) -> calls_only P (bind p f).
Proof.
  intros Hp Hf. induction p as [a | T e k IH]; simpl.
  - apply Hf.
  - destruct Hp as [He Hk]. split; [exact He |]. intros t. apply IH, Hk.
Qed.

Lemma returns_only_bind {E A B} (Q : B -> Prop)
    (p : prog E A) (f : A -> prog E B) :
  (forall a, returns_only Q (f a)) -> returns_only Q (bind p f).
Proof.
  intros Hf. induction p as [a | T e k IH]; simpl.
  - apply Hf.
  - intros t. apply IH.
Qed.

Lemma calls_only_for_of {E A} (P : forall T, E T -> Prop)
    (entries : list A) (body : A -> prog E unit) :
  (forall entry, calls_only P (body entry)) ->
  calls_only P (for_of entries body).
Proof.
  intros Hbody. induction entries as [| entry rest IH]; simpl.
  - exact I.
  - apply calls_only_bind; [apply Hbody | intros _; exact IH].
Qed.

Lemma omap_cons_case {A B} (f : A -> option B) (x : A) (l : list A) :
  omap f (x :: l) =
    match f x with
    | Some y => y :: omap f l
    | None => omap f l
    end.
Proof. reflexivity. Qed.

Lemma omap_unperformed {E B} (P : forall T, E T -> Prop)
    (f : obs E -> option B) (tr : list (obs E)) :
  (forall o, performed P o -> f o = None) ->
  Forall (performed P) tr -> omap f tr = [].
Proof.
  intros Hf Htr. induction Htr as [| o tr Ho _ IH]; simpl.
  - reflexivity.
  - rewrite (Hf o Ho). exact IH.
Qed.

(* --------------------------------------------------------------------- *)
(** ** Bootstrap: only an exhausted wait is fatal *)
(* --------------------------------------------------------------------- *)

Lemma health_answers_cons (o : obs vaultE) (tr : list (obs vaultE)) :
  health_answers (o :: tr) =
    match health_answer o with
    | Some b => b :: health_answers tr
    | None => health_answers tr
    end.
Proof. reflexivity. Qed.

Lemma timeouts_cons (o : obs vaultE) (tr : list (obs vaultE)) :
  timeouts (o :: tr) =
    match timeout o with
    | Some ms => ms :: timeouts tr
    | None => timeouts tr
    end.
Proof. reflexivity. Qed.

Section Bootstrap.
Context {W : Type} (h : handler vaultE W).

(** The wait either meets a health check that resolves, after fewer than
    [remaining] rejected ones, or is rejected after exactly [remaining]
    rejected checks; every rejected check is followed by one timer of two
    seconds. *)
Lemma waitForVault_from_run (remaining i maxRetries : nat) (w : W) :
  let r := outcome h (waitForVault_from i remaining maxRetries) w in
  let tr := trace h (waitForVault_from i remaining maxRetries) w in
  (r = Err (Error VaultManager.waitForVault_message)
   /\ health_answers tr = replicate remaining false
   /\ timeouts tr = replicate remaining 2000)
  \/ (r = Ok tt
      /\ exists k : nat, (k < remaining)%nat
           /\ health_answers tr = replicate k false ++ [true]
           /\ timeouts tr = replicate k 2000).
Proof.
  revert i w. induction remaining as [| remaining IH]; intros i w; simpl.
  - left. repeat split.
  - run. destruct (h _ VHealth w) as [[hl | e] w1]; run.
    + right. split; [reflexivity |]. exists 0%nat.
      split; [lia |]. split; reflexivity.
    + set (w3 := (h _ (SetTimeout 2000) _).2).
      destruct (IH (S i) w3) as [(Hr & Hh & Ht) | (Hr & k & Hk & Hh & Ht)].
      * left. rewrite !health_answers_cons, !timeouts_cons. simpl.
        rewrite Hr, Hh, Ht. repeat split.
      * right. split; [exact Hr |]. exists (S k).
        rewrite !health_answers_cons, !timeouts_cons. simpl.
        rewrite Hh, Ht. split; [lia |]. split; reflexivity.
Qed.

Lemma installPolicy_quiet (entry : string * rules) :
  calls_only quiet (installPolicy entry).
Proof.
  destruct entry as [name policy]. simpl. split; [exact I |].
  intros [? | ?]; simpl; split; try exact I; intros; exact I.
Qed.

Lemma setupPolicies_quiet : calls_only quiet setupPolicies.
Proof.
  unfold setupPolicies. apply calls_only_bind.
  - apply calls_only_for_of, installPolicy_quiet.
  - intros _. exact I.
Qed.

Lemma setupPolicies_resolves : returns_only (fun r => r = Ok tt) setupPolicies.
Proof. unfold setupPolicies. apply returns_only_bind. reflexivity. Qed.

Lemma generateSecurePassword_from_quiet (remaining : nat) (password : string) :
  calls_only quiet (generateSecurePassword_from remaining password).
Proof.
  revert password. induction remaining as [| remaining IH]; intros password.
  - exact I.
  - simpl. split; [exact I |]. intros t. apply IH.
Qed.

Lemma generateSecureKey_quiet (length : nat) :
  calls_only quiet (generateSecureKey length).
Proof. simpl. split; [exact I |]. intros; exact I. Qed.

Lemma env_or_quiet (name fallback : string) :
  calls_only quiet (env_or name fallback).
Proof. simpl. split; [exact I |]. intros; exact I. Qed.

Lemma storeSecret_quiet (entry : string * doc) :
  calls_only quiet (storeSecret entry).
Proof.
  destruct entry as [path secret]. simpl. split; [exact I |].
  intros [? | ?]; simpl.
  - split; [exact I |]. intros; exact I.
  - split; [exact I |].
    intros [? | ?]; simpl; split; try exact I; intros; exact I.
Qed.

Lemma initialSecrets_quiet : calls_only quiet initialSecrets.
Proof.
  unfold initialSecrets.
  repeat first
    [ exact I
    | intros ?
    | match goal with
      | |- calls_only quiet (call _) =>
          simpl; split; [exact I | intros; exact I]
      | |- calls_only quiet (generateSecurePassword _) =>
          apply generateSecurePassword_from_quiet
      | |- calls_only quiet (generateSecureKey _) =>
          apply generateSecureKey_quiet
      | |- calls_only quiet (env_or _ _) => apply env_or_quiet
      | |- calls_only quiet (match ?x with _ => _ end) => destruct x
      | |- calls_only quiet (bind _ _) => apply calls_only_bind
      end ].
Qed.

Lemma storeInitialSecrets_quiet : calls_only quiet storeInitialSecrets.
Proof.
  unfold storeInitialSecrets.
  apply calls_only_bind; [apply initialSecrets_quiet |]. intros secrets.
  apply calls_only_bind; [| intros _; exact I].
  apply calls_only_for_of, storeSecret_quiet.
Qed.

Lemma storeInitialSecrets_resolves :
  returns_only (fun r => r = Ok tt) storeInitialSecrets.
Proof.
  unfold storeInitialSecrets.
  apply returns_only_bind. intros secrets.
  apply returns_only_bind. reflexivity.
Qed.

Lemma quiet_no_health (p : vprog (result unit)) (w : W) :
  calls_only quiet p ->
  health_answers (trace h p w) = [] /\ timeouts (trace h p w) = [].
Proof.
  intros Hp. pose proof (calls_only_trace h quiet p w Hp) as Htr.
  split.
  - apply (omap_unperformed quiet); [| exact Htr].
    intros [T e t] He. destruct e; simpl in *; tauto.
  - apply (omap_unperformed quiet); [| exact Htr].
    intros [T e t] He. destruct e; simpl in *; tauto.
Qed.
End Bootstrap.

Lemma health_answers_app (a b : list (obs vaultE)) :
  health_answers (a ++ b) = health_answers a ++ health_answers b.
Proof. apply omap_app. Qed.

Lemma timeouts_app (a b : list (obs vaultE)) :
  timeouts (a ++ b) = timeouts a ++ timeouts b.
Proof. apply omap_app. Qed.

Lemma local_keeps_store {A} (p : vprog A) (w : Store.world) :
  calls_only local p ->
  Store.up (after Store.handle p w) = Store.up w
  /\ Store.kv (after Store.handle p w) = Store.kv w
  /\ Store.policies (after Store.handle p w) = Store.policies w.
Proof.
  intros Hp.
  apply (calls_only_invariant Store.handle local
           (fun w' => Store.up w' = Store.up w
                      /\ Store.kv w' = Store.kv w
                      /\ Store.policies w' = Store.policies w) p w);
    [| exact Hp | repeat split].
  intros T e w' He Hw'. destruct e; simpl in He; try contradiction;
    exact Hw'.
Qed.

Lemma local_no_store_call {W} (h : handler vaultE W) {A} (p : vprog A) (w : W) :
  calls_only local p ->
  writes (trace h p w) = [] /\ reads (trace h p w) = []
  /\ forall probe, guarded_writes probe (trace h p w).
Proof.
  intros Hp. pose proof (calls_only_trace h local p w Hp) as Htr.
  split; [| split].
  - apply (omap_unperformed local); [| exact Htr].
    intros [T e t] He. destruct e; simpl in *; tauto.
  - apply (omap_unperformed local); [| exact Htr].
    intros [T e t] He. destruct e; simpl in *; tauto.
  - induction Htr as [| o tr Ho _ IH]; intros probe; simpl; [exact I |].
    split; [| apply IH].
    destruct o as [T e t]. destruct e; simpl in *; tauto.
Qed.

Lemma initialSecrets_local : calls_only local initialSecrets.
Proof.
  assert (Hpw : forall n s, calls_only local (generateSecurePassword_from n s)).
  { induction n as [| n IH]; intros s; simpl; [exact I |].
    split; [exact I |]. intros t. apply IH. }
  unfold initialSecrets.
  repeat first
    [ exact I
    | intros ?
    | match goal with
      | |- calls_only local (call _) =>
          simpl; split; [exact I | intros; exact I]
      | |- calls_only local (generateSecurePassword _) => apply Hpw
      | |- calls_only local (generateSecureKey _) =>
          simpl; split; [exact I | intros; exact I]
      | |- calls_only local (env_or _ _) =>
          simpl; split; [exact I | intros; exact I]
      | |- calls_only local (match ?x with _ => _ end) => destruct x
      | |- calls_only local (bind _ _) => apply calls_only_bind
      end ].
Qed.

Lemma initialSecrets_paths :
  returns_only (fun secrets => map fst secrets = secret_paths) initialSecrets.
Proof.
  unfold initialSecrets.
  repeat (apply returns_only_bind; intros ?).
  reflexivity.
Qed.

Lemma guarded_writes_app (probe : option string) (a b : list (obs vaultE)) :
  guarded_writes probe a ->
  (forall probe', guarded_writes probe' b) ->
  guarded_writes probe (a ++ b).
Proof.
  intros Ha Hb. revert probe Ha.
  induction a as [| o a IH]; intros probe Ha; simpl.
  - apply Hb.
  - destruct Ha as [Ho Ha]. split; [exact Ho |]. apply IH, Ha.
Qed.

(** The loop of [storeInitialSecrets], whatever the store answers: every
    path of the table is probed, in order, and a document is written only
    right after the probe of its path was rejected. *)
Lemma storeSecrets_probe_first {W} (h : handler vaultE W)
    (entries : list (string * doc)) (w : W) :
  reads (trace h (for_of entries storeSecret) w) = map fst entries
  /\ forall probe,
       guarded_writes probe (trace h (for_of entries storeSecret) w).
Proof.
  revert w. induction entries as [| [path secret] rest IH]; intros w.
  - split; [reflexivity | intros; exact I].
  - cbn [for_of storeSecret]. run.
    destruct (h _ (VRead path) w) as [[found | readError] w1]; run.
    + match goal with
      | |- context [trace h (for_of rest storeSecret) ?w'] =>
          destruct (IH w') as [Hr Hg]
      end.
      split.
      * unfold reads in *. rewrite !omap_cons_case. cbn [read_of map fst].
        rewrite Hr. reflexivity.
      * intros probe. cbn [guarded_writes write_of failed_read].
        split; [exact I |]. split; [exact I |]. apply Hg.
    + destruct (h _ (VWrite path secret) w1) as [[[] | error] w2]; run;
        match goal with
        | |- context [trace h (for_of rest storeSecret) ?w'] =>
            destruct (IH w') as [Hr Hg]
        end.
      * split.
        -- unfold reads in *. rewrite !omap_cons_case. cbn [read_of map fst].
           rewrite Hr. reflexivity.
        -- intros probe. cbn [guarded_writes write_of failed_read is_ok].
           repeat split. apply Hg.
      * split.
        -- unfold reads in *. rewrite !omap_cons_case. cbn [read_of map fst].
           rewrite Hr. reflexivity.
        -- intros probe. cbn [guarded_writes write_of failed_read is_ok].
           repeat split. apply Hg.
Qed.

(** [storeInitialSecrets] probes the seven fixed paths and writes only after
    a rejected probe, whatever the store answers. *)
Lemma storeInitialSecrets_probe_first {W} (h : handler vaultE W) (w : W) :
  reads (trace h storeInitialSecrets w) = secret_paths
  /\ guarded_writes None (trace h storeInitialSecrets w).
Proof.
  unfold storeInitialSecrets. run.
  destruct (local_no_store_call h initialSecrets w initialSecrets_local)
    as (_ & Hr0 & Hg0).
  set (secrets := outcome h initialSecrets w).
  set (w1 := after h initialSecrets w).
  destruct (storeSecrets_probe_first h secrets w1) as [Hr Hg].
  rewrite app_nil_r. split.
  - unfold reads in *. rewrite omap_app, Hr0, Hr. simpl.
    apply (returns_only_outcome h _ initialSecrets w initialSecrets_paths).
  - apply guarded_writes_app; [apply Hg0 | exact Hg].
Qed.

Lemma calls_only_weaken {E A} (P Q : forall T, E T -> Prop) (p : prog E A) :
  (forall T (e : E T), P T e -> Q T e) -> calls_only P p -> calls_only Q p.
Proof.
  intros HPQ. induction p as [a | T e k IH]; simpl; [trivial |].
  intros [He Hk]. split; [apply HPQ, He |]. intros t. apply IH, Hk.
Qed.

Section Phases.
Context {W : Type} (h : handler vaultE W).

Lemma idle_trace {A} (p : vprog A) (w : W) :
  calls_only idle p ->
  installs (trace h p w) = [] /\ reads (trace h p w) = []
  /\ writes (trace h p w) = [].
Proof.
  intros Hp. pose proof (calls_only_trace h idle p w Hp) as Htr.
  repeat split; (apply (omap_unperformed idle); [| exact Htr]);
    intros [T e t] He; destruct e; simpl in *; tauto.
Qed.

Lemma waitForVault_from_idle (remaining i maxRetries : nat) :
  calls_only idle (VaultManager.waitForVault_from i remaining maxRetries).
Proof.
  revert i. induction remaining as [| remaining IH]; intros i; simpl.
  - exact I.
  - split; [exact I |]. intros [? | ?]; simpl.
    + split; [exact I |]. intros; exact I.
    + split; [exact I |]. intros _. split; [exact I |]. intros _. apply IH.
Qed.

(** Every policy of the table is sent to the store, in order, whatever
    the store answered for the ones before. *)
Lemma installPolicies_all (table : list (string * rules)) (w : W) :
  installs (trace h (for_of table installPolicy) w) = table
  /\ reads (trace h (for_of table installPolicy) w) = [].
Proof.
  revert w. induction table as [| [name policy] rest IH]; intros w.
  - split; reflexivity.
  - cbn [for_of installPolicy]. run.
    destruct (h _ (VAddPolicy name policy) w) as [[[] | error] w1]; run;
      match goal with
      | |- context [trace h (for_of rest installPolicy) ?w'] =>
          destruct (IH w') as [Hi Hr]
      end;
      unfold installs, reads in *; rewrite !omap_cons_case;
      cbn [install_of read_of]; rewrite Hi, Hr; split; reflexivity.
Qed.

Lemma setupPolicies_all (w : W) :
  installs (trace h setupPolicies w) = policies_table
  /\ reads (trace h setupPolicies w) = [].
Proof.
  unfold setupPolicies. run. rewrite app_nil_r. apply installPolicies_all.
Qed.

Lemma storeInitialSecrets_no_install (w : W) :
  installs (trace h storeInitialSecrets w) = [].
Proof.
  apply (omap_unperformed no_install).
  - intros [T e t] He. destruct e; simpl in *; tauto.
  - apply calls_only_trace. unfold storeInitialSecrets.
    apply calls_only_bind.
    + apply (calls_only_weaken local); [| apply initialSecrets_local].
      intros T e He. destruct e; simpl in *; tauto.
    + intros secrets. apply calls_only_bind; [| intros _; exact I].
      apply calls_only_for_of. intros [path secret]. simpl.
      split; [exact I |]. intros [? | ?]; simpl.
      * split; [exact I |]. intros; exact I.
      * split; [exact I |].
        intros [? | ?]; simpl; split; try exact I; intros; exact I.
Qed.
End Phases.

Lemma beats_app (a b : list (obs vaultE)) :
  beats (a ++ b) = beats a ++ beats b.
Proof. apply omap_app. Qed.

Lemma reported_app (a b : list (obs vaultE)) :
  reported a -> reported b ->
  match last a with
  | Some o => rejection o = None
  | None => True
  end ->
  reported (a ++ b).
Proof.
  induction a as [| o a IH]; intros Ha Hb Hlast; [exact Hb |].
  destruct Ha as [Ho Ha]. cbn [app reported]. split.
  - destruct (rejection o) as [error |] eqn:Hrej; [| exact I].
    destruct a as [| o' a]; [| exact Ho].
    simpl in Hlast. congruence.
  - apply IH; [exact Ha | exact Hb |].
    destruct a as [| o' a]; [exact I | exact Hlast].
Qed.

Section Rhythm.
Context {W : Type} (h : handler vaultE W).

(** The rhythm of the wait: each rejected health check is followed by a
    timer of two seconds, the last one included, and the check that
    resolves ends the wait. *)
Lemma waitForVault_from_beats (remaining i maxRetries : nat) (w : W) :
  let r := outcome h (VaultManager.waitForVault_from i remaining maxRetries) w in
  let tr := trace h (VaultManager.waitForVault_from i remaining maxRetries) w in
  match r with
  | Err _ => beats tr = concat (replicate remaining [Checked false; Paused 2000])
  | Ok _ =>
      exists k : nat,
        (k < remaining)%nat
        /\ beats tr
           = concat (replicate k [Checked false; Paused 2000])
             ++ [Checked true]
  end.
Proof.
  revert i w. induction remaining as [| remaining IH]; intros i w; simpl.
  - reflexivity.
  - run. destruct (h _ VHealth w) as [[hl | e] w1]; run.
    + exists 0%nat. split; [lia | reflexivity].
    + set (w3 := (h _ (SetTimeout 2000) _).2).
      specialize (IH (S i) w3). cbv zeta in IH.
      destruct (outcome h (VaultManager.waitForVault_from (S i) remaining
                             maxRetries) w3) as [[] | e'].
      * destruct IH as (k & Hk & Hb). exists (S k). split; [lia |].
        unfold beats in *. rewrite !omap_cons_case. cbn [beat_of is_ok].
        rewrite Hb. reflexivity.
      * unfold beats in *. rewrite !omap_cons_case. cbn [beat_of is_ok].
        rewrite IH. reflexivity.
Qed.

Lemma quiet_no_beat {A} (p : vprog A) (w : W) :
  calls_only quiet p -> beats (trace h p w) = [].
Proof.
  intros Hp. apply (omap_unperformed quiet).
  - intros [T e t] He. destruct e; simpl in *; tauto.
  - apply calls_only_trace, Hp.
Qed.

(** A program whose failures are announced leaves a trace in which they are
    reported, and a trace that does not end on a failure. *)
Lemma announced_reported {A} (p : vprog A) (w : W) :
  announced p ->
  reported (trace h p w)
  /\ match last (trace h p w) with
     | Some o => rejection o = None
     | None => True
     end.
Proof.
  revert w. induction p as [a | T e k IH]; intros w Hp.
  - split; exact I.
  - rewrite trace_vis. destruct (h T e w) as [t w']. cbn [fst snd].
    destruct (Hp t) as [Hk He].
    destruct (IH t w' Hk) as [Hrep Hlast].
    destruct (rejection (Obs e t)) as [error |] eqn:Hrej.
    + destruct (k t) as [a | T' e' k']; [contradiction |].
      rewrite trace_vis in *. split; [| exact Hlast].
      cbn [reported]. rewrite Hrej. split; [exact He | exact Hrep].
    + split.
      * cbn [reported]. rewrite Hrej. split; [exact I | exact Hrep].
      * destruct (trace h (k t) w') as [| o rest]; [exact Hrej | exact Hlast].
Qed.
End Rhythm.

Lemma announced_bind {A B} (p : vprog A) (f : A -> vprog B) :
  announced p -> (forall a, announced (f a)) -> announced (bind p f).
Proof.
  intros Hp Hf. induction p as [a | T e k IH]; [apply Hf |].
  cbn [bind announced]. intros t. destruct (Hp t) as [Hk He].
  split; [apply IH, Hk |].
  destruct (rejection (Obs e t)); [| exact I].
  destruct (k t) as [a | T' e' k']; [contradiction | exact He].
Qed.

Lemma announced_for_of {A} (entries : list A) (body : A -> vprog unit) :
  (forall entry, announced (body entry)) -> announced (for_of entries body).
Proof.
  intros Hbody. induction entries as [| entry rest IH]; [exact I |].
  cbn [for_of]. apply announced_bind; [apply Hbody | intros _; exact IH].
Qed.

(** A program that neither creates a policy nor touches a document has no
    failure to announce. *)
Lemma idle_announced {A} (p : vprog A) : calls_only idle p -> announced p.
Proof.
  induction p as [a | T e k IH]; [intros _; exact I |].
  intros [He Hk] t. split; [apply IH, Hk |].
  destruct e; simpl in He; try contradiction; exact I.
Qed.

Lemma installPolicy_announced (entry : string * rules) :
  announced (installPolicy entry).
Proof.
  destruct entry as [name policy]. intros [[] | error]; simpl.
  - split; [| exact I]. intros []. split; exact I.
  - split.
    + intros []. split; exact I.
    + set_solver.
Qed.

Lemma storeSecret_announced (entry : string * doc) :
  announced (storeSecret entry).
Proof.
  destruct entry as [path secret]. intros [found | readError]; simpl.
  - split; [| exact I]. intros []. split; exact I.
  - split; [| exact I]. intros [[] | error]; simpl.
    + split; [| exact I]. intros []. split; exact I.
    + split.
      * intros []. split; exact I.
      * set_solver.
Qed.

Lemma initialize_announced (this : manager) : announced (initialize this).
Proof.
  unfold initialize.
  apply announced_bind; [intros []; split; exact I |]. intros _.
  apply announced_bind.
  { apply idle_announced, waitForVault_from_idle. }
  intros [[] | error]; [| intros []; split; exact I].
  apply announced_bind.
  { unfold setupPolicies. apply announced_bind; [| intros _; exact I].
    apply announced_for_of, installPolicy_announced. }
  intros [[] | error]; [| intros []; split; exact I].
  apply announced_bind.
  { unfold storeInitialSecrets. apply announced_bind.
    - apply idle_announced.
      apply (calls_only_weaken local); [| apply initialSecrets_local].
      intros T e He. destruct e; simpl in *; tauto.
    - intros secrets. apply announced_bind; [| intros _; exact I].
      apply announced_for_of, storeSecret_announced. }
  intros [[] | error]; intros []; split; exact I.
Qed.

(** C8. For every behaviour of the backing store, [initialize] is rejected
    exactly when the thirty health checks of its wait were all rejected.
    The wait is the only part of the run that checks the health of the
    store or sets a timer, and its rhythm is fixed: each rejected check is
    followed by one timer of two seconds, the thirtieth included, and the
    first check that resolves ends it. A rejected [initialize] carries the
    error of the wait, leaves the manager as it was and has touched
    neither a policy nor a document. A resolved one has met a health check
    that resolved after fewer than thirty rejected ones, marks the manager
    initialized, and has sent every policy of the table to the store and
    probed every path of the secrets, whatever the store answered to any
    of them: a rejected attempt to create a policy or to write a document
    is followed at once by a line of the console that carries the message
    of its error, and by the next policy or path; it is never fatal. *)
Theorem initialize_fatal_iff_wait_exhausted
    {W : Type} (h : handler vaultE W) (w : W) (this : manager) :
  let r := outcome h (initialize this) w in
  let tr := trace h (initialize this) w in
  (is_err r.2 = true <-> health_answers tr = replicate 30 false)
  /\ Forall (fun ms => ms = 2000) (timeouts tr)
  /\ (length (health_answers tr) <= 30)%nat
  /\ match r.2 with
     | Err e =>
         e = Error VaultManager.waitForVault_message /\ r.1 = this
         /\ beats tr = concat (replicate 30 [Checked false; Paused 2000])
         /\ installs tr = [] /\ reads tr = [] /\ writes tr = []
     | Ok _ =>
         isInitialized r.1 = true
         /\ (exists k : nat,
               (k < 30)%nat
               /\ beats tr
                  = concat (replicate k [Checked false; Paused 2000])
                    ++ [Checked true])
         /\ installs tr = policies_table
         /\ reads tr = secret_paths
     end
  /\ reported tr.
Proof.
  cbv zeta.
  pose proof (proj1 (announced_reported h (initialize this) w
                       (initialize_announced this))) as Hrep.
  revert Hrep. generalize (reported (trace h (initialize this) w)).
  intros said Hsaid.
  unfold initialize, VaultManager.waitForVault. generalize 30%nat. intros n.
  run.
  set (w1 := (h _ (VaultManager.Console LLog
                     [Text "🔐 Initializing Vault..."]) w).2).
  pose proof (waitForVault_from_run h n 0 n w1) as Hwait. simpl in Hwait.
  pose proof (waitForVault_from_beats h n 0 n w1) as Hbeats.
  cbv zeta in Hbeats.
  destruct (idle_trace h (VaultManager.waitForVault_from 0 n n) w1
              (waitForVault_from_idle n 0 n)) as (Hi0 & Hr0 & Hw0).
  unfold installs, reads, writes, beats in *.
  destruct Hwait as [(Hr & Hh & Ht) | (Hr & k & Hk & Hh & Ht)];
    rewrite Hr in Hbeats.
  - rewrite Hr. run.
    rewrite health_answers_cons, timeouts_cons, health_answers_app,
      timeouts_app, Hh, Ht.
    rewrite !omap_cons_case, !omap_app, Hi0, Hr0, Hw0, Hbeats.
    simpl. rewrite !app_nil_r. repeat split; try exact Hsaid.
    + apply Forall_replicate. reflexivity.
    + rewrite length_replicate. lia.
  - rewrite Hr. run.
    set (w2 := after h (VaultManager.waitForVault_from 0 n n) w1).
    rewrite !(returns_only_outcome h _ setupPolicies w2 setupPolicies_resolves).
    run.
    set (w3 := after h setupPolicies w2).
    rewrite !(returns_only_outcome h _ storeInitialSecrets w3
                storeInitialSecrets_resolves).
    run.
    rewrite health_answers_cons, timeouts_cons.
    rewrite !health_answers_app, !timeouts_app, Hh, Ht.
    destruct (quiet_no_health h setupPolicies w2 setupPolicies_quiet)
      as [-> ->].
    destruct (quiet_no_health h storeInitialSecrets w3 storeInitialSecrets_quiet)
      as [-> ->].
    destruct (setupPolicies_all h w2) as [Hi2 Hr2].
    destruct (storeInitialSecrets_probe_first h w3) as [Hr3 _].
    pose proof (storeInitialSecrets_no_install h w3) as Hi3.
    pose proof (quiet_no_beat h setupPolicies w2 setupPolicies_quiet) as Hb2.
    pose proof (quiet_no_beat h storeInitialSecrets w3
                  storeInitialSecrets_quiet) as Hb3.
    destruct Hbeats as (k' & Hk' & Hb1).
    unfold installs, reads, beats in *.
    rewrite !omap_cons_case, !omap_app, Hi0, Hr0, Hi2, Hr2, Hi3, Hr3,
      Hb1, Hb2, Hb3.
    simpl. rewrite !app_nil_r. repeat split; try exact Hsaid.
    + discriminate.
    + intros Heq. exfalso.
      assert (Hin : true ∈ replicate n false).
      { rewrite <- Heq. apply elem_of_app. right.
        apply list_elem_of_singleton. reflexivity. }
      apply elem_of_replicate in Hin. destruct Hin as [Hin _]. discriminate.
    + apply Forall_replicate. reflexivity.
    + rewrite length_app, length_replicate. simpl. lia.
    + exists k'. split; [exact Hk' | reflexivity].
Qed.

(* --------------------------------------------------------------------- *)
(** ** The routes of the gateway *)
(* --------------------------------------------------------------------- *)

(** C4, as stated, fails: against a store that cannot be reached the
    health route does not answer 500. *)
Lemma get_health_unreachable_not_500 :
  ~ (forall w : Store.world,
       Store.up w = false ->
       let r := outcome Store.handle Server.get_health w in
       Server.status r = 500
       /\ Server.status_field (Server.sent r) = Some "unhealthy").
Proof.
  intros Hclaim.
  destruct (Hclaim Examples.offline eq_refl) as [Hstatus _].
  vm_compute in Hstatus. discriminate.
Qed.

(** C4, amended. For every behaviour of the backing store, [GET /health]
    answers 200 with the top-level status ["healthy"]; a rejected health
    check of the store shows in the nested [vault] object only, whose
    [vault_status] is then ["unhealthy"] and whose [error] is the message of
    the rejection; a resolved one is reported with [vault_status]
    ["healthy"] and the fields of the store's answer. *)
Theorem get_health_reports_in_body
    {W : Type} (h : handler vaultE W) (w : W) :
  let r := outcome h Server.get_health w in
  let checked := h _ VHealth w in
  let timestamp := (h _ Now checked.2).1 in
  Server.status r = 200
  /\ Server.status_field (Server.sent r) = Some "healthy"
  /\ Server.sent r =
       Server.HealthReport "vault-service" "healthy" timestamp
         match checked.1 with
         | Ok health =>
             VaultHealthy (initialized health) (sealed health)
               (standby health) (version health)
         | Err error => VaultUnhealthy (message error)
         end.
Proof.
  unfold Server.get_health, getHealthStatus. run.
  destruct (h _ VHealth w) as [[health | error] w1]; run; repeat split.
Qed.



(* --------------------------------------------------------------------- *)
(** ** The client: bounded retries of [getSecret] *)
(* --------------------------------------------------------------------- *)

Import VaultClient.

Lemma schedule_next (attempt n : nat) :
  n <> 0%nat ->
  schedule attempt (S n) =
    Attempt :: Wait (inject_Z (1000 * Z.of_nat attempt))
      :: schedule (S attempt) n.
Proof. destruct n; [congruence | reflexivity]. Qed.

(** What the [try] block of [getSecret] throws is never [undefined]. *)
Lemma unwrap_thrown (js : engine) (failed : string) (r : result json) :
  unwrap js failed r <> Throw None.
Proof.
  destruct r as [response | error]; [| discriminate].
  unfold unwrap, read, text.
  destruct response; try discriminate;
    cbn [field]; destruct (negb (truthy _)); try discriminate;
    destruct (text_of _); discriminate.
Qed.

(** What it returns is the [data] of a body with a truthy [success]. *)
Lemma unwrap_normal (js : engine) (failed : string) (r : result json)
    (data : jsval) :
  unwrap js failed r = Normal data ->
  exists response : json,
    r = Ok response /\ truthy (success response) = true
    /\ data = VaultClient.data response.
Proof.
  destruct r as [response | error]; [| discriminate].
  unfold unwrap, read, text, success. intros H. exists response.
  split; [reflexivity |].
  destruct response; try discriminate; cbn [field] in *;
    (destruct (truthy _); cbn [negb] in H;
     [ injection H as <-; split; reflexivity
     | destruct (text_of _); discriminate ]).
Qed.

Section Fetch.
Context {W : Type} (js : engine) (h : handler clientE W).
Variables (retryCount : nat) (path : string).

Lemma getSecret_from_run (remaining attempt : nat)
    (lastError : option JS.error) (w : W) :
  (1 <= attempt)%nat ->
  (attempt + remaining = S retryCount)%nat ->
  let p := getSecret_from js attempt remaining retryCount path lastError in
  let r := outcome h p w in
  let tr := trace h p w in
  let n := length (attempts tr) in
  (n <= remaining)%nat
  /\ (remaining = 0%nat <-> n = 0%nat)
  /\ steps tr = schedule attempt n
  /\ Forall (getSecret_line path retryCount) (console tr)
  /\ match r with
     | Thrown thrown =>
         n = remaining
         /\ Forall (failing js) (attempts tr)
         /\ match last (attempts tr) with
            | Some a => Observe.attempt js a = Throw thrown
            | None => thrown = lastError
            end
     | Returned data =>
         exists a,
           last (attempts tr) = Some a
           /\ Observe.attempt js a = Normal data
     end.
Proof.
  revert attempt lastError w.
  induction remaining as [| remaining IH]; intros attempt lastError w H1 Hsum.
  - cbn [getSecret_from]. run. unfold attempts, steps, console.
    rewrite !omap_cons_case. cbn. repeat split; try lia.
    + constructor; [| constructor]. left. reflexivity.
    + constructor.
  - cbn [getSecret_from]. unfold makeRequest. run.
    destruct (h _ (Request _) w) as [a w1]. cbn [fst snd].
    change (unwrap js "Failed to get secret: " (settled a))
      with (Observe.attempt js a).
    destruct (Observe.attempt js a) as [data | error] eqn:Ha.
    + run. unfold attempts, steps, console.
      rewrite !omap_cons_case. cbn. repeat split; try lia.
      * constructor; [| constructor]. right. exists attempt.
        split; [lia |]. left. reflexivity.
      * exists a. split; [reflexivity | exact Ha].
    + assert (Hfail : failing js a) by (exists error; exact Ha).
      unfold caught.
      destruct (Nat.ltb_spec attempt retryCount) as [Hlt | Hge]; run.
      * set (w3 := (h _ (Sleep _) _).2).
        destruct (IH (S attempt) error w3 ltac:(lia) ltac:(lia))
          as (Hn & Hz & Hs & Hc & Hr).
        unfold attempts, steps, console in *.
        rewrite !omap_cons_case. cbn [attempt_of step_of console_of length].
        set (tr' := trace h _ w3) in *.
        assert (Hn0 : length (omap attempt_of tr') <> 0%nat)
          by (intros H0; apply Hz in H0; lia).
        repeat split; try lia.
        -- rewrite schedule_next by exact Hn0. rewrite Hs. reflexivity.
        -- constructor; [| exact Hc]. right. exists attempt.
           split; [lia |]. right. reflexivity.
        -- destruct (outcome h _ w3) as [data | thrown].
           ++ destruct Hr as (a' & Hl & Hd). exists a'.
              rewrite last_cons, Hl. split; [reflexivity | exact Hd].
           ++ destruct Hr as (Hlen & Hall & Hth). split; [lia |].
              split; [constructor; [exact Hfail | exact Hall] |].
              rewrite last_cons.
              destruct (last (omap attempt_of tr')) as [a' |] eqn:Hl.
              ** exact Hth.
              ** apply last_None in Hl. rewrite Hl in Hn0. simpl in Hn0. lia.
      * assert (remaining = 0%nat) as -> by lia.
        cbn [getSecret_from]. run. unfold attempts, steps, console.
        rewrite !omap_cons_case. cbn. repeat split; try lia.
        -- constructor; [| constructor]. left. reflexivity.
        -- constructor; [exact Hfail | constructor].
        -- exact Ha.
Qed.
End Fetch.






(* --------------------------------------------------------------------- *)
(** ** The client: waiting for the gateway *)
(* --------------------------------------------------------------------- *)

Lemma pow_three_halves_succ (i : nat) :
  (Qpower (3 # 2) (Z.of_nat (S i)) == (3 # 2) * Qpower (3 # 2) (Z.of_nat i))%Q.
Proof.
  rewrite Nat2Z.inj_succ. unfold Z.succ. rewrite Z.add_comm.
  rewrite Qpower_plus by discriminate. reflexivity.
Qed.

Lemma pow_three_halves_large (i : nat) :
  (10 <= Qpower (3 # 2) (Z.of_nat (6 + i)))%Q.
Proof.
  induction i as [| i IH].
  - vm_compute. discriminate.
  - replace (6 + S i)%nat with (S (6 + i)) by lia.
    rewrite pow_three_halves_succ. lra.
Qed.

Lemma waitTime_start : (waitTime 0 == 1000)%Q.
Proof. vm_compute. reflexivity. Qed.

Lemma waitTime_step (i : nat) :
  (waitTime (S i) == Qmin ((3 # 2) * waitTime i) 10000)%Q.
Proof.
  unfold waitTime. rewrite pow_three_halves_succ.
  set (a := Qpower (3 # 2) (Z.of_nat i)).
  destruct (Qlt_le_dec 10000 (1000 * a)%Q) as [Hbig | Hsmall].
  - rewrite (Q.min_r (1000 * a)%Q 10000%Q) by lra.
    rewrite (Q.min_r (1000 * ((3 # 2) * a))%Q 10000%Q) by lra.
    rewrite Q.min_r by lra. reflexivity.
  - rewrite (Q.min_l (1000 * a)%Q 10000%Q) by lra.
    apply Q.min_compat; [| reflexivity]. lra.
Qed.

Lemma waitTime_ceiling (i : nat) : (waitTime i <= 10000)%Q.
Proof. unfold waitTime. apply Q.le_min_r. Qed.

Lemma waitTime_capped (i : nat) : (waitTime (6 + i) == 10000)%Q.
Proof.
  unfold waitTime. pose proof (pow_three_halves_large i) as H.
  apply Q.min_r. lra.
Qed.

Section Ready.
Context {W : Type} (h : handler clientE W).
Variable serviceName : jsval.

(** The client's wait either meets a health request that resolves, after
    fewer than [remaining] rejected ones, or is rejected after exactly
    [remaining] rejected requests; after the rejected request number [j]
    (from 0) it sleeps [waitTime j]. *)
Lemma client_waitForVault_from_run (remaining i maxRetries : nat) (w : W) :
  let r := outcome h (VaultClient.waitForVault_from serviceName i remaining maxRetries) w in
  let tr := trace h (VaultClient.waitForVault_from serviceName i remaining maxRetries) w in
  (r = Err (Error VaultClient.waitForVault_message)
   /\ probes tr = replicate remaining false
   /\ sleeps tr = map waitTime (seq i remaining))
  \/ (r = Ok tt
      /\ exists k : nat, (k < remaining)%nat
           /\ probes tr = replicate k false ++ [true]
           /\ sleeps tr = map waitTime (seq i k)).
Proof.
  revert i w. induction remaining as [| remaining IH]; intros i w.
  - left. repeat split.
  - cbn [VaultClient.waitForVault_from]. run.
    destruct (h _ MakeHealthRequest w) as [[[] | e] w1]; run.
    + right. split; [reflexivity |]. exists 0%nat.
      split; [lia |]. split; reflexivity.
    + set (w3 := (h _ (Sleep _) _).2).
      destruct (IH (S i) w3) as [(Hr & Hp & Hs) | (Hr & k & Hk & Hp & Hs)].
      * left. unfold probes, sleeps in *. rewrite !omap_cons_case.
        cbn [probe_of sleep_of is_ok]. rewrite Hr, Hp, Hs. repeat split.
      * right. split; [exact Hr |]. exists (S k).
        unfold probes, sleeps in *. rewrite !omap_cons_case.
        cbn [probe_of sleep_of is_ok]. rewrite Hp, Hs.
        split; [lia |]. split; reflexivity.
Qed.
End Ready.

(** C7, as stated, fails: the delay is not doubled from one attempt to the
    next; after the first rejected request the client waits 1500 ms. *)
Lemma waitTime_not_doubled :
  ~ (forall i : nat, (waitTime (S i) == Qmin (2 * waitTime i) 10000)%Q).
Proof.
  intros Hclaim. specialize (Hclaim 0%nat). vm_compute in Hclaim.
  discriminate.
Qed.

(** C7, amended. The client's [waitForVault] polls the health endpoint of
    the gateway with an exponential backoff whose delay starts at 1000 ms
    and is multiplied by 1.5 (not 2) from one attempt to the next, up to a
    ceiling of 10000 ms that is reached from the seventh attempt on; for
    every bound [maxRetries] (30 by default) the call is rejected, with the
    error of an unavailable service, exactly when [maxRetries] health
    requests in a row were rejected, and it resolves at the first health
    request that resolves. *)
Theorem client_waitForVault_backoff
    {W : Type} (h : handler clientE W) (w : W)
    (serviceName : jsval) (maxRetries : option nat) :
  let n := default 30%nat maxRetries in
  let r := outcome h (VaultClient.waitForVault serviceName maxRetries) w in
  let tr := trace h (VaultClient.waitForVault serviceName maxRetries) w in
  (waitTime 0 == 1000)%Q
  /\ (waitTime 1 == 1500)%Q
  /\ (forall i : nat, (waitTime (S i) == Qmin ((3 # 2) * waitTime i) 10000)%Q)
  /\ (forall i : nat, (waitTime i <= 10000)%Q)
  /\ (forall i : nat, (waitTime (6 + i) == 10000)%Q)
  /\ (is_err r = true <-> probes tr = replicate n false)
  /\ match r with
     | Err e =>
         e = Error VaultClient.waitForVault_message
         /\ sleeps tr = map waitTime (seq 0 n)
     | Ok _ =>
         exists k : nat, (k < n)%nat
           /\ probes tr = replicate k false ++ [true]
           /\ sleeps tr = map waitTime (seq 0 k)
     end.
Proof.
  split; [exact waitTime_start |].
  split; [vm_compute; reflexivity |].
  split; [exact waitTime_step |].
  split; [exact waitTime_ceiling |].
  split; [exact waitTime_capped |].
  unfold VaultClient.waitForVault. cbv zeta.
  destruct (client_waitForVault_from_run h serviceName
              (default 30%nat maxRetries) 0 (default 30%nat maxRetries) w)
    as [(Hr & Hp & Hs) | (Hr & k & Hk & Hp & Hs)];
    rewrite Hr, Hp.
  - repeat split. exact Hs.
  - split.
    + split; [discriminate |]. intros Heq. exfalso.
      assert (Hin : true ∈ replicate (default 30%nat maxRetries) false).
      { rewrite <- Heq. apply elem_of_app. right.
        apply list_elem_of_singleton. reflexivity. }
      apply elem_of_replicate in Hin. destruct Hin as [Hin _]. discriminate.
    + exists k. rewrite Hs. repeat split. exact Hk.
Qed.

(* --------------------------------------------------------------------- *)
(** ** Rotation of the signing key *)
(* --------------------------------------------------------------------- *)

Lemma toHex_length (bs : list byte) :
  String.length (toHex bs) = (2 * length bs)%nat.
Proof.
  induction bs as [| b bs IH]; simpl; [reflexivity |]. rewrite IH. lia.
Qed.

Lemma next_key_length (w : Store.world) :
  String.length (Store.next_key w) = 128%nat.
Proof.
  unfold Store.next_key, Store.next_bytes.
  rewrite toHex_length, length_map, length_seq. reflexivity.
Qed.

(** What a rotation changes in a document, field by field. *)
Lemma rotated_fields (d : doc) (newSecret now : string) :
  rotated d newSecret now !! "secret" = Some (JStr newSecret)
  /\ rotated d newSecret now !! "rotated_at" = Some (JStr now)
  /\ rotated d newSecret now !! "previous_secret" = d !! "secret"
  /\ (forall k : string,
        k <> "secret" -> k <> "rotated_at" -> k <> "previous_secret" ->
        rotated d newSecret now !! k = d !! k).
Proof.
  unfold rotated, with_property.
  destruct (d !! "secret") as [old |] eqn:Hold.
  - repeat split.
    + rewrite lookup_insert_ne by discriminate.
      rewrite lookup_insert_ne by discriminate. apply lookup_insert_eq.
    + rewrite lookup_insert_ne by discriminate. apply lookup_insert_eq.
    + apply lookup_insert_eq.
    + intros k H1 H2 H3. rewrite !lookup_insert_ne by congruence. reflexivity.
  - repeat split.
    + rewrite lookup_delete_ne by discriminate.
      rewrite lookup_insert_ne by discriminate. apply lookup_insert_eq.
    + rewrite lookup_delete_ne by discriminate. apply lookup_insert_eq.
    + apply lookup_delete_eq.
    + intros k H1 H2 H3. rewrite lookup_delete_ne by congruence.
      rewrite !lookup_insert_ne by congruence. reflexivity.
Qed.

(** One rotation against a reachable store that holds a signing-key
    document. *)
Lemma rotation_run (w : Store.world) (d : doc) :
  Store.up w = true ->
  Store.kv w !! Store.jwt_path = Some d ->
  outcome Store.handle rotateJWTSecret w = Ok (Store.next_key w)
  /\ Store.up (Store.rotation w) = true
  /\ Store.kv (Store.rotation w) =
       <[Store.jwt_path :=
           rotated d (Store.next_key w) (Store.next_stamp w)]> (Store.kv w)
  /\ Store.policies (Store.rotation w) = Store.policies w
  /\ writes (trace Store.handle rotateJWTSecret w) =
       [(Store.jwt_path, rotated d (Store.next_key w) (Store.next_stamp w))].
Proof.
  intros Hup Hd. unfold Store.rotation, rotateJWTSecret, VaultManager.getSecret,
    updateSecret, generateSecureKey.
  change (secret_path "jwt") with Store.jwt_path.
  run. cbn [Store.handle fst snd]. rewrite Hup, Hd. run.
  cbn [Store.handle fst snd Store.draw Store.tick Store.up Store.kv
       Store.set_kv Store.policies Store.clock Store.ticks]. rewrite Hup. run.
  cbn [Store.handle fst snd Store.draw Store.tick Store.up Store.kv
       Store.set_kv Store.policies Store.clock Store.ticks].
  repeat split. exact Hup.
Qed.

(** C1, as stated, fails: the new secret is whatever the random source
    yields, and that can be the secret the document already holds. *)
Lemma rotateJWTSecret_secret_may_repeat :
  ~ (forall (w : Store.world) (d d' : doc),
       Store.up w = true ->
       Store.kv w !! Store.jwt_path = Some d ->
       Store.kv (Store.rotation w) !! Store.jwt_path = Some d' ->
       d' !! "secret" <> d !! "secret").
Proof.
  intros Hclaim.
  set (d := <["secret" := JStr Examples.zeros]> (∅ : doc)).
  assert (Hd : Store.kv Examples.colliding !! Store.jwt_path = Some d)
    by (vm_compute; reflexivity).
  destruct (rotation_run Examples.colliding d eq_refl Hd)
    as (_ & _ & Hkv & _).
  apply (Hclaim Examples.colliding d
           (rotated d (Store.next_key Examples.colliding)
              (Store.next_stamp Examples.colliding)) eq_refl Hd).
  - rewrite Hkv. apply lookup_insert_eq.
  - vm_compute. reflexivity.
Qed.

(** C1, amended. Against a reachable store whose signing-key path holds a
    document [d], [rotateJWTSecret] writes one document, to that path, and
    the store then holds it: its [secret] is the hex text of the next 64
    bytes of the random source, 128 characters long, so it differs from
    [d.secret] unless [d.secret] is that very text (it does differ whenever
    [d.secret] is not a string of 128 characters); its [rotated_at] is the
    time stamp of the clock; its [previous_secret] is [d.secret]; every
    other field is that of [d]; and the call returns the new secret. *)
Theorem rotateJWTSecret_document (w : Store.world) (d : doc) :
  Store.up w = true ->
  Store.kv w !! Store.jwt_path = Some d ->
  exists d' : doc,
    Store.kv (Store.rotation w) !! Store.jwt_path = Some d'
    /\ writes (trace Store.handle rotateJWTSecret w) = [(Store.jwt_path, d')]
    /\ outcome Store.handle rotateJWTSecret w = Ok (Store.next_key w)
    /\ d' !! "secret" = Some (JStr (Store.next_key w))
    /\ String.length (Store.next_key w) = 128%nat
    /\ d' !! "rotated_at" = Some (JStr (Store.next_stamp w))
    /\ d' !! "previous_secret" = d !! "secret"
    /\ (forall k : string,
          k <> "secret" -> k <> "rotated_at" -> k <> "previous_secret" ->
          d' !! k = d !! k)
    /\ (d !! "secret" <> Some (JStr (Store.next_key w)) ->
        d' !! "secret" <> d !! "secret")
    /\ (forall old : string,
          d !! "secret" = Some (JStr old) ->
          String.length old <> 128%nat ->
          d' !! "secret" <> d !! "secret").
Proof.
  intros Hup Hd.
  destruct (rotation_run w d Hup Hd) as (Hout & _ & Hkv & _ & Hwr).
  destruct (rotated_fields d (Store.next_key w) (Store.next_stamp w))
    as (Hs & Hr & Hp & Hk).
  exists (rotated d (Store.next_key w) (Store.next_stamp w)).
  split; [rewrite Hkv; apply lookup_insert_eq |].
  split; [exact Hwr |]. split; [exact Hout |]. split; [exact Hs |].
  split; [apply next_key_length |]. split; [exact Hr |].
  split; [exact Hp |]. split; [exact Hk |]. split.
  - intros Hne. rewrite Hs. congruence.
  - intros old Hold Hlen. rewrite Hs, Hold. intros Heq.
    inversion Heq as [Hkey]. apply Hlen. rewrite <- Hkey.
    apply next_key_length.
Qed.

Lemma rotateJWTSecret_document_witness :
  exists d' : doc,
    Store.kv (Store.rotation Examples.with_s1) !! Store.jwt_path = Some d'
    /\ d' !! "secret" <> Some (JStr "s1")
    /\ d' !! "previous_secret" = Some (JStr "s1")
    /\ d' !! "algorithm" = Some (JStr "HS256").
Proof.
  destruct (rotateJWTSecret_document Examples.with_s1
              (<["secret" := JStr "s1"]>
                 (<["algorithm" := JStr "HS256"]> ∅))
              eq_refl eq_refl)
    as (d' & Hkv & _ & _ & _ & _ & _ & Hp & Hk & _ & Hne).
  exists d'. split; [exact Hkv |]. split; [| split].
  - apply (Hne "s1"); [reflexivity | discriminate].
  - rewrite Hp. reflexivity.
  - rewrite Hk by discriminate. reflexivity.
Defined.

(** A rotation of a document whose secret is [k1] and that agrees with [d]
    on the fields a rotation does not touch: only [k1] is kept as the
    previous secret, on top of the fields of [d]. *)
Lemma rotated_over (x d : doc) (k1 k2 t2 : string) :
  x !! "secret" = Some (JStr k1) ->
  (forall k : string,
     k <> "secret" -> k <> "rotated_at" -> k <> "previous_secret" ->
     x !! k = d !! k) ->
  rotated x k2 t2 =
    <["previous_secret" := JStr k1]>
      (<["rotated_at" := JStr t2]> (<["secret" := JStr k2]> d)).
Proof.
  intros Hx Hsame. apply map_eq. intros k.
  destruct (rotated_fields x k2 t2) as (Hs & Hr & Hp & Hk).
  destruct (decide (k = "previous_secret")) as [-> | Hn1].
  { rewrite Hp, Hx, lookup_insert_eq. reflexivity. }
  rewrite (lookup_insert_ne _ "previous_secret") by congruence.
  destruct (decide (k = "rotated_at")) as [-> | Hn2].
  { rewrite Hr, lookup_insert_eq. reflexivity. }
  rewrite (lookup_insert_ne _ "rotated_at") by congruence.
  destruct (decide (k = "secret")) as [-> | Hn3].
  { rewrite Hs, lookup_insert_eq. reflexivity. }
  rewrite (lookup_insert_ne _ "secret") by congruence.
  rewrite Hk by assumption. apply Hsame; assumption.
Qed.

(** After any number of rotations the store is reachable and holds a
    signing-key document that agrees with the first one outside the three
    fields of a rotation; after at least one, its secret is the key of the
    last rotation. *)
Lemma rotations_run (w : Store.world) (d : doc) (m : nat) :
  Store.up w = true ->
  Store.kv w !! Store.jwt_path = Some d ->
  Store.up (Nat.iter m Store.rotation w) = true
  /\ exists dm : doc,
       Store.kv (Nat.iter m Store.rotation w) !! Store.jwt_path = Some dm
       /\ (forall k : string,
             k <> "secret" -> k <> "rotated_at" -> k <> "previous_secret" ->
             dm !! k = d !! k)
       /\ match m with
          | O => dm = d
          | S m' =>
              dm !! "secret" =
                Some (JStr (Store.next_key (Nat.iter m' Store.rotation w)))
          end.
Proof.
  intros Hup Hd. induction m as [| m IH].
  - simpl. split; [exact Hup |]. exists d. repeat split. exact Hd.
  - destruct IH as (Hupm & dm & Hdm & Hsame & _).
    rewrite Nat.iter_succ.
    destruct (rotation_run _ dm Hupm Hdm) as (_ & Hup' & Hkv & _).
    destruct (rotated_fields dm (Store.next_key (Nat.iter m Store.rotation w))
                (Store.next_stamp (Nat.iter m Store.rotation w)))
      as (Hs & _ & _ & Hk).
    split; [exact Hup' |].
    eexists. split; [rewrite Hkv; apply lookup_insert_eq |].
    split; [| exact Hs].
    intros k H1 H2 H3. rewrite Hk by assumption. apply Hsame; assumption.
Qed.

(** C3. Against a reachable store whose signing-key path holds a document
    [d], after [n >= 2] rotations in a row the path holds exactly [d] with
    three fields set: [secret] is the key of the last rotation,
    [rotated_at] its time stamp, and [previous_secret] the key of the
    rotation before it, which was the secret of the document right before
    the last rotation. No other field differs from [d]: neither the secret
    [d] started with nor the key of any earlier rotation is kept. *)
Theorem rotation_keeps_one_previous (w : Store.world) (d : doc) (n : nat) :
  Store.up w = true ->
  Store.kv w !! Store.jwt_path = Some d ->
  (2 <= n)%nat ->
  let earlier := Nat.iter (n - 2) Store.rotation w in
  let before := Nat.iter (n - 1) Store.rotation w in
  let final := Nat.iter n Store.rotation w in
  Store.kv final !! Store.jwt_path =
    Some (<["previous_secret" := JStr (Store.next_key earlier)]>
            (<["rotated_at" := JStr (Store.next_stamp before)]>
               (<["secret" := JStr (Store.next_key before)]> d)))
  /\ Store.kv before !! Store.jwt_path ≫= (.!! "secret")
     = Some (JStr (Store.next_key earlier))
  /\ Store.kv final !! Store.jwt_path ≫= (.!! "previous_secret")
     = Store.kv before !! Store.jwt_path ≫= (.!! "secret").
Proof.
  intros Hup Hd Hn. destruct n as [| [| m]]; try lia.
  replace (S (S m) - 2)%nat with m by lia.
  replace (S (S m) - 1)%nat with (S m) by lia.
  cbv zeta.
  destruct (rotations_run w d (S m) Hup Hd) as (Hup1 & d1 & Hd1 & Hsame & Hs1).
  destruct (rotation_run _ d1 Hup1 Hd1) as (_ & _ & Hkv & _).
  assert (Hfinal :
    Store.kv (Nat.iter (S (S m)) Store.rotation w) !! Store.jwt_path =
      Some (<["previous_secret" :=
                JStr (Store.next_key (Nat.iter m Store.rotation w))]>
              (<["rotated_at" :=
                   JStr (Store.next_stamp (Nat.iter (S m) Store.rotation w))]>
                 (<["secret" :=
                      JStr (Store.next_key (Nat.iter (S m) Store.rotation w))]>
                    d)))).
  { rewrite (Nat.iter_succ (S m)).
    rewrite Hkv, lookup_insert_eq. f_equal.
    apply rotated_over; assumption. }
  split; [exact Hfinal |]. split.
  - rewrite Hd1. simpl. exact Hs1.
  - rewrite Hfinal, Hd1. simpl. rewrite lookup_insert_eq. symmetry. exact Hs1.
Qed.

Lemma rotation_keeps_one_previous_witness :
  Store.kv (Nat.iter 3 Store.rotation Examples.with_s1) !! Store.jwt_path
    ≫= (.!! "previous_secret")
  = Store.kv (Nat.iter 2 Store.rotation Examples.with_s1) !! Store.jwt_path
      ≫= (.!! "secret").
Proof.
  destruct (rotation_keeps_one_previous Examples.with_s1
              (<["secret" := JStr "s1"]>
                 (<["algorithm" := JStr "HS256"]> ∅)) 3
              eq_refl eq_refl ltac:(lia)) as (_ & _ & H).
  exact H.
Defined.

(* --------------------------------------------------------------------- *)
(** ** Bootstrap against the key-value store: seeding is idempotent *)
(* --------------------------------------------------------------------- *)

Ltac store_step :=
  cbn [Store.handle fst snd Store.up Store.kv Store.policies Store.set_kv
       Store.set_policies].

(** The wait of the gateway against the store: it changes nothing, and it
    resolves exactly when the store is reachable. *)
Lemma waitForVault_from_store (remaining i maxRetries : nat) (w : Store.world) :
  after Store.handle (VaultManager.waitForVault_from i remaining maxRetries) w = w
  /\ writes (trace Store.handle (VaultManager.waitForVault_from i remaining maxRetries) w) = []
  /\ outcome Store.handle (VaultManager.waitForVault_from i remaining maxRetries) w =
       match remaining with
       | O => Err (Error VaultManager.waitForVault_message)
       | S _ => if Store.up w then Ok tt
                else Err (Error VaultManager.waitForVault_message)
       end.
Proof.
  revert i. induction remaining as [| remaining IH]; intros i.
  - repeat split.
  - cbn [VaultManager.waitForVault_from]. run. store_step.
    destruct (Store.up w) eqn:Hup; run; store_step.
    + repeat split.
    + destruct (IH (S i)) as (Ha & Hw & Ho). rewrite Ha, Ho.
      unfold writes in *. rewrite !omap_cons_case. cbn [write_of].
      rewrite Hw. repeat split. destruct remaining; reflexivity.
Qed.

Lemma install_run (table : list (string * rules)) (w : Store.world) :
  Store.up w = true ->
  Store.up (after Store.handle (for_of table installPolicy) w) = true
  /\ Store.kv (after Store.handle (for_of table installPolicy) w) = Store.kv w
  /\ Store.policies (after Store.handle (for_of table installPolicy) w)
     = install table (Store.policies w)
  /\ writes (trace Store.handle (for_of table installPolicy) w) = [].
Proof.
  revert w. induction table as [| [name policy] rest IH]; intros w Hup.
  - repeat split. exact Hup.
  - cbn [for_of installPolicy install]. run. store_step. rewrite Hup. run.
    store_step.
    destruct (IH (Store.set_policies (<[name := policy]> (Store.policies w)) w)
                Hup) as (H1 & H2 & H3 & H4).
    rewrite H1, H2, H3. unfold writes in *. rewrite !omap_cons_case.
    cbn [write_of]. rewrite H4. repeat split.
Qed.

Lemma seed_run (entries : list (string * doc)) (w : Store.world) :
  Store.up w = true ->
  Store.up (after Store.handle (for_of entries storeSecret) w) = true
  /\ Store.kv (after Store.handle (for_of entries storeSecret) w)
     = seed entries (Store.kv w)
  /\ Store.policies (after Store.handle (for_of entries storeSecret) w)
     = Store.policies w
  /\ writes (trace Store.handle (for_of entries storeSecret) w)
     = seeded entries (Store.kv w).
Proof.
  revert w. induction entries as [| [path secret] rest IH]; intros w Hup.
  - repeat split. exact Hup.
  - cbn [for_of storeSecret seed seeded]. run. store_step. rewrite Hup.
    destruct (Store.kv w !! path) as [found |] eqn:Hfound; run; store_step.
    + destruct (IH w Hup) as (H1 & H2 & H3 & H4).
      rewrite H1, H2, H3. unfold writes in *. rewrite !omap_cons_case.
      cbn [write_of]. rewrite H4. repeat split.
    + rewrite Hup. run. store_step.
      destruct (IH (Store.set_kv (<[path := secret]> (Store.kv w)) w) Hup)
        as (H1 & H2 & H3 & H4).
      rewrite H1, H2, H3. unfold writes in *. rewrite !omap_cons_case.
      cbn [write_of]. rewrite H4. repeat split.
Qed.

Lemma seed_keeps (entries : list (string * doc)) (m : gmap string doc)
    (path : string) (d : doc) :
  m !! path = Some d -> seed entries m !! path = Some d.
Proof.
  revert m. induction entries as [| [p secret] rest IH]; intros m Hm; simpl.
  - exact Hm.
  - apply IH. destruct (m !! p) eqn:Hp; [exact Hm |].
    rewrite lookup_insert_ne; [exact Hm |]. congruence.
Qed.

Lemma seed_present (entries : list (string * doc)) (m : gmap string doc)
    (path : string) :
  path ∈ map fst entries -> is_Some (seed entries m !! path).
Proof.
  revert m. induction entries as [| [p secret] rest IH]; intros m Hin; simpl.
  - inversion Hin.
  - simpl in Hin. apply elem_of_cons in Hin. destruct Hin as [-> | Hin].
    + destruct (m !! p) as [d |] eqn:Hp.
      * exists d. apply seed_keeps, Hp.
      * exists secret. apply seed_keeps, lookup_insert_eq.
    + apply IH, Hin.
Qed.

Lemma seed_noop (entries : list (string * doc)) (m : gmap string doc) :
  (forall path, path ∈ map fst entries -> is_Some (m !! path)) ->
  seed entries m = m /\ seeded entries m = [].
Proof.
  induction entries as [| [p secret] rest IH]; intros Hall; simpl.
  - split; reflexivity.
  - destruct (Hall p) as [d Hd]; [simpl; apply elem_of_cons; left; reflexivity |].
    rewrite Hd. apply IH. intros path Hin. apply Hall. simpl.
    apply elem_of_cons. right. exact Hin.
Qed.

Lemma install_union (table : list (string * rules)) (m : gmap string rules) :
  install table m = list_to_map (reverse table) ∪ m.
Proof.
  revert m. induction table as [| [name policy] rest IH]; intros m; simpl.
  - rewrite (left_id_L ∅ (∪)). reflexivity.
  - rewrite IH, reverse_cons, list_to_map_app. simpl.
    rewrite <- (assoc_L (∪)). f_equal.
    rewrite insert_union_singleton_l. rewrite insert_empty. reflexivity.
Qed.

Lemma install_twice (table : list (string * rules)) (m : gmap string rules) :
  install table (install table m) = install table m.
Proof.
  rewrite !install_union. rewrite (assoc_L (∪)).
  rewrite (idemp_L (∪)). reflexivity.
Qed.

Lemma setupPolicies_store (w : Store.world) :
  Store.up w = true ->
  outcome Store.handle setupPolicies w = Ok tt
  /\ Store.up (after Store.handle setupPolicies w) = true
  /\ Store.kv (after Store.handle setupPolicies w) = Store.kv w
  /\ Store.policies (after Store.handle setupPolicies w)
     = install policies_table (Store.policies w)
  /\ writes (trace Store.handle setupPolicies w) = [].
Proof.
  intros Hup.
  split; [apply (returns_only_outcome Store.handle _ setupPolicies w
                   setupPolicies_resolves) |].
  unfold setupPolicies. run. rewrite app_nil_r.
  apply install_run, Hup.
Qed.

Lemma storeInitialSecrets_eq :
  storeInitialSecrets =
    bind initialSecrets
      (fun secrets => bind (for_of secrets storeSecret) (fun _ => Ret (Ok tt))).
Proof. reflexivity. Qed.

Lemma storeInitialSecrets_store (w : Store.world) :
  Store.up w = true ->
  outcome Store.handle storeInitialSecrets w = Ok tt
  /\ exists secrets : list (string * doc),
       map fst secrets = secret_paths
       /\ Store.up (after Store.handle storeInitialSecrets w) = true
       /\ Store.kv (after Store.handle storeInitialSecrets w)
          = seed secrets (Store.kv w)
       /\ Store.policies (after Store.handle storeInitialSecrets w)
          = Store.policies w
       /\ writes (trace Store.handle storeInitialSecrets w)
          = seeded secrets (Store.kv w).
Proof.
  intros Hup.
  split; [apply (returns_only_outcome Store.handle _ storeInitialSecrets w
                   storeInitialSecrets_resolves) |].
  pose proof (returns_only_outcome Store.handle _ initialSecrets w
                initialSecrets_paths) as Hpaths.
  destruct (local_keeps_store initialSecrets w initialSecrets_local)
    as (Hup1 & Hkv1 & Hpol1).
  destruct (local_no_store_call Store.handle initialSecrets w
              initialSecrets_local) as (Hw1 & _ & _).
  rewrite storeInitialSecrets_eq.
  rewrite after_bind, trace_bind, after_bind, trace_bind, after_ret, trace_ret,
    app_nil_r.
  revert Hpaths Hup1 Hkv1 Hpol1 Hw1.
  generalize (outcome Store.handle initialSecrets w).
  generalize (after Store.handle initialSecrets w).
  generalize (trace Store.handle initialSecrets w).
  intros tr0 w1 secrets Hpaths Hup1 Hkv1 Hpol1 Hw1.
  rewrite Hup in Hup1.
  destruct (seed_run secrets w1 Hup1) as (H1 & H2 & H3 & H4).
  exists secrets. rewrite H1, H2, H3, Hkv1, Hpol1.
  unfold writes in *. rewrite omap_app, Hw1, H4, Hkv1.
  split; [exact Hpaths |]. repeat split.
Qed.

(** What one start of the gateway does to the store. *)
Lemma initialize_store (this : manager) (w : Store.world) :
  let w' := after Store.handle (initialize this) w in
  let tr := trace Store.handle (initialize this) w in
  Store.up w' = Store.up w
  /\ if Store.up w then
       exists secrets : list (string * doc),
         map fst secrets = secret_paths
         /\ Store.kv w' = seed secrets (Store.kv w)
         /\ Store.policies w' = install policies_table (Store.policies w)
         /\ writes tr = seeded secrets (Store.kv w)
     else
       Store.kv w' = Store.kv w
       /\ Store.policies w' = Store.policies w
       /\ writes tr = [].
Proof.
  unfold initialize, VaultManager.waitForVault. run. store_step.
  destruct (waitForVault_from_store 30 0 30 w) as (Ha & Hw & Ho).
  rewrite Ha, Ho. unfold writes in *. rewrite omap_cons_case.
  cbn [write_of]. rewrite omap_app, Hw. cbn [app].
  destruct (Store.up w) eqn:Hup.
  - destruct (setupPolicies_store w Hup) as (Hp0 & Hp1 & Hp2 & Hp3 & Hp4).
    run. rewrite Hp0. run.
    revert Hp1 Hp2 Hp3 Hp4.
    generalize (trace Store.handle setupPolicies w).
    generalize (after Store.handle setupPolicies w).
    intros w2 tr2 Hp1 Hp2 Hp3 Hp4.
    destruct (storeInitialSecrets_store w2 Hp1)
      as (Hs0 & secrets & Hs1 & Hs2 & Hs3 & Hs4 & Hs5).
    rewrite Hs0.
    revert Hs2 Hs3 Hs4 Hs5.
    generalize (trace Store.handle storeInitialSecrets w2).
    generalize (after Store.handle storeInitialSecrets w2).
    intros w3 tr3 Hs2 Hs3 Hs4 Hs5.
    run. store_step.
    split; [exact Hs2 |]. exists secrets.
    split; [exact Hs1 |].
    split; [rewrite Hs3, Hp2; reflexivity |].
    split; [rewrite Hs4, Hp3; reflexivity |].
    unfold writes in *. rewrite !omap_app, Hp4, Hs5, Hp2. simpl.
    apply app_nil_r.
  - run. store_step. repeat split. exact Hup.
Qed.

(** C2. Seeding probes each of the seven fixed paths, in order, and writes
    a document only right after the probe of its path was rejected, whatever
    the store answers. Against the key-value store, in any state: starting
    the gateway overwrites no document the store already holds, and
    starting it a second time right after changes no document and no
    policy, and writes nothing - the credentials generated by the second
    start are dropped. *)
Theorem initialize_idempotent (w : Store.world) (this this' : manager) :
  let once := after Store.handle (initialize this) w in
  let twice := after Store.handle (initialize this') once in
  Store.kv twice = Store.kv once
  /\ Store.policies twice = Store.policies once
  /\ writes (trace Store.handle (initialize this') once) = []
  /\ (forall (path : string) (d : doc),
        Store.kv w !! path = Some d -> Store.kv once !! path = Some d)
  /\ (forall (W : Type) (h : handler vaultE W) (w0 : W),
        reads (trace h storeInitialSecrets w0) = secret_paths
        /\ guarded_writes None (trace h storeInitialSecrets w0)).
Proof.
  cbv zeta.
  destruct (initialize_store this w) as (Hup1 & H1).
  revert Hup1 H1.
  generalize (trace Store.handle (initialize this) w).
  generalize (after Store.handle (initialize this) w).
  intros once tr1 Hup1 H1.
  destruct (initialize_store this' once) as (Hup2 & H2).
  revert Hup2 H2.
  generalize (trace Store.handle (initialize this') once).
  generalize (after Store.handle (initialize this') once).
  intros twice tr2 Hup2 H2.
  assert (Hgen : forall (W : Type) (h : handler vaultE W) (w0 : W),
            reads (trace h storeInitialSecrets w0) = secret_paths
            /\ guarded_writes None (trace h storeInitialSecrets w0))
    by (intros W h w0; apply storeInitialSecrets_probe_first).
  rewrite Hup1 in H2.
  destruct (Store.up w) eqn:Hup.
  - destruct H1 as (secrets1 & Hp1 & Hkv1 & Hpol1 & _).
    destruct H2 as (secrets2 & Hp2 & Hkv2 & Hpol2 & Hwr2).
    destruct (seed_noop secrets2 (Store.kv once)) as [Hsame Hnone].
    { intros path Hin. rewrite Hkv1. apply seed_present.
      rewrite Hp1, <- Hp2. exact Hin. }
    split; [rewrite Hkv2; exact Hsame |].
    split; [rewrite Hpol2, Hpol1; apply install_twice |].
    split; [rewrite Hwr2; exact Hnone |].
    split; [| exact Hgen].
    intros path d Hd. rewrite Hkv1. apply seed_keeps, Hd.
  - destruct H1 as (Hkv1 & Hpol1 & _). destruct H2 as (Hkv2 & Hpol2 & Hwr2).
    split; [exact Hkv2 |]. split; [exact Hpol2 |]. split; [exact Hwr2 |].
    split; [| exact Hgen].
    intros path d Hd. rewrite Hkv1. exact Hd.
Qed.

Lemma initialize_idempotent_witness :
  Store.kv (after Store.handle (initialize (Manager false)) Examples.with_s1)
    !! Store.jwt_path
  = Some (<["secret" := JStr "s1"]> (<["algorithm" := JStr "HS256"]> ∅)).
Proof.
  destruct (initialize_idempotent Examples.with_s1 (Manager false)
              (Manager true)) as (_ & _ & _ & Hkeeps & _).
  apply Hkeeps. reflexivity.
Defined.

(* --------------------------------------------------------------------- *)
(** ** The URL of the database *)
(* --------------------------------------------------------------------- *)




(* --------------------------------------------------------------------- *)
(** ** Masking a secret for the logs *)
(* --------------------------------------------------------------------- *)

Lemma chars_append (s1 s2 : string) :
  SecretManager.chars (s1 +:+ s2)
  = SecretManager.chars s1 ++ SecretManager.chars s2.
Proof.
  induction s1 as [| a s1 IH]; [reflexivity |].
  change (a :: SecretManager.chars (s1 +:+ s2)
          = a :: (SecretManager.chars s1 ++ SecretManager.chars s2)).
  rewrite IH. reflexivity.
Qed.

Lemma chars_prefix (n : nat) (s : string) :
  SecretManager.chars (String.substring 0 n s)
  = take n (SecretManager.chars s).
Proof.
  revert s. induction n as [| n IH]; intros [| a s]; simpl; try reflexivity.
  rewrite IH. reflexivity.
Qed.

Lemma chars_repeat_star (n : nat) :
  SecretManager.chars (SecretManager.repeat_star n) = replicate n "*"%char.
Proof. induction n as [| n IH]; simpl; [| rewrite IH]; reflexivity. Qed.

Lemma chars_length (s : string) :
  length (SecretManager.chars s) = String.length s.
Proof. induction s as [| a s IH]; simpl; [| rewrite IH]; reflexivity. Qed.

Lemma chars_inj (s1 s2 : string) :
  SecretManager.chars s1 = SecretManager.chars s2 -> s1 = s2.
Proof.
  intros H. rewrite <- (Strings.String.string_of_list_ascii_of_string s1),
    <- (Strings.String.string_of_list_ascii_of_string s2), H. reflexivity.
Qed.

(** C10. [maskSecret(s, v)], with [v = 4] when it is not given: if [s] is
    empty or not longer than [v] the result is the three characters [***];
    otherwise it is the first [v] characters of [s] (none when [v] is
    negative) followed by [min(length s - v, 8)] asterisks, so at most [v]
    characters of [s] are shown. The result depends on [s] through its
    length and its first [v] characters only: two secrets of the same
    length with the same first [v] characters are masked alike. *)
Theorem maskSecret_shows_prefix_only (secret : string) (visibleChars : option Z) :
  let v := default 4 visibleChars in
  let n := Z.of_nat (String.length secret) in
  (if decide (secret = "" \/ n <= v) then
     SecretManager.maskSecret secret visibleChars = "***"
   else
     SecretManager.chars (SecretManager.maskSecret secret visibleChars)
     = take (Z.to_nat v) (SecretManager.chars secret)
       ++ replicate (Z.to_nat (Z.min (n - v) 8)) "*"%char)
  /\ SecretManager.maskSecret "" visibleChars = "***"
  /\ (forall secret' : string,
        String.length secret' = String.length secret ->
        take (Z.to_nat v) (SecretManager.chars secret')
        = take (Z.to_nat v) (SecretManager.chars secret) ->
        SecretManager.maskSecret secret' visibleChars
        = SecretManager.maskSecret secret visibleChars).
Proof.
  cbv zeta. split; [| split].
  - unfold SecretManager.maskSecret.
    destruct (decide _) as [[-> | Hshort] | Hlong].
    + reflexivity.
    + apply Z.leb_le in Hshort. rewrite Hshort, orb_true_r. reflexivity.
    + assert (Hne : String.eqb secret "" = false).
      { apply String.eqb_neq. tauto. }
      assert (Hgt : (Z.of_nat (String.length secret)
                       <=? default 4 visibleChars)%Z = false).
      { apply Z.leb_gt. lia. }
      rewrite Hne, Hgt. cbn [orb].
      rewrite chars_append, chars_prefix, chars_repeat_star. reflexivity.
  - reflexivity.
  - intros secret' Hlen Htake. unfold SecretManager.maskSecret.
    rewrite Hlen.
    assert (Hempty : String.eqb secret' "" = String.eqb secret "").
    { destruct secret, secret'; try discriminate; reflexivity. }
    rewrite Hempty.
    assert (Hsub : String.substring 0 (Z.to_nat (default 4 visibleChars)) secret'
                   = String.substring 0 (Z.to_nat (default 4 visibleChars)) secret).
    { apply chars_inj. rewrite !chars_prefix. exact Htake. }
    rewrite Hsub. reflexivity.
Qed.

Lemma maskSecret_shows_prefix_only_witness :
  SecretManager.maskSecret "hunter2-is-secret" None = "hunt********"
  /\ SecretManager.maskSecret "huntABCDEFGHIJKLM" None
     = SecretManager.maskSecret "hunter2-is-secret" None.
Proof.
  split; [reflexivity |].
  destruct (maskSecret_shows_prefix_only "hunter2-is-secret" None)
    as (_ & _ & Hsame).
  apply Hsame; reflexivity.
Defined.

(* --------------------------------------------------------------------- *)
(** ** The generators of the gateway *)
(* --------------------------------------------------------------------- *)

Lemma chars_get (s : string) (i : nat) (c : ascii) :
  String.get i s = Some c -> c ∈ SecretManager.chars s.
Proof.
  revert i. induction s as [| a s IH]; intros i Hget; simpl in *.
  - discriminate.
  - destruct i as [| i].
    + inversion Hget. apply list_elem_of_here.
    + apply list_elem_of_further. apply (IH i). exact Hget.
Qed.

Lemma get_below (s : string) (i : nat) :
  (i < String.length s)%nat -> exists c, String.get i s = Some c.
Proof.
  revert i. induction s as [| a s IH]; intros i Hi; simpl in *; [lia |].
  destruct i as [| i]; [eauto |]. apply IH. lia.
Qed.

Lemma length_append (s t : string) :
  String.length (s +:+ t) = (String.length s + String.length t)%nat.
Proof.
  rewrite <- !chars_length, chars_append, length_app. reflexivity.
Qed.

Lemma over_append (alphabet s t : string) :
  Gateway.over alphabet s -> Gateway.over alphabet t ->
  Gateway.over alphabet (s +:+ t).
Proof.
  unfold Gateway.over. rewrite chars_append. intros Hs Ht.
  apply Forall_app. split; assumption.
Qed.

Lemma char_at_below (s : string) (i : nat) :
  (i < String.length s)%nat ->
  String.length (VaultManager.char_at s i) = 1%nat
  /\ Gateway.over s (VaultManager.char_at s i).
Proof.
  intros Hi. unfold VaultManager.char_at.
  destruct (get_below s i Hi) as [c Hc]. rewrite Hc. split; [reflexivity |].
  unfold Gateway.over. simpl. constructor; [| constructor].
  apply (chars_get s i). exact Hc.
Qed.

Section Generators.
Context {W : Type} (h : handler vaultE W).

Lemma generateSecurePassword_from_run (remaining : nat) (password : string)
    (w : W) :
  Gateway.fair (trace h (generateSecurePassword_from remaining password) w) ->
  Gateway.over VaultManager.charset password ->
  String.length (outcome h (generateSecurePassword_from remaining password) w)
  = (String.length password + remaining)%nat
  /\ Gateway.over VaultManager.charset
       (outcome h (generateSecurePassword_from remaining password) w).
Proof.
  revert password w.
  induction remaining as [| remaining IH]; intros password w Hfair Hover.
  - cbn [generateSecurePassword_from]. run. split; [lia | exact Hover].
  - cbn [generateSecurePassword_from] in *. revert Hfair. run.
    destruct (h _ (MathRandomFloor _) w) as [i w1]. cbn [fst snd].
    intros [Hidx Hbytes]. rewrite omap_cons_case in Hidx.
    rewrite omap_cons_case in Hbytes.
    cbn [Gateway.index_of Gateway.bytes_of] in Hidx, Hbytes.
    apply Forall_cons in Hidx. destruct Hidx as [Hi Hidx]. cbn [fst snd] in Hi.
    destruct (char_at_below VaultManager.charset i Hi) as [Hlen Hc].
    destruct (IH (password +:+ VaultManager.char_at VaultManager.charset i) w1)
      as [Hl Ho].
    + split; assumption.
    + apply over_append; assumption.
    + split; [| exact Ho]. rewrite Hl, length_append, Hlen. lia.
Qed.

Lemma generateSecurePassword_length_alphabet' (w : W) (length : nat) :
  Gateway.fair (trace h (VaultManager.generateSecurePassword length) w) ->
  String.length (outcome h (VaultManager.generateSecurePassword length) w)
  = length
  /\ Gateway.over VaultManager.charset
       (outcome h (VaultManager.generateSecurePassword length) w).
Proof.
  intros Hfair. unfold VaultManager.generateSecurePassword in *.
  destruct (generateSecurePassword_from_run length "" w Hfair) as [Hl Ho].
  - constructor.
  - split; [exact Hl | exact Ho].
Qed.
End Generators.

(** X1. [generateSecurePassword(length)] of the gateway returns a string of
    exactly [length] characters, each taken from the 70 characters of its
    alphabet, whenever the indices [Math.floor(Math.random() * 70)] it draws
    are below 70. *)
Theorem generateSecurePassword_length_alphabet
    {W : Type} (h : handler vaultE W) (w : W) (length : nat) :
  Gateway.fair (trace h (VaultManager.generateSecurePassword length) w) ->
  String.length (outcome h (VaultManager.generateSecurePassword length) w)
  = length
  /\ Gateway.over VaultManager.charset
       (outcome h (VaultManager.generateSecurePassword length) w).
Proof. apply generateSecurePassword_length_alphabet'. Qed.

Lemma generateSecurePassword_length_alphabet_witness :
  String.length
    (outcome Store.handle (VaultManager.generateSecurePassword 24)
       Examples.fresh) = 24%nat.
Proof.
  apply (generateSecurePassword_length_alphabet Store.handle Examples.fresh 24).
  vm_compute. split; repeat constructor.
Defined.

Lemma hex_digit_alphabet (n : N) :
  hex_digit n ∈ SecretManager.chars Gateway.hex_alphabet.
Proof.
  apply list_elem_of_In.
  destruct n as [| [[[[p | p |] | [p | p |] |] | [[p | p |] | [p | p |] |] |]
                   | [[[p | p |] | [p | p |] |] | [[p | p |] | [p | p |] |] |]
                   |]];
    vm_compute; tauto.
Qed.

Lemma toHex_alphabet (bs : list byte) : Gateway.over Gateway.hex_alphabet (toHex bs).
Proof.
  unfold Gateway.over. induction bs as [| b bs IH]; simpl.
  - constructor.
  - constructor; [apply hex_digit_alphabet |].
    constructor; [apply hex_digit_alphabet | exact IH].
Qed.

(** X2. [generateSecureKey(length)] of the gateway returns [2 * length]
    characters, all of them lower-case hexadecimal digits, whenever
    [crypto.randomBytes(length)] yields [length] bytes; the digits alone
    need no assumption. *)
Theorem generateSecureKey_hex
    {W : Type} (h : handler vaultE W) (w : W) (length : nat) :
  Gateway.over Gateway.hex_alphabet (outcome h (generateSecureKey length) w)
  /\ (Gateway.fair (trace h (generateSecureKey length) w) ->
      String.length (outcome h (generateSecureKey length) w)
      = (2 * length)%nat).
Proof.
  unfold generateSecureKey. run.
  destruct (h _ (RandomBytes length) w) as [bytes w1]. cbn [fst snd].
  split; [apply toHex_alphabet |].
  intros [_ Hbytes]. rewrite omap_cons_case in Hbytes.
  cbn [Gateway.bytes_of] in Hbytes.
  apply Forall_cons in Hbytes. destruct Hbytes as [Hlen _].
  cbn [fst snd] in Hlen. rewrite toHex_length, Hlen. reflexivity.
Qed.

Lemma generateSecureKey_hex_witness :
  String.length (outcome Store.handle (generateSecureKey 64) Examples.fresh)
  = 128%nat.
Proof.
  apply (generateSecureKey_hex Store.handle Examples.fresh 64).
  vm_compute. split; repeat constructor.
Defined.

(* --------------------------------------------------------------------- *)
(** ** What a first start leaves in a reachable store *)
(* --------------------------------------------------------------------- *)

Lemma fair_app (a b : list (obs vaultE)) :
  Gateway.fair (a ++ b) <-> Gateway.fair a /\ Gateway.fair b.
Proof.
  unfold Gateway.fair. rewrite !omap_app, !Forall_app. tauto.
Qed.

(** The random sources of the store model are fair to every program that
    never asks for an index below zero. *)
Lemma store_fair {A} (p : vprog A) (w : Store.world) :
  calls_only Gateway.bounded p -> Gateway.fair (trace Store.handle p w).
Proof.
  revert w. induction p as [a | T e k IH]; intros w Hp.
  - split; constructor.
  - destruct Hp as [He Hk]. rewrite trace_vis.
    destruct (IH (Store.handle T e w).1 (Store.handle T e w).2 (Hk _))
      as [Hi Hb].
    split; rewrite omap_cons_case.
    + destruct e; cbn [Gateway.index_of]; try exact Hi.
      constructor; [| exact Hi]. cbn [Store.handle fst snd].
      apply Nat.mod_upper_bound. exact He.
    + destruct e; cbn [Gateway.bytes_of]; try exact Hb.
      constructor; [| exact Hb]. cbn [Store.handle fst snd].
      unfold Store.next_bytes. rewrite length_map, length_seq. reflexivity.
Qed.

Lemma initialSecrets_bounded : calls_only Gateway.bounded initialSecrets.
Proof.
  assert (Hpw : forall n s,
            calls_only Gateway.bounded (generateSecurePassword_from n s)).
  { induction n as [| n IH]; intros s; simpl; [exact I |].
    split; [discriminate |]. intros t. apply IH. }
  unfold initialSecrets.
  repeat first
    [ exact I
    | intros ?
    | match goal with
      | |- calls_only Gateway.bounded (call _) =>
          simpl; split; [exact I | intros; exact I]
      | |- calls_only Gateway.bounded (VaultManager.generateSecurePassword _) =>
          apply Hpw
      | |- calls_only Gateway.bounded (generateSecureKey _) =>
          simpl; split; [exact I | intros; exact I]
      | |- calls_only Gateway.bounded (env_or _ _) =>
          simpl; split; [exact I | intros; exact I]
      | |- calls_only Gateway.bounded (match ?x with _ => _ end) => destruct x
      | |- calls_only Gateway.bounded (bind _ _) => apply calls_only_bind
      end ].
Qed.

(** The first entry of the table of secrets, whatever the environment: the
    document of the database, with its two generated passwords. *)
Lemma initialSecrets_database {W : Type} (h : handler vaultE W) (w : W) :
  Gateway.fair (trace h initialSecrets w) ->
  exists (password root_password : string) (d : doc)
         (rest : list (string * doc)),
    outcome h initialSecrets w = (Gateway.database_path, d) :: rest
    /\ d !! "host" = Some (JStr "database-service")
    /\ d !! "port" = Some (JStr "3306")
    /\ d !! "username" = Some (JStr "user")
    /\ d !! "password" = Some (JStr password)
    /\ d !! "root_password" = Some (JStr root_password)
    /\ String.length password = 24%nat
    /\ Gateway.over VaultManager.charset password
    /\ String.length root_password = 32%nat
    /\ Gateway.over VaultManager.charset root_password.
Proof.
  unfold initialSecrets. rewrite trace_bind, outcome_bind. cbv beta.
  intros Hfair. apply fair_app in Hfair. destruct Hfair as [Hf1 Hfair].
  destruct (generateSecurePassword_length_alphabet' h w 24 Hf1) as [Hl1 Ho1].
  revert Hfair Hl1 Ho1.
  generalize (outcome h (VaultManager.generateSecurePassword 24) w).
  generalize (after h (VaultManager.generateSecurePassword 24) w).
  intros w1 password. rewrite trace_bind, outcome_bind. cbv beta.
  intros Hfair Hl1 Ho1. apply fair_app in Hfair. destruct Hfair as [Hf2 _].
  destruct (generateSecurePassword_length_alphabet' h w1 32 Hf2) as [Hl2 Ho2].
  revert Hl2 Ho2.
  generalize (outcome h (VaultManager.generateSecurePassword 32) w1).
  generalize (after h (VaultManager.generateSecurePassword 32) w1).
  intros w2 root_password Hl2 Ho2.
  exists password, root_password.
  match goal with
  | |- context [outcome h ?p w2] =>
      assert (Hret : returns_only
                (fun secrets =>
                   exists (d : doc) (rest : list (string * doc)),
                     secrets = (Gateway.database_path, d) :: rest
                     /\ d !! "host" = Some (JStr "database-service")
                     /\ d !! "port" = Some (JStr "3306")
                     /\ d !! "username" = Some (JStr "user")
                     /\ d !! "password" = Some (JStr password)
                     /\ d !! "root_password" = Some (JStr root_password)) p);
      [| destruct (returns_only_outcome h _ p w2 Hret)
           as (d & rest & Heq & H1 & H2 & H3 & H4 & H5) ]
  end.
  - repeat (apply returns_only_bind; intros ?).
    eexists. eexists. split; [reflexivity |].
    repeat split; vm_compute; reflexivity.
  - exists d, rest. repeat split; assumption.
Qed.

Lemma seed_other (entries : list (string * doc)) (m : gmap string doc)
    (path : string) :
  path ∉ map fst entries -> seed entries m !! path = m !! path.
Proof.
  revert m. induction entries as [| [p secret] rest IH]; intros m Hout; simpl.
  - reflexivity.
  - simpl in Hout. apply not_elem_of_cons in Hout. destruct Hout as [Hne Hout].
    rewrite IH by exact Hout.
    destruct (m !! p); [reflexivity |].
    apply lookup_insert_ne. congruence.
Qed.

Lemma install_other (table : list (string * rules)) (m : gmap string rules)
    (name : string) :
  name ∉ map fst table -> install table m !! name = m !! name.
Proof.
  revert m. induction table as [| [n policy] rest IH]; intros m Hout; simpl.
  - reflexivity.
  - simpl in Hout. apply not_elem_of_cons in Hout. destruct Hout as [Hne Hout].
    rewrite IH by exact Hout. apply lookup_insert_ne. congruence.
Qed.

Lemma install_table (m : gmap string rules) (name : string) (policy : rules) :
  (name, policy) ∈ policies_table ->
  install policies_table m !! name = Some policy.
Proof.
  intros Hin. unfold policies_table in Hin.
  repeat (apply elem_of_cons in Hin; destruct Hin as [Heq | Hin];
          [inversion Heq; subst; clear Heq;
           cbn [install policies_table];
           repeat (rewrite lookup_insert_ne by discriminate);
           apply lookup_insert_eq |]).
  inversion Hin.
Qed.

Lemma storeInitialSecrets_store_table (w : Store.world) :
  Store.up w = true ->
  Store.up (after Store.handle storeInitialSecrets w) = true
  /\ Store.kv (after Store.handle storeInitialSecrets w)
     = seed (outcome Store.handle initialSecrets w) (Store.kv w)
  /\ Store.policies (after Store.handle storeInitialSecrets w)
     = Store.policies w.
Proof.
  intros Hup.
  destruct (local_keeps_store initialSecrets w initialSecrets_local)
    as (Hup1 & Hkv1 & Hpol1).
  rewrite storeInitialSecrets_eq.
  rewrite after_bind, after_bind, after_ret.
  revert Hup1 Hkv1 Hpol1.
  generalize (outcome Store.handle initialSecrets w).
  generalize (after Store.handle initialSecrets w).
  intros w1 secrets Hup1 Hkv1 Hpol1.
  rewrite Hup in Hup1.
  destruct (seed_run secrets w1 Hup1) as (H1 & H2 & H3 & _).
  rewrite H1, H2, H3, Hkv1, Hpol1. repeat split.
Qed.

(** A start of the gateway against a reachable store, with the table of
    secrets it computed. *)
Lemma initialize_store_table (this : manager) (w : Store.world) :
  Store.up w = true ->
  exists w0 : Store.world,
    outcome Store.handle (initialize this) w = (Manager true, Ok tt)
    /\ Store.kv (after Store.handle (initialize this) w)
       = seed (outcome Store.handle initialSecrets w0) (Store.kv w)
    /\ Store.policies (after Store.handle (initialize this) w)
       = install policies_table (Store.policies w).
Proof.
  intros Hup.
  unfold initialize, VaultManager.waitForVault. run. store_step.
  destruct (waitForVault_from_store 30 0 30 w) as (Ha & _ & Ho).
  rewrite Ha, Ho, Hup.
  destruct (setupPolicies_store w Hup) as (Hp0 & Hp1 & Hp2 & Hp3 & _).
  run. rewrite Hp0. run.
  revert Hp1 Hp2 Hp3.
  generalize (after Store.handle setupPolicies w).
  intros w2 Hp1 Hp2 Hp3.
  destruct (storeInitialSecrets_store_table w2 Hp1) as (Hs2 & Hs3 & Hs4).
  pose proof (returns_only_outcome Store.handle _ storeInitialSecrets w2
                storeInitialSecrets_resolves) as Hs0.
  cbv beta in Hs0. rewrite Hs0.
  exists w2. revert Hs2 Hs3 Hs4.
  generalize (outcome Store.handle initialSecrets w2).
  generalize (after Store.handle storeInitialSecrets w2).
  intros w3 secrets Hs2 Hs3 Hs4.
  run. store_step.
  split; [reflexivity |].
  split; [rewrite Hs3, Hp2; reflexivity |].
  rewrite Hs4, Hp3. reflexivity.
Qed.

(** X3. A start of the gateway against a reachable store resolves and
    leaves a document at each of the seven secret paths and each of the
    four policies with the rules of the table; documents at other paths
    and policies of other names are untouched. When the database path held
    nothing, its document has host [database-service], port [3306], user
    [user], a password of 24 and a root password of 32 characters of the
    generator's alphabet. *)
Theorem initialize_seeds_reachable_store (w : Store.world) (this : manager) :
  Store.up w = true ->
  let w' := after Store.handle (initialize this) w in
  outcome Store.handle (initialize this) w = (Manager true, Ok tt)
  /\ (forall path : string,
        path ∈ secret_paths -> is_Some (Store.kv w' !! path))
  /\ (forall path : string,
        path ∉ secret_paths -> Store.kv w' !! path = Store.kv w !! path)
  /\ (forall (name : string) (policy : rules),
        (name, policy) ∈ policies_table ->
        Store.policies w' !! name = Some policy)
  /\ (forall name : string,
        name ∉ map fst policies_table ->
        Store.policies w' !! name = Store.policies w !! name)
  /\ (Store.kv w !! Gateway.database_path = None ->
      exists (d : doc) (password root_password : string),
        Store.kv w' !! Gateway.database_path = Some d
        /\ d !! "host" = Some (JStr "database-service")
        /\ d !! "port" = Some (JStr "3306")
        /\ d !! "username" = Some (JStr "user")
        /\ d !! "password" = Some (JStr password)
        /\ String.length password = 24%nat
        /\ Gateway.over VaultManager.charset password
        /\ d !! "root_password" = Some (JStr root_password)
        /\ String.length root_password = 32%nat
        /\ Gateway.over VaultManager.charset root_password).
Proof.
  intros Hup. cbv zeta.
  destruct (initialize_store_table this w Hup) as (w0 & Hout & Hkv & Hpol).
  pose proof (returns_only_outcome Store.handle _ initialSecrets w0
                initialSecrets_paths) as Hpaths. cbv beta in Hpaths.
  destruct (initialSecrets_database Store.handle w0
              (store_fair initialSecrets w0 initialSecrets_bounded))
    as (password & root_password & d & rest & Heq & H1 & H2 & H3 & H4 & H5
        & H6 & H7 & H8 & H9).
  revert Hkv Hpol Hpaths Heq.
  generalize (outcome Store.handle initialSecrets w0).
  generalize (after Store.handle (initialize this) w).
  intros w' secrets Hkv Hpol Hpaths Heq.
  split; [exact Hout |]. split; [| split; [| split; [| split]]].
  - intros path Hin. rewrite Hkv. apply seed_present. rewrite Hpaths. exact Hin.
  - intros path Hout'. rewrite Hkv. apply seed_other. rewrite Hpaths.
    exact Hout'.
  - intros name policy Hin. rewrite Hpol. apply install_table, Hin.
  - intros name Hout'. rewrite Hpol. apply install_other, Hout'.
  - intros Hnone. exists d, password, root_password.
    split; [| repeat split; assumption].
    rewrite Hkv, Heq. cbn [seed]. rewrite Hnone.
    apply seed_keeps, lookup_insert_eq.
Qed.

Lemma initialize_seeds_reachable_store_witness :
  exists (d : doc) (password : string),
    Store.kv (after Store.handle (initialize (Manager false)) Examples.fresh)
      !! Gateway.database_path = Some d
    /\ d !! "password" = Some (JStr password)
    /\ String.length password = 24%nat.
Proof.
  destruct (initialize_seeds_reachable_store Examples.fresh (Manager false)
              eq_refl) as (_ & _ & _ & _ & _ & Hdb).
  destruct (Hdb eq_refl) as (d & password & _ & Hd & _ & _ & _ & Hp & Hl & _).
  exists d, password. repeat split; assumption.
Defined.

(* --------------------------------------------------------------------- *)
(** ** Reading and writing documents through the gateway *)
(* --------------------------------------------------------------------- *)

(** X4. [GET /api/secrets/:path] makes one call to the store, a read of
    [secret/data/transcendence/] followed by the path; it answers 200 with
    the document when the read resolves and 404 with the message of the
    rejection otherwise, whatever the reason of the rejection. The route
    [GET /api/services/urls] makes the same read as
    [GET /api/secrets/services] and sends the same body, but answers 500
    where the other answers 404. *)
Theorem get_secret_reports_404
    {W : Type} (h : handler vaultE W) (w : W) (path : string) :
  let r := outcome h (Gateway.get_secret path) w in
  let tr := trace h (Gateway.get_secret path) w in
  let read := (h _ (VRead ("secret/data/transcendence/" +:+ path)) w).1 in
  store_calls tr = [CallRead ("secret/data/transcendence/" +:+ path)]
  /\ r = match read with
         | Ok d => Gateway.Reply 200 (Gateway.Data d)
         | Err e => Gateway.Reply 404 (Gateway.Failed (message e))
         end
  /\ store_calls (trace h Gateway.get_services_urls w)
     = store_calls (trace h (Gateway.get_secret "services") w)
  /\ Gateway.sent (outcome h Gateway.get_services_urls w)
     = Gateway.sent (outcome h (Gateway.get_secret "services") w)
  /\ Gateway.code (outcome h Gateway.get_services_urls w)
     = match Gateway.code (outcome h (Gateway.get_secret "services") w) with
       | 404 => 500
       | c => c
       end.
Proof.
  cbv zeta.
  unfold Gateway.get_secret, Gateway.get_services_urls, Gateway.getServiceUrls,
    VaultManager.getSecret, secret_path.
  split; [| split].
  - run. destruct (h _ (VRead _) w) as [[d | e] w1]; run; reflexivity.
  - run. destruct (h _ (VRead _) w) as [[d | e] w1]; run; reflexivity.
  - run. destruct (h _ (VRead _) w) as [[d | e] w1]; run; repeat split.
Qed.

Lemma secret_path_inj (p q : string) : secret_path p = secret_path q -> p = q.
Proof. unfold secret_path. apply String.app_inj. Qed.

(** X5. Against a reachable store, a document written with [updateSecret]
    is the one [getSecret] reads back at the same path, whatever the path
    held before; what [getSecret] returns at any other path is unchanged,
    and so are the policies. *)
Theorem updateSecret_then_getSecret
    (w : Store.world) (path other : string) (data : doc) :
  Store.up w = true ->
  let w' := after Store.handle (updateSecret path data) w in
  outcome Store.handle (updateSecret path data) w = Ok tt
  /\ outcome Store.handle (VaultManager.getSecret path) w' = Ok data
  /\ (other <> path ->
      outcome Store.handle (VaultManager.getSecret other) w'
      = outcome Store.handle (VaultManager.getSecret other) w)
  /\ Store.policies w' = Store.policies w.
Proof.
  intros Hup. cbv zeta. unfold updateSecret, VaultManager.getSecret.
  run. store_step. rewrite Hup. run. store_step. rewrite Hup.
  rewrite lookup_insert_eq. run.
  split; [reflexivity |]. split; [reflexivity |]. split; [| reflexivity].
  intros Hne. rewrite lookup_insert_ne.
  - destruct (Store.kv w !! secret_path other); run; reflexivity.
  - intros Heq. apply Hne. symmetry. apply secret_path_inj. exact Heq.
Qed.

Lemma updateSecret_then_getSecret_witness :
  outcome Store.handle (VaultManager.getSecret "jwt")
    (after Store.handle (updateSecret "jwt" (object [("secret", "s2")]))
       Examples.with_s1)
  = Ok (object [("secret", "s2")]).
Proof.
  destruct (updateSecret_then_getSecret Examples.with_s1 "jwt" "api"
              (object [("secret", "s2")]) eq_refl) as (_ & Hget & _).
  exact Hget.
Defined.

(** X6. [rotateJWTSecret] is all or nothing for every behaviour of the
    store: when the read of the signing-key document is rejected it draws
    no random bytes, writes nothing and is rejected with the error of the
    read; otherwise it draws 64 bytes once, writes once, and returns the new
    secret only when the store accepted the write, being rejected with the
    error of the write otherwise. [POST /api/jwt/rotate] answers 200 with a
    fixed message exactly when the rotation returned, and 500 with the
    message of the error otherwise: its body never carries the secret. *)
Theorem rotateJWTSecret_all_or_nothing
    {W : Type} (h : handler vaultE W) (w : W) :
  let r := outcome h rotateJWTSecret w in
  let tr := trace h rotateJWTSecret w in
  let read := h _ (VRead Store.jwt_path) w in
  let reply := outcome h Server.post_jwt_rotate w in
  match read.1 with
  | Err e =>
      r = Err e /\ store_calls tr = [CallRead Store.jwt_path]
      /\ omap Gateway.bytes_of tr = []
  | Ok d =>
      let drawn := h _ (RandomBytes 64) read.2 in
      let clock := h _ Now drawn.2 in
      let document := rotated d (toHex drawn.1) clock.1 in
      store_calls tr
      = [CallRead Store.jwt_path; CallWrite Store.jwt_path document]
      /\ omap Gateway.bytes_of tr = [(64%nat, drawn.1)]
      /\ r = match (h _ (VWrite Store.jwt_path document) clock.2).1 with
             | Ok _ => Ok (toHex drawn.1)
             | Err e => Err e
             end
  end
  /\ reply = match r with
             | Ok _ => Server.Response 200
                         (Server.Done "JWT secret rotated successfully")
             | Err e => Server.Response 500 (Server.Failure (message e))
             end.
Proof.
  cbv zeta.
  unfold Server.post_jwt_rotate, rotateJWTSecret, VaultManager.getSecret,
    updateSecret, generateSecureKey.
  change (secret_path "jwt") with Store.jwt_path.
  run. destruct (h _ (VRead Store.jwt_path) w) as [[d | e] w1]; run.
  - destruct (h _ (RandomBytes 64) w1) as [bytes w2]. run.
    destruct (h _ Now w2) as [now w3]. run.
    destruct (h _ (VWrite Store.jwt_path _) w3) as [[[] | e] w4]; run;
      repeat split.
  - repeat split.
Qed.

(* --------------------------------------------------------------------- *)
(** ** The construction of the manager *)
(* --------------------------------------------------------------------- *)

(** X7. With an environment that does not change while the manager is
    constructed, the token handed to the client of the store is
    [VAULT_TOKEN] when that variable is set and not empty; otherwise it is
    the fixed development token when [NODE_ENV] is [development], and the
    construction throws in every other case. So the last [return] of
    [getSecureRootToken] is never reached, and the token is never
    undefined. The endpoint is [VAULT_ADDR], or [http://vault:8200] when
    that variable is unset or empty. *)
Theorem construct_token_rule (w : Store.world) :
  let env name := Gateway.set_to (Store.env w !! name) in
  let endpoint := default "http://vault:8200" (env "VAULT_ADDR") in
  outcome Store.handle Gateway.construct w
  = match env "VAULT_TOKEN" with
    | Some t => Ok (Gateway.VaultOptions "v1" endpoint (Some t))
    | None =>
        if decide (Store.env w !! "NODE_ENV" = Some "development") then
          Ok (Gateway.VaultOptions "v1" endpoint (Some Gateway.dev_token))
        else Err (Error Gateway.token_required)
    end
  /\ (forall options,
        outcome Store.handle Gateway.construct w = Ok options ->
        is_Some (Gateway.token options) /\ Gateway.token options <> Some "").
Proof.
  cbv zeta.
  assert (Hout :
    outcome Store.handle Gateway.construct w
    = match Gateway.set_to (Store.env w !! "VAULT_TOKEN") with
      | Some t =>
          Ok (Gateway.VaultOptions "v1"
                (default "http://vault:8200"
                   (Gateway.set_to (Store.env w !! "VAULT_ADDR"))) (Some t))
      | None =>
          if decide (Store.env w !! "NODE_ENV" = Some "development") then
            Ok (Gateway.VaultOptions "v1"
                  (default "http://vault:8200"
                     (Gateway.set_to (Store.env w !! "VAULT_ADDR")))
                  (Some Gateway.dev_token))
          else Err (Error Gateway.token_required)
      end).
  { unfold Gateway.construct, Gateway.getSecureRootToken, env_or.
    run. store_step.
    assert (Haddr :
      match Store.env w !! "VAULT_ADDR" with
      | Some s => if String.eqb s "" then "http://vault:8200" else s
      | None => "http://vault:8200"
      end = default "http://vault:8200"
              (Gateway.set_to (Store.env w !! "VAULT_ADDR"))).
    { destruct (Store.env w !! "VAULT_ADDR") as [s |]; [| reflexivity].
      simpl. destruct (String.eqb s ""); reflexivity. }
    rewrite Haddr.
    generalize (default "http://vault:8200"
                  (Gateway.set_to (Store.env w !! "VAULT_ADDR"))).
    intros endpoint.
    destruct (Gateway.set_to (Store.env w !! "VAULT_TOKEN")) as [t |] eqn:Ht.
    - run. reflexivity.
    - run. store_step.
      destruct (decide (Store.env w !! "NODE_ENV" = Some "development"))
        as [Hdev | Hdev].
      + rewrite Hdev. run. reflexivity.
      + assert (Hrest :
          forall (A : Type) (a b : prog vaultE A),
            match Store.env w !! "NODE_ENV" with
            | Some "development" => a
            | _ => b
            end = b).
        { intros A a b.
          destruct (Store.env w !! "NODE_ENV") as [s |]; [| reflexivity].
          destruct (decide (s = "development")) as [-> | Hs];
            [contradiction |].
          repeat
            match goal with
            | |- match ?s with _ => _ end = _ =>
                is_var s; destruct s; try reflexivity
            | |- match ?c with _ => _ end = _ =>
                is_var c; destruct c as [[] [] [] [] [] [] [] []];
                try reflexivity
            end.
          contradiction. }
        rewrite Hrest. run. store_step. rewrite Ht. run. reflexivity. }
  split; [exact Hout |].
  intros options. rewrite Hout.
    destruct (Gateway.set_to (Store.env w !! "VAULT_TOKEN")) as [t |] eqn:Ht.
  - intros [= <-]. simpl. split; [eexists; reflexivity |].
    intros [= ->]. unfold Gateway.set_to in Ht.
    destruct (Store.env w !! "VAULT_TOKEN") as [s |]; [| discriminate].
    destruct (String.eqb s "") eqn:Hs; [discriminate |].
    injection Ht as ->. discriminate.
  - destruct (decide _); [| discriminate].
    intros [= <-]. simpl. split; [eexists; reflexivity | discriminate].
Qed.

(* --------------------------------------------------------------------- *)
(** ** A rotation after a start *)
(* --------------------------------------------------------------------- *)

Lemma jwt_path_seeded : Store.jwt_path ∈ secret_paths.
Proof. vm_compute. repeat constructor. Qed.

(** X8. Once the gateway has started against a reachable store, whatever
    the store held before, a rotation of the signing key cannot fail:
    [POST /api/jwt/rotate] answers 200, the new secret has 128 hexadecimal
    digits, and the document read back afterwards carries it as [secret],
    the secret the start left as [previous_secret], and every other field
    but [rotated_at] as the start left it. *)
Theorem rotation_after_initialize (w : Store.world) (this : manager) :
  Store.up w = true ->
  let w1 := after Store.handle (initialize this) w in
  let w2 := after Store.handle Server.post_jwt_rotate w1 in
  exists (key : string) (started rotated : doc),
    Store.kv w1 !! Store.jwt_path = Some started
    /\ outcome Store.handle rotateJWTSecret w1 = Ok key
    /\ String.length key = 128%nat
    /\ Gateway.over Gateway.hex_alphabet key
    /\ outcome Store.handle Server.post_jwt_rotate w1
       = Server.Response 200 (Server.Done "JWT secret rotated successfully")
    /\ outcome Store.handle (VaultManager.getSecret "jwt") w2 = Ok rotated
    /\ rotated !! "secret" = Some (JStr key)
    /\ rotated !! "previous_secret" = started !! "secret"
    /\ (forall k : string,
          k <> "secret" -> k <> "rotated_at" -> k <> "previous_secret" ->
          rotated !! k = started !! k).
Proof.
  intros Hup. cbv zeta.
  destruct (initialize_store_table this w Hup) as (w0 & _ & Hkv & _).
  pose proof (returns_only_outcome Store.handle _ initialSecrets w0
                initialSecrets_paths) as Hpaths. cbv beta in Hpaths.
  pose proof (initialize_store this w) as Hinit. cbv zeta in Hinit.
  destruct Hinit as [Hup1 _]. rewrite Hup in Hup1.
  assert (Hjwt : is_Some (Store.kv (after Store.handle (initialize this) w)
                            !! Store.jwt_path)).
  { rewrite Hkv. apply seed_present. rewrite Hpaths. exact jwt_path_seeded. }
  clear Hkv Hpaths. revert Hup1 Hjwt.
  generalize (after Store.handle (initialize this) w). intros w1 Hup1 [d Hd].
  destruct (rotation_run w1 d Hup1 Hd) as (Hout & Hup2 & Hkv2 & _).
  destruct (rotated_fields d (Store.next_key w1) (Store.next_stamp w1))
    as (F1 & _ & F3 & F4).
  exists (Store.next_key w1), d,
    (rotated d (Store.next_key w1) (Store.next_stamp w1)).
  split; [exact Hd |]. split; [exact Hout |].
  split; [apply next_key_length |].
  split; [apply toHex_alphabet |].
  assert (Hafter : after Store.handle Server.post_jwt_rotate w1
                   = Store.rotation w1).
  { unfold Server.post_jwt_rotate, Store.rotation. rewrite after_bind.
    destruct (outcome Store.handle rotateJWTSecret w1); rewrite after_ret;
      reflexivity. }
  split.
  { unfold Server.post_jwt_rotate. rewrite outcome_bind, Hout, outcome_ret.
    reflexivity. }
  rewrite Hafter. revert Hup2 Hkv2. generalize (Store.rotation w1).
  intros w2 Hup2 Hkv2.
  split; [| split; [exact F1 | split; [exact F3 | exact F4]]].
  unfold VaultManager.getSecret. run. store_step. rewrite Hup2, Hkv2.
  change (secret_path "jwt") with Store.jwt_path.
  rewrite lookup_insert_eq. run. reflexivity.
Qed.

Lemma rotation_after_initialize_witness :
  exists key : string,
    outcome Store.handle rotateJWTSecret
      (after Store.handle (initialize (Manager false)) Examples.fresh)
    = Ok key
    /\ String.length key = 128%nat.
Proof.
  destruct (rotation_after_initialize Examples.fresh (Manager false) eq_refl)
    as (key & _ & _ & _ & Hout & Hlen & _).
  exists key. split; [exact Hout | exact Hlen].
Defined.

(* --------------------------------------------------------------------- *)
(** ** The time the client spends waiting *)
(* --------------------------------------------------------------------- *)

Lemma sleeps_steps (tr : list (obs clientE)) :
  sleeps tr = omap Gateway.wait_of (steps tr).
Proof.
  unfold sleeps, steps. induction tr as [| [T e t] tr IH]; [reflexivity |].
  rewrite !omap_cons_case. destruct e; cbn [sleep_of step_of Gateway.wait_of];
    rewrite ?omap_cons_case; cbn [Gateway.wait_of]; rewrite IH; reflexivity.
Qed.

Lemma schedule_total (attempt n : nat) :
  (Gateway.total (omap Gateway.wait_of (schedule attempt (S n)))
   == inject_Z (1000 * Z.of_nat n * Z.of_nat attempt
                + 500 * Z.of_nat n * (Z.of_nat n - 1)))%Q.
Proof.
  revert attempt. induction n as [| n IH]; intros attempt.
  - reflexivity.
  - rewrite schedule_next by lia. rewrite !omap_cons_case. cbn [Gateway.wait_of].
    change (Gateway.total (?q :: ?l)) with (q + Gateway.total l)%Q.
    rewrite IH, <- inject_Z_plus. apply inject_Z_injective. lia.
Qed.

(** X9. For a client constructed with a retry count [R] that is a positive
    integer, or with none ([R] is then 3), [getSecret] makes at least one
    request, and the timers it sets add up to [500 * a * (a - 1)] ms when it
    made [a] requests, so to at most [500 * R * (R - 1)] ms, 3 seconds by
    default; what it throws is never [undefined]. *)
Theorem getSecret_waits_total
    {W : Type} (js : engine) (h : handler clientE W) (w : W)
    (configured : option nat) (path : string) :
  let R := retryCount_of configured in
  let r := outcome h (VaultClient.getSecret js R path) w in
  let tr := trace h (VaultClient.getSecret js R path) w in
  let a := Z.of_nat (length (attempts tr)) in
  (1 <= a <= Z.of_nat R)%Z
  /\ (Gateway.total (sleeps tr) == inject_Z (500 * a * (a - 1)))%Q
  /\ (Gateway.total (sleeps tr) <= inject_Z (500 * Z.of_nat R * (Z.of_nat R - 1)))%Q
  /\ (retryCount_of None = 3%nat
      /\ inject_Z (500 * Z.of_nat 3 * (Z.of_nat 3 - 1)) == 3000)%Q
  /\ (forall thrown, r = Thrown thrown -> is_Some thrown).
Proof.
  cbv zeta.
  assert (HR : (1 <= retryCount_of configured)%nat).
  { destruct configured as [[| n] |]; simpl; lia. }
  revert HR. generalize (retryCount_of configured). intros R HR.
  unfold VaultClient.getSecret.
  destruct (getSecret_from_run js h R path R 1 None w ltac:(lia) ltac:(lia))
    as (Hn & Hz & Hs & _ & Hr).
  cbv zeta in Hn, Hz, Hs, Hr.
  revert Hn Hz Hs Hr.
  generalize (outcome h (getSecret_from js 1 R R path None) w).
  generalize (trace h (getSecret_from js 1 R R path None) w).
  intros tr r Hn Hz Hs Hr.
  assert (Ha : (1 <= length (attempts tr))%nat).
  { destruct (Nat.eq_dec (length (attempts tr)) 0) as [Hl | Hl]; [| lia].
    apply Hz in Hl. lia. }
  assert (Htotal :
    (Gateway.total (sleeps tr)
     == inject_Z (500 * Z.of_nat (length (attempts tr))
                  * (Z.of_nat (length (attempts tr)) - 1)))%Q).
  { rewrite sleeps_steps, Hs.
    destruct (length (attempts tr)) as [| n]; [lia |].
    rewrite schedule_total. apply inject_Z_injective. lia. }
  split; [lia |]. split; [exact Htotal |]. split.
  { rewrite Htotal. rewrite <- Zle_Qle. nia. }
  split; [split; reflexivity |].
  intros thrown ->. destruct Hr as (Hlen & Hall & Hlast).
  destruct (attempts tr) as [| x l] eqn:Hatt using rev_ind;
    [simpl in Ha; lia |].
  rewrite last_snoc in Hlast. destruct thrown as [error |]; [eexists; reflexivity |].
  exfalso. exact (unwrap_thrown js _ _ Hlast).
Qed.

Lemma waitTime_total (i n : nat) :
  (Gateway.total (map waitTime (seq i n)) <= inject_Z (10000 * Z.of_nat n))%Q.
Proof.
  revert i. induction n as [| n IH]; intros i.
  - apply Qle_refl.
  - cbn [seq map].
    change (Gateway.total (?q :: ?l)) with (q + Gateway.total l)%Q.
    replace (10000 * Z.of_nat (S n))%Z with (10000 + 10000 * Z.of_nat n)%Z
      by lia.
    rewrite inject_Z_plus. apply Qplus_le_compat; [| apply IH].
    apply waitTime_ceiling.
Qed.

(** X10. The timers the client's [waitForVault] sets add up to at most
    10 seconds for each health request that was rejected, so to at most
    [10000 * maxRetries] ms; a default wait that gives up has slept
    260781.25 ms in all, one timer after each of its thirty rejected
    requests, the last one included. *)
Theorem client_waitForVault_total
    {W : Type} (h : handler clientE W) (w : W)
    (serviceName : jsval) (maxRetries : option nat) :
  let n := default 30%nat maxRetries in
  let r := outcome h (VaultClient.waitForVault serviceName maxRetries) w in
  let tr := trace h (VaultClient.waitForVault serviceName maxRetries) w in
  let rejected := length (filter (fun ok : bool => ok = false) (probes tr)) in
  length (sleeps tr) = rejected
  /\ (rejected <= n)%nat
  /\ (Gateway.total (sleeps tr) <= inject_Z (10000 * Z.of_nat rejected))%Q
  /\ (maxRetries = None -> is_err r = true ->
      Gateway.total (sleeps tr) == 1043125 # 4)%Q.
Proof.
  cbv zeta. unfold VaultClient.waitForVault.
  remember (default 30%nat maxRetries) as n eqn:Hdef.
  assert (Hfilter : forall k : nat,
            filter (fun ok : bool => ok = false) (replicate k false)
            = replicate k false).
  { induction k as [| k IH]; [reflexivity |]. simpl.
    rewrite filter_cons_True by reflexivity. rewrite IH. reflexivity. }
  destruct (client_waitForVault_from_run h serviceName n 0 n w)
    as [(Hr & Hp & Hs) | (Hr & k & Hk & Hp & Hs)];
    rewrite Hr, Hp, Hs.
  - rewrite Hfilter, length_map, length_seq, length_replicate.
    split; [reflexivity |]. split; [lia |].
    split; [apply waitTime_total |].
    intros -> _. simpl in Hdef. subst n. vm_compute. reflexivity.
  - rewrite filter_app, Hfilter, filter_cons_False, filter_nil, app_nil_r
      by discriminate.
    rewrite length_map, length_seq, length_replicate.
    split; [reflexivity |]. split; [lia |].
    split; [apply waitTime_total |].
    intros _ Herr. discriminate Herr.
Qed.

Lemma getSecret_waits_total_witness :
  is_Some
    (match outcome Examples.scripted
             (VaultClient.getSecret Loader.plain 3 "jwt")
             Examples.three_failures with
     | Thrown thrown => thrown
     | Returned _ => None
     end).
Proof.
  pose proof (getSecret_waits_total Loader.plain Examples.scripted
                Examples.three_failures None "jwt") as H.
  cbv zeta in H. destruct H as (_ & _ & _ & _ & H).
  apply (H (Some (Error "HTTP 404: Status 404"))). reflexivity.
Defined.

Lemma client_waitForVault_total_witness :
  (Gateway.total
     (sleeps (trace Examples.scripted
                (VaultClient.waitForVault (Some (JStr "auth-service")) None)
                []))
   == 1043125 # 4)%Q.
Proof.
  pose proof (client_waitForVault_total Examples.scripted []
                (Some (JStr "auth-service")) None) as H.
  cbv zeta in H. destruct H as (_ & _ & _ & H).
  apply H; reflexivity.
Defined.

(* --------------------------------------------------------------------- *)
(** ** SecretManager.js: generators, hashes and password strength *)
(* --------------------------------------------------------------------- *)

Section Crypto.
Context {W : Type} (h : handler Secrets.cryptoE W).

Lemma secrets_char_at_below (i : Z) :
  (0 <= i < Z.of_nat (String.length Secrets.charset))%Z ->
  String.length (Secrets.char_at Secrets.charset i) = 1%nat
  /\ Gateway.over Secrets.charset (Secrets.char_at Secrets.charset i).
Proof.
  intros Hi. unfold Secrets.char_at.
  destruct (Z.ltb_spec i 0) as [Hneg | _]; [lia |].
  apply char_at_below. lia.
Qed.

Lemma secrets_generateSecurePassword_from_run (remaining : nat)
    (password : string) (w : W) :
  Secrets.fair
    (trace h (Secrets.generateSecurePassword_from remaining password) w) ->
  Gateway.over Secrets.charset password ->
  String.length
    (outcome h (Secrets.generateSecurePassword_from remaining password) w)
  = (String.length password + remaining)%nat
  /\ Gateway.over Secrets.charset
       (outcome h (Secrets.generateSecurePassword_from remaining password) w).
Proof.
  revert password w.
  induction remaining as [| remaining IH]; intros password w Hfair Hover.
  - cbn [Secrets.generateSecurePassword_from]. run. split; [lia | exact Hover].
  - cbn [Secrets.generateSecurePassword_from] in *. revert Hfair. run.
    destruct (h _ (Secrets.RandomInt _ _) w) as [i w1]. cbn [fst snd].
    intros [Hidx Hbytes]. rewrite omap_cons_case in Hidx.
    rewrite omap_cons_case in Hbytes.
    cbn [Secrets.int_of Secrets.bytes_of] in Hidx, Hbytes.
    apply Forall_cons in Hidx. destruct Hidx as [Hi Hidx]. cbn [fst snd] in Hi.
    destruct (secrets_char_at_below i Hi) as [Hlen Hc].
    destruct (IH (password +:+ Secrets.char_at Secrets.charset i) w1)
      as [Hl Ho].
    + split; assumption.
    + apply over_append; assumption.
    + split; [| exact Ho]. rewrite Hl, length_append, Hlen. lia.
Qed.
End Crypto.

(** X11. [SecretManager.generateSecurePassword(length)] returns a string of
    exactly [length] characters, 16 when no length is given, each taken
    from its alphabet of 70 characters, whenever [crypto.randomInt(0, 70)]
    answers within its bounds; it draws one index per character and no
    bytes. *)
Theorem secrets_generateSecurePassword_length_alphabet
    {W : Type} (h : handler Secrets.cryptoE W) (w : W) (length : option nat) :
  let password := outcome h (Secrets.generateSecurePassword length) w in
  let tr := trace h (Secrets.generateSecurePassword length) w in
  Secrets.fair tr ->
  String.length password = default 16%nat length
  /\ Gateway.over Secrets.charset password
  /\ List.length (omap Secrets.int_of tr) = default 16%nat length
  /\ omap Secrets.bytes_of tr = [].
Proof.
  cbv zeta. unfold Secrets.generateSecurePassword.
  generalize (default 16%nat length). clear length. intros n Hfair.
  destruct (secrets_generateSecurePassword_from_run h n "" w Hfair)
    as [Hl Ho]; [constructor |].
  split; [exact Hl |]. split; [exact Ho |].
  clear. generalize "". revert w.
  induction n as [| n IH]; intros w password.
  - split; reflexivity.
  - cbn [Secrets.generateSecurePassword_from]. run.
    rewrite !omap_cons_case. cbn [Secrets.int_of Secrets.bytes_of].
    destruct (IH (h _ (Secrets.RandomInt 0
                         (Z.of_nat (String.length Secrets.charset))) w).2
                (password +:+ Secrets.char_at Secrets.charset
                   (h _ (Secrets.RandomInt 0
                           (Z.of_nat (String.length Secrets.charset))) w).1))
      as [Hi Hb].
    split; [cbn [List.length]; rewrite Hi; reflexivity | exact Hb].
Qed.

Lemma secrets_generateSecurePassword_length_alphabet_witness :
  String.length
    (outcome Secrets.draw (Secrets.generateSecurePassword None)
       (0%nat, Examples.counting)) = 16%nat.
Proof.
  apply (secrets_generateSecurePassword_length_alphabet Secrets.draw
           (0%nat, Examples.counting) None).
  vm_compute. split; repeat constructor; discriminate.
Defined.

(** X12. [SecretManager.generateSecureToken(length)] returns lower-case
    hexadecimal digits only, [2 * length] of them when
    [crypto.randomBytes(length)] yields [length] bytes, so 64 digits when no
    length is given. *)
Theorem generateSecureToken_hex
    {W : Type} (h : handler Secrets.cryptoE W) (w : W) (length : option nat) :
  let token := outcome h (Secrets.generateSecureToken length) w in
  Gateway.over Gateway.hex_alphabet token
  /\ (Secrets.fair (trace h (Secrets.generateSecureToken length) w) ->
      String.length token = (2 * default 32 length)%nat).
Proof.
  cbv zeta. unfold Secrets.generateSecureToken. run.
  destruct (h _ (Secrets.RandomBytes _) w) as [bytes w1]. cbn [fst snd].
  split; [apply toHex_alphabet |].
  intros [_ Hbytes]. rewrite omap_cons_case in Hbytes.
  cbn [Secrets.bytes_of] in Hbytes.
  apply Forall_cons in Hbytes. destruct Hbytes as [Hlen _].
  cbn [fst snd] in Hlen. rewrite toHex_length, Hlen. reflexivity.
Qed.

Lemma generateSecureToken_hex_witness :
  String.length
    (outcome Secrets.draw (Secrets.generateSecureToken None)
       (0%nat, Examples.counting)) = 64%nat.
Proof.
  apply (generateSecureToken_hex Secrets.draw (0%nat, Examples.counting) None).
  vm_compute. split; repeat constructor.
Defined.

Lemma toHex_nonempty (bs : list byte) :
  bs <> [] -> Gateway.set_to (Some (toHex bs)) = Some (toHex bs).
Proof.
  destruct bs as [| b bs]; [contradiction |]. reflexivity.
Qed.

(** X13. Whatever function of the data and the salt [pbkdf2Sync] is, a
    hash made by [hashWithSalt] verifies: [verifyHash] of the same data with
    the hash and the salt [hashWithSalt] returned is true and draws no
    randomness, provided [crypto.randomBytes(16)] yields 16 bytes. A salt
    that is given and not empty is returned as it is and no randomness is
    drawn; with no salt, or an empty one, the salt is the hexadecimal text
    of 16 fresh bytes. *)
Theorem hashWithSalt_verifies
    {W : Type} (h : handler Secrets.cryptoE W) (w w' : W)
    (pbkdf2 : string -> string -> string) (data : string)
    (salt : option string) :
  let made := outcome h (Secrets.hashWithSalt pbkdf2 data salt) w in
  let tr := trace h (Secrets.hashWithSalt pbkdf2 data salt) w in
  Secrets.fair tr ->
  made.1 = pbkdf2 data made.2
  /\ outcome h (Secrets.verifyHash pbkdf2 data made.1 (Some made.2)) w' = true
  /\ trace h (Secrets.verifyHash pbkdf2 data made.1 (Some made.2)) w' = []
  /\ match Gateway.set_to salt with
     | Some s => made.2 = s /\ tr = []
     | None =>
         made.2 = toHex (h _ (Secrets.RandomBytes 16) w).1
         /\ String.length made.2 = 32%nat
     end.
Proof.
  cbv zeta. unfold Secrets.verifyHash, Secrets.hashWithSalt.
  destruct (Gateway.set_to salt) as [s |] eqn:Hsalt.
  - run. intros _.
    assert (Hs : Gateway.set_to (Some s) = Some s).
    { unfold Gateway.set_to in *. destruct salt as [t |]; [| discriminate].
      destruct (String.eqb t "") eqn:Ht; [discriminate |].
      injection Hsalt as <-. rewrite Ht. reflexivity. }
    rewrite Hs. run. rewrite String.eqb_refl. repeat split.
  - run. destruct (h _ (Secrets.RandomBytes 16) w) as [bytes w1].
    cbn [fst snd]. intros [_ Hbytes]. rewrite omap_cons_case in Hbytes.
    cbn [Secrets.bytes_of] in Hbytes.
    apply Forall_cons in Hbytes. destruct Hbytes as [Hlen _].
    cbn [fst snd] in Hlen.
    rewrite toHex_nonempty by (intros ->; discriminate Hlen).
    run. rewrite String.eqb_refl, toHex_length, Hlen. repeat split.
Qed.

Lemma hashWithSalt_verifies_witness :
  outcome Secrets.draw
    (Secrets.verifyHash (fun data salt => salt +:+ data) "secret"
       (outcome Secrets.draw
          (Secrets.hashWithSalt (fun data salt => salt +:+ data) "secret" None)
          (0%nat, Examples.counting)).1
       (Some
          (outcome Secrets.draw
             (Secrets.hashWithSalt (fun data salt => salt +:+ data) "secret"
                None)
             (0%nat, Examples.counting)).2))
    (16%nat, Examples.counting) = true.
Proof.
  apply (hashWithSalt_verifies Secrets.draw (0%nat, Examples.counting)
           (16%nat, Examples.counting) (fun data salt => salt +:+ data)
           "secret" None).
  vm_compute. split; repeat constructor.
Defined.

Lemma test_append (class : ascii -> bool) (s t : string) :
  Secrets.test class (s +:+ t) = Secrets.test class s || Secrets.test class t.
Proof.
  unfold Secrets.test. rewrite chars_append. apply existsb_app.
Qed.

Lemma classes_sum (password : string) :
  Secrets.classes password
  = (Nat.b2n (Secrets.test Secrets.isUppercase password)
     + Nat.b2n (Secrets.test Secrets.isLowercase password)
     + Nat.b2n (Secrets.test Secrets.isNumber password)
     + Nat.b2n (Secrets.test Secrets.isSpecialChar password))%nat.
Proof.
  unfold Secrets.classes.
  destruct (Secrets.test Secrets.isUppercase password),
           (Secrets.test Secrets.isLowercase password),
           (Secrets.test Secrets.isNumber password),
           (Secrets.test Secrets.isSpecialChar password); reflexivity.
Qed.

Lemma b2n_orb (a b : bool) : (Nat.b2n a <= Nat.b2n (a || b))%nat.
Proof. destruct a, b; simpl; lia. Qed.

Lemma validatePasswordStrength_valid' (password : string) :
  Secrets.valid (Secrets.validatePasswordStrength password) = true
  <-> (12 <= String.length password)%nat
      /\ (3 <= Secrets.classes password)%nat.
Proof.
  unfold Secrets.validatePasswordStrength, Secrets.classes.
  destruct (String.eqb_spec password "") as [-> | _].
  - simpl. split; [discriminate | intros [H _]; lia].
  - cbn [Secrets.valid Secrets.minLength Secrets.met Secrets.hasUppercase
         Secrets.hasLowercase Secrets.hasNumbers Secrets.hasSpecialChars].
    destruct (Nat.leb_spec 12 (String.length password)) as [Hlen | Hlen];
      destruct (Secrets.test Secrets.isUppercase password),
               (Secrets.test Secrets.isLowercase password),
               (Secrets.test Secrets.isNumber password),
               (Secrets.test Secrets.isSpecialChar password);
      cbn; intuition (try lia; try discriminate).
Qed.

(** X14. [validatePasswordStrength] finds a password valid exactly when it
    has at least 12 characters and draws from at least three of the four
    character classes (upper case, lower case, digits, special characters):
    the length counts as one of the four points the score asks for. The
    score is at most 5, the empty password scores 0, and a valid password
    stays valid whatever is appended to it. *)
Theorem validatePasswordStrength_valid (password suffix : string) :
  let result := Secrets.validatePasswordStrength password in
  (Secrets.valid result = true
   <-> (12 <= String.length password)%nat
       /\ (3 <= Secrets.classes password)%nat)
  /\ (Secrets.score result <= 5)%nat
  /\ (password <> "" ->
      Secrets.score result
      = ((if (12 <=? String.length password)%nat then 1 else 0)
         + Secrets.classes password)%nat)
  /\ (Secrets.valid result = true ->
      Secrets.valid (Secrets.validatePasswordStrength (password +:+ suffix))
      = true).
Proof.
  cbv zeta. split; [apply validatePasswordStrength_valid' |].
  split; [| split].
  - unfold Secrets.validatePasswordStrength.
    destruct (String.eqb password ""); [simpl; lia |].
    cbn [Secrets.score Secrets.met Secrets.minLength Secrets.hasUppercase
         Secrets.hasLowercase Secrets.hasNumbers Secrets.hasSpecialChars].
    destruct (12 <=? String.length password)%nat,
             (Secrets.test Secrets.isUppercase password),
             (Secrets.test Secrets.isLowercase password),
             (Secrets.test Secrets.isNumber password),
             (Secrets.test Secrets.isSpecialChar password);
      vm_compute; lia.
  - intros Hne. unfold Secrets.validatePasswordStrength, Secrets.classes.
    destruct (String.eqb_spec password "") as [-> | _]; [contradiction |].
    cbn [Secrets.score Secrets.met Secrets.minLength Secrets.hasUppercase
         Secrets.hasLowercase Secrets.hasNumbers Secrets.hasSpecialChars].
    destruct (12 <=? String.length password)%nat,
             (Secrets.test Secrets.isUppercase password),
             (Secrets.test Secrets.isLowercase password),
             (Secrets.test Secrets.isNumber password),
             (Secrets.test Secrets.isSpecialChar password);
      reflexivity.
  - rewrite !validatePasswordStrength_valid'. intros [Hlen Hclasses].
    split; [rewrite length_append; lia |].
    revert Hclasses. rewrite !classes_sum, !test_append.
    pose proof (b2n_orb (Secrets.test Secrets.isUppercase password)
                  (Secrets.test Secrets.isUppercase suffix)).
    pose proof (b2n_orb (Secrets.test Secrets.isLowercase password)
                  (Secrets.test Secrets.isLowercase suffix)).
    pose proof (b2n_orb (Secrets.test Secrets.isNumber password)
                  (Secrets.test Secrets.isNumber suffix)).
    pose proof (b2n_orb (Secrets.test Secrets.isSpecialChar password)
                  (Secrets.test Secrets.isSpecialChar suffix)).
    lia.
Qed.

Lemma validatePasswordStrength_valid_witness :
  Secrets.valid (Secrets.validatePasswordStrength "correct-Horse-battery")
  = true.
Proof.
  apply (proj1 (validatePasswordStrength_valid "correct-Horse-battery" "")).
  vm_compute. split; lia.
Defined.

(* --------------------------------------------------------------------- *)
(** ** Programs run as parts of larger ones *)
(* --------------------------------------------------------------------- *)

Section Lifting.
Context {E F : Type -> Type} {W : Type} (f : forall T, E T -> F T)
  (h : handler F W).

Lemma exec_lift {A} (p : prog E A) (w : W) :
  exec h (lift f p) w
  = ((exec (within f h) p w).1.1, (exec (within f h) p w).1.2,
     map (seen f) (exec (within f h) p w).2).
Proof.
  revert w. induction p as [a | T e k IH]; intros w; simpl.
  - reflexivity.
  - change (within f h T e w) with (h T (f T e) w).
    destruct (h T (f T e) w) as [t w1].
    rewrite IH. destruct (exec (within f h) (k t) w1) as [[a w2] tr].
    reflexivity.
Qed.

Lemma outcome_lift {A} (p : prog E A) (w : W) :
  outcome h (lift f p) w = outcome (within f h) p w.
Proof. unfold outcome. rewrite exec_lift. reflexivity. Qed.

Lemma after_lift {A} (p : prog E A) (w : W) :
  after h (lift f p) w = after (within f h) p w.
Proof. unfold after. rewrite exec_lift. reflexivity. Qed.

Lemma trace_lift {A} (p : prog E A) (w : W) :
  trace h (lift f p) w = map (seen f) (trace (within f h) p w).
Proof. unfold trace. rewrite exec_lift. reflexivity. Qed.
End Lifting.

Lemma calls_only_lift {E F : Type -> Type} {A} (f : forall T, E T -> F T)
    (P : forall T, F T -> Prop) (p : prog E A) :
  calls_only (fun T e => P T (f T e)) p -> calls_only P (lift f p).
Proof.
  induction p as [a | T e k IH]; simpl; [trivial |].
  intros [He Hk]. split; [exact He |]. intros t. apply IH, Hk.
Qed.

Lemma calls_only_any {E A} (P : forall T, E T -> Prop) (p : prog E A) :
  (forall T (e : E T), P T e) -> calls_only P p.
Proof.
  intros HP. induction p as [a | T e k IH]; simpl; [trivial |].
  split; [apply HP |]. exact IH.
Qed.

Lemma returns_only_lift {E F : Type -> Type} {A} (f : forall T, E T -> F T)
    (Q : A -> Prop) (p : prog E A) :
  returns_only Q p -> returns_only Q (lift f p).
Proof.
  induction p as [a | T e k IH]; simpl; [trivial |].
  intros Hk t. apply IH, Hk.
Qed.

Lemma returns_only_then {E A B} (P : A -> Prop) (Q : B -> Prop)
    (p : prog E A) (f : A -> prog E B) :
  returns_only P p -> (forall a, P a -> returns_only Q (f a)) ->
  returns_only Q (bind p f).
Proof.
  intros Hp Hf. induction p as [a | T e k IH]; simpl.
  - apply Hf, Hp.
  - intros t. apply IH, Hp.
Qed.

Lemma returns_only_weaken {E A} (P Q : A -> Prop) (p : prog E A) :
  (forall a, P a -> Q a) -> returns_only P p -> returns_only Q p.
Proof.
  intros HPQ. induction p as [a | T e k IH]; simpl; [apply HPQ |].
  intros Hk t. apply IH, Hk.
Qed.

(* --------------------------------------------------------------------- *)
(** ** The client: what travels as JSON *)
(* --------------------------------------------------------------------- *)

Lemma unwrap_throws (js : engine) (failed : string)
    (r : result json) (thrown : option JS.error) :
  VaultClient.unwrap js failed r = Throw thrown -> is_Some thrown.
Proof.
  intros H. destruct thrown as [error |]; [eexists; reflexivity |].
  exfalso. exact (unwrap_thrown js _ _ H).
Qed.

(** X15. The client's [getDatabaseUrl(database)] is rejected whatever the
    gateway answers: it makes one request, to [/api/database/config]; what
    [getDatabaseConfig] returns is the [data] of the parsed answer, which is
    returned only when [success] is truthy and holds no function, so the
    call of [dbConfig.getDatabaseUrl] throws a [TypeError]. A failure of
    [getDatabaseConfig] is passed on as it is, and nothing is printed. *)
Theorem client_getDatabaseUrl_always_throws
    {W : Type} (js : engine) (h : handler clientE W) (w : W)
    (database : string) :
  let r := outcome h (VaultClient.getDatabaseUrl js database) w in
  let tr := trace h (VaultClient.getDatabaseUrl js database) w in
  let answer := settled (h _ (Request "/api/database/config") w).1 in
  (exists error : JS.error, r = Throw (Some error))
  /\ steps tr = [Attempt]
  /\ console tr = []
  /\ match outcome h (VaultClient.getDatabaseConfig js) w with
     | Normal dbConfig =>
         (exists response,
            answer = Ok response /\ truthy (success response) = true
            /\ dbConfig = data response)
         /\ r = Throw
                  (Some (typeError js "dbConfig.getDatabaseUrl"
                           dbConfig))
     | Throw thrown => r = Throw thrown
     end.
Proof.
  cbv zeta.
  unfold VaultClient.getDatabaseUrl, and_then, VaultClient.getDatabaseConfig,
    makeRequest.
  run.
  destruct (h _ (Request "/api/database/config") w) as [answer w1].
  cbn [fst snd].
  destruct (VaultClient.unwrap js "Failed to get database config: "
              (settled answer))
    as [dbConfig | thrown] eqn:Hanswer; run.
  - split; [eexists; reflexivity |]. split; [reflexivity |].
    split; [reflexivity |]. split; [| reflexivity].
    exact (unwrap_normal js _ _ _ Hanswer).
  - destruct (unwrap_throws js _ _ thrown Hanswer) as [error ->].
    split; [eexists; reflexivity |]. repeat split.
Qed.

(* --------------------------------------------------------------------- *)
(** ** The loader: what its blocks may call and how they complete *)
(* --------------------------------------------------------------------- *)

Ltac listed := apply (bool_decide_unpack _); vm_compute; exact I.

Section Blocks.
Variable js : engine.

Lemma calls_only_and_then {E A B} (P : forall T, E T -> Prop)
    (p : prog E (completion A)) (q : A -> prog E (completion B)) :
  calls_only P p -> (forall a, calls_only P (q a)) ->
  calls_only P (and_then p q).
Proof.
  intros Hp Hq. unfold and_then. apply calls_only_bind; [exact Hp |].
  intros [a | t]; [apply Hq | exact I].
Qed.

Lemma calls_only_try_catch {A} (P : forall T, Loader.loadE T -> Prop)
    (body : Loader.lprog (completion A))
    (handler : option JS.error -> Loader.lprog (completion A)) :
  calls_only P body -> (forall thrown, calls_only P (handler thrown)) ->
  calls_only P (Loader.try_catch body handler).
Proof.
  intros Hp Hq. unfold Loader.try_catch. apply calls_only_bind; [exact Hp |].
  intros [a | t]; [exact I | apply Hq].
Qed.

Lemma say_confined (allowed : list string) (lvl : level) (msg : list piece) :
  calls_only (Loader.confined allowed) (Loader.say lvl msg).
Proof. simpl. split; [exact I | intros; exact I]. Qed.

Lemma assign_confined (allowed : list string) (name : string) (value : jsval) :
  name ∈ allowed ->
  (name ∈ Loader.url_names ->
   exists s, value = Some (JStr s) /\ Loader.web s) ->
  calls_only (Loader.confined allowed) (Loader.assign js name value).
Proof.
  intros Hin Hweb. unfold Loader.assign.
  destruct (JS.text js name value) as [s | t] eqn:Htext; [| exact I].
  simpl. split; [| intros; exact I]. split; [exact Hin |].
  intros Hurl. destruct (Hweb Hurl) as (s' & -> & Hs').
  simpl in Htext. injection Htext as <-. exact Hs'.
Qed.

Lemma warn_confined (allowed : list string) (text : string)
    (thrown : option JS.error) :
  calls_only (Loader.confined allowed) (Loader.warn js text thrown).
Proof.
  unfold Loader.warn. apply calls_only_and_then; [exact I |].
  intros message. apply say_confined.
Qed.

Lemma client_confined {A} (allowed : list string) (p : cprog A) :
  calls_only
    (fun T e => match e with
                | MakeHealthRequest => False
                | Request endpoint => endpoint ∈ Loader.endpoints
                | _ => True
                end) p ->
  calls_only (Loader.confined allowed) (lift (@Loader.Client) p).
Proof.
  intros Hp. apply calls_only_lift.
  apply (calls_only_weaken _ _ p (fun T e H => H)) in Hp.
  revert Hp. apply calls_only_weaken. intros T e. destruct e; trivial.
Qed.

Lemma getSecret_from_asks (attempt remaining retryCount : nat)
    (path : string) (lastError : option JS.error) :
  "/api/secrets/" +:+ path ∈ Loader.endpoints ->
  calls_only
    (fun T e => match e with
                | MakeHealthRequest => False
                | Request endpoint => endpoint ∈ Loader.endpoints
                | _ => True
                end)
    (getSecret_from js attempt remaining retryCount path lastError).
Proof.
  intros Hpath. revert attempt lastError.
  induction remaining as [| remaining IH]; intros attempt lastError.
  - simpl. split; [exact I | intros; exact I].
  - cbn [getSecret_from]. simpl. split; [exact Hpath |].
    assert (Hcaught : forall error,
              calls_only
                (fun T e => match e with
                            | MakeHealthRequest => False
                            | Request endpoint =>
                                endpoint ∈ Loader.endpoints
                            | _ => True
                            end)
                (caught attempt retryCount error
                   (getSecret_from js (S attempt) remaining retryCount path))).
    { intros error. unfold caught.
      destruct (attempt <? retryCount)%nat; [| apply IH].
      simpl. split; [exact I |]. intros _. split; [exact I |].
      intros _. apply IH. }
    intros answer.
    destruct (unwrap js "Failed to get secret: " (settled answer));
      [| apply Hcaught].
    simpl. split; [exact I | intros; exact I].
Qed.

Lemma awaitSecret_confined (allowed : list string) (path : string) :
  "/api/secrets/" +:+ path ∈ Loader.endpoints ->
  calls_only (Loader.confined allowed) (Loader.awaitSecret js path).
Proof.
  intros Hpath. unfold Loader.awaitSecret. apply calls_only_bind.
  - apply client_confined. apply getSecret_from_asks, Hpath.
  - intros [data | lastError]; exact I.
Qed.

Lemma is_http_web (url : jsval) :
  Loader.is_http js url = Normal true ->
  exists s, url = Some (JStr s) /\ Loader.web s.
Proof.
  unfold Loader.is_http, Loader.startsWith.
  destruct (truthy url); [| discriminate].
  destruct url as [[| b | n | s | items | fields] |]; try discriminate.
  destruct (Strings.String.prefix "http://" s) eqn:Hhttp.
  - intros _. exists s. split; [reflexivity | left; exact Hhttp].
  - intros [= Hhttps]. exists s. split; [reflexivity | right; exact Hhttps].
Qed.

Lemma calls_only_eval_then {A B} (P : forall T, Loader.loadE T -> Prop)
    (c : completion A)
    (q : A -> Loader.lprog (completion B)) :
  (forall a, c = Normal a -> calls_only P (q a)) ->
  calls_only P (and_then (Loader.eval c) q).
Proof.
  intros Hq. unfold and_then, Loader.eval. cbn [bind].
  destruct c as [a | t]; [apply Hq; reflexivity | exact I].
Qed.

Lemma assign_urls_confined (urlMap : list (string * jsval)) :
  Forall (fun entry => entry.1 ∈ Loader.url_names) urlMap ->
  calls_only (Loader.confined Loader.url_names) (Loader.assign_urls js urlMap).
Proof.
  induction 1 as [| [envVar url] rest Hname _ IH]; [exact I |].
  cbn [Loader.assign_urls]. apply calls_only_eval_then.
  intros [|] Hurl; [| exact IH].
  apply calls_only_and_then; [| intros _; exact IH].
  apply assign_confined; [exact Hname |].
  intros _. apply is_http_web, Hurl.
Qed.

Lemma load_database_confined (serviceName : string) :
  calls_only (Loader.confined []) (Loader.load_database js serviceName).
Proof.
  unfold Loader.load_database.
  apply calls_only_try_catch; [| intros; apply warn_confined].
  apply calls_only_and_then.
  - apply client_confined. simpl. split; [listed | intros; exact I].
  - intros dbConfig. apply calls_only_eval_then.
    unfold call_method. discriminate.
Qed.

Lemma load_urls_confined :
  calls_only (Loader.confined Loader.url_names) (Loader.load_urls js).
Proof.
  unfold Loader.load_urls.
  apply calls_only_try_catch; [| intros; apply warn_confined].
  apply calls_only_and_then.
  - apply client_confined. simpl. split; [listed | intros; exact I].
  - intros serviceUrls.
    do 4 (apply calls_only_eval_then; intros ? _).
    apply calls_only_and_then; [| intros; apply say_confined].
    apply assign_urls_confined. repeat constructor; listed.
Qed.

Lemma plain_confined (allowed : list string) (name : string) (value : jsval) :
  name ∈ allowed -> name ∉ Loader.url_names ->
  calls_only (Loader.confined allowed) (Loader.assign js name value).
Proof.
  intros Hin Hout. apply assign_confined; [exact Hin |].
  intros Hurl. contradiction.
Qed.

Lemma load_jwt_confined :
  calls_only (Loader.confined Loader.jwt_names) (Loader.load_jwt js).
Proof.
  unfold Loader.load_jwt. apply calls_only_try_catch.
  - apply calls_only_and_then; [apply awaitSecret_confined; listed |].
    intros jwtSecrets. unfold Loader.adopt_jwt.
    apply calls_only_eval_then. intros secret _.
    apply calls_only_eval_then. intros [|] _; [| exact I].
    apply calls_only_and_then; [apply plain_confined; listed |]. intros _.
    apply calls_only_eval_then. intros algorithm _.
    apply calls_only_and_then; [apply plain_confined; listed |]. intros _.
    apply calls_only_eval_then. intros expiration _.
    apply calls_only_and_then; [apply plain_confined; listed |]. intros _.
    apply calls_only_eval_then. intros shown _. apply say_confined.
  - intros thrown. unfold Loader.generate_jwt.
    apply calls_only_and_then; [apply warn_confined |]. intros _.
    apply calls_only_and_then; [apply say_confined |]. intros _.
    apply calls_only_bind.
    + apply calls_only_lift, calls_only_any. intros T e. simpl. listed.
    + intros token.
      apply calls_only_and_then; [apply plain_confined; listed |]. intros _.
      apply calls_only_and_then; [apply plain_confined; listed |]. intros _.
      apply plain_confined; listed.
Qed.

Lemma assign_int_confined (allowed : list string) (name expr : string)
    (v : jsval) (d : Z) :
  name ∈ allowed -> name ∉ Loader.url_names ->
  calls_only (Loader.confined allowed) (Loader.assign_int js name expr v d).
Proof.
  intros Hin Hout. unfold Loader.assign_int.
  apply calls_only_eval_then. intros s _. apply plain_confined; assumption.
Qed.

Lemma load_api_confined :
  calls_only (Loader.confined Loader.api_names) (Loader.load_api js).
Proof.
  unfold Loader.load_api.
  apply calls_only_try_catch; [| intros; apply warn_confined].
  apply calls_only_and_then; [apply awaitSecret_confined; listed |].
  intros apiConfig.
  apply calls_only_eval_then. intros rate_limit_max _.
  apply calls_only_and_then; [apply assign_int_confined; listed |]. intros _.
  apply calls_only_eval_then. intros rate_limit_window _.
  apply calls_only_and_then; [apply assign_int_confined; listed |]. intros _.
  apply calls_only_eval_then. intros cors_origin _.
  apply calls_only_and_then; [apply plain_confined; listed |]. intros _.
  apply say_confined.
Qed.

Lemma assign_settings_confined (gameSettings : list (string * option string)) :
  Forall (fun entry => entry.1 ∈ Loader.game_names) gameSettings ->
  calls_only (Loader.confined Loader.game_names)
    (Loader.assign_settings js gameSettings).
Proof.
  induction 1 as [| [key [value |]] rest Hname _ IH]; [exact I | | exact IH].
  cbn [Loader.assign_settings].
  apply calls_only_and_then; [| intros _; exact IH].
  apply plain_confined; [exact Hname |].
  cbn [fst] in Hname. intros Hurl. revert Hname.
  repeat (apply elem_of_cons in Hurl as [-> | Hurl]; [listed |]).
  inversion Hurl.
Qed.

Lemma load_game_confined :
  calls_only (Loader.confined Loader.game_names) (Loader.load_game js).
Proof.
  unfold Loader.load_game.
  apply calls_only_try_catch; [| intros; apply warn_confined].
  apply calls_only_and_then; [apply awaitSecret_confined; listed |].
  intros gameConfig.
  do 5 (apply calls_only_eval_then; intros ? _).
  apply calls_only_and_then; [| intros; apply say_confined].
  apply assign_settings_confined. repeat constructor; listed.
Qed.

Lemma confined_weaken {A} (allowed allowed' : list string)
    (p : Loader.lprog A) :
  allowed ⊆ allowed' ->
  calls_only (Loader.confined allowed) p ->
  calls_only (Loader.confined allowed') p.
Proof.
  intros Hsub. apply calls_only_weaken. intros T e.
  destruct e as [c | c | c]; [destruct c; trivial | apply Hsub |].
  destruct c; trivial.
  intros [Hin Hweb]. split; [apply Hsub, Hin | exact Hweb].
Qed.
End Blocks.

Section Completions.
Variable js : engine.

Lemma and_then_defined {E A B}
    (p : prog E (completion A)) (q : A -> prog E (completion B)) :
  returns_only Loader.defined p ->
  (forall a, returns_only Loader.defined (q a)) ->
  returns_only Loader.defined (and_then p q).
Proof.
  intros Hp Hq. unfold and_then.
  apply (returns_only_then Loader.defined); [exact Hp |].
  intros [a | t] Ht; [apply Hq |].
  simpl. intros [= ->]. apply Ht. reflexivity.
Qed.

Lemma eval_then_defined {A B} (c : completion A)
    (q : A -> Loader.lprog (completion B)) :
  Loader.defined c ->
  (forall a, c = Normal a -> returns_only Loader.defined (q a)) ->
  returns_only Loader.defined (and_then (Loader.eval c) q).
Proof.
  intros Hc Hq. unfold and_then, Loader.eval. cbn [bind].
  destruct c as [a | t]; [apply Hq; reflexivity |].
  simpl. intros [= ->]. apply Hc. reflexivity.
Qed.

Lemma defined_throw {A B} (t : option JS.error) :
  Loader.defined (@Throw A t) -> Loader.defined (@Throw B t).
Proof. intros Ht [= ->]. apply Ht. reflexivity. Qed.

Lemma read_defined (expr : string) (v : jsval) (key : string) :
  Loader.defined (JS.read js expr v key).
Proof. unfold JS.read. destruct v as [[] |]; discriminate. Qed.

Lemma text_defined (expr : string) (v : jsval) :
  Loader.defined (JS.text js expr v).
Proof.
  unfold JS.text. destruct (text_of v); discriminate.
Qed.

Lemma startsWith_defined (expr : string) (v : jsval) (prefix : string) :
  Loader.defined (Loader.startsWith js expr v prefix).
Proof. unfold Loader.startsWith. destruct v as [[] |]; discriminate. Qed.

Lemma at_least_defined (expr : string) (x : jsval) (n : Z) :
  Loader.defined (Loader.at_least js expr x n).
Proof.
  unfold Loader.at_least.
  destruct x as [[| b | k | s | items | fields] |]; try discriminate.
  - destruct (textJ (JArr items)); discriminate.
  - destruct (textJ (JObj fields)); discriminate.
Qed.

Lemma long_enough_defined (secret : jsval) :
  Loader.defined (Loader.long_enough js secret).
Proof.
  unfold Loader.long_enough. destruct secret as [s |]; [| discriminate].
  destruct (truthy (Some s)); [apply at_least_defined | discriminate].
Qed.

Lemma is_http_defined (url : jsval) : Loader.defined (Loader.is_http js url).
Proof.
  unfold Loader.is_http. destruct (truthy url); [| discriminate].
  pose proof (startsWith_defined "url.startsWith" url "http://") as H1.
  destruct (Loader.startsWith js "url.startsWith" url "http://") as [[|] | t];
    [discriminate | apply startsWith_defined | exact H1].
Qed.

Lemma setting_defined (gameConfig : jsval) (key : string) (d : Z) :
  Loader.defined (Loader.setting js gameConfig key d).
Proof.
  unfold Loader.setting.
  pose proof (read_defined ("gameConfig." +:+ key) gameConfig key) as H1.
  destruct (JS.read js ("gameConfig." +:+ key) gameConfig key)
    as [v | t]; [| exact (defined_throw t H1)].
  pose proof (text_defined ("gameConfig." +:+ key) v) as H2.
  destruct (JS.text js ("gameConfig." +:+ key) v) as [s | t];
    [discriminate | exact (defined_throw t H2)].
Qed.

Lemma say_defined (lvl : level) (msg : list piece) :
  returns_only Loader.defined (Loader.say lvl msg).
Proof. simpl. intros _. discriminate. Qed.

Lemma assign_defined (name : string) (value : jsval) :
  returns_only Loader.defined (Loader.assign js name value).
Proof.
  unfold Loader.assign. pose proof (text_defined name value) as H.
  destruct (JS.text js name value) as [s | t];
    [| exact (defined_throw t H)].
  simpl. intros _. discriminate.
Qed.

Lemma unwrap_defined (failed : string) (r : result json) :
  Loader.defined (VaultClient.unwrap js failed r).
Proof.
  intros Heq. apply unwrap_throws in Heq. destruct Heq as [? [=]].
Qed.

Lemma getDatabaseConfig_defined :
  returns_only Loader.defined
    (lift (@Loader.Client) (VaultClient.getDatabaseConfig js)).
Proof.
  apply returns_only_lift. simpl. intros r. apply unwrap_defined.
Qed.

Lemma getServiceUrls_defined :
  returns_only Loader.defined
    (lift (@Loader.Client) (VaultClient.getServiceUrls js)).
Proof.
  apply returns_only_lift. simpl. intros r. apply unwrap_defined.
Qed.

(** From the second round on, [lastError] holds an error; with a retry
    count above zero the first round exists. *)
Lemma getSecret_from_thrown (attempt remaining retryCount : nat)
    (path : string) (lastError : option JS.error) :
  (is_Some lastError \/ remaining <> 0%nat) ->
  returns_only (fun f => f <> Thrown None)
    (getSecret_from js attempt remaining retryCount path lastError).
Proof.
  revert attempt lastError.
  induction remaining as [| remaining IH]; intros attempt lastError Hsome.
  - simpl. intros _. destruct Hsome as [[e ->] | H]; [discriminate | lia].
  - cbn [getSecret_from]. simpl.
    assert (Hcaught : forall error,
              is_Some error ->
              returns_only (fun f => f <> Thrown None)
                (caught attempt retryCount error
                   (getSecret_from js (S attempt) remaining retryCount path))).
    { intros error Herror. unfold caught.
      destruct (attempt <? retryCount)%nat.
      - simpl. intros _ _. apply IH. left. exact Herror.
      - apply IH. left. exact Herror. }
    intros answer.
    destruct (unwrap js "Failed to get secret: " (settled answer))
      as [data | error] eqn:Hanswer.
    + simpl. intros _. discriminate.
    + apply Hcaught. exact (unwrap_throws js _ _ _ Hanswer).
Qed.

Lemma awaitSecret_defined (path : string) :
  returns_only Loader.defined (Loader.awaitSecret js path).
Proof.
  unfold Loader.awaitSecret.
  apply (returns_only_then (fun f => f <> Thrown None)).
  - apply returns_only_lift. unfold getSecret.
    apply getSecret_from_thrown. right. simpl. discriminate.
  - intros [data | lastError] Hf; simpl; [discriminate |].
    intros [= ->]. apply Hf. reflexivity.
Qed.

Lemma assign_urls_defined (urlMap : list (string * jsval)) :
  returns_only Loader.defined (Loader.assign_urls js urlMap).
Proof.
  induction urlMap as [| [envVar url] rest IH]; [discriminate |].
  cbn [Loader.assign_urls]. apply eval_then_defined; [apply is_http_defined |].
  intros [|] _; [| exact IH].
  apply and_then_defined; [apply assign_defined | intros _; exact IH].
Qed.

Lemma assign_settings_defined (gameSettings : list (string * option string)) :
  returns_only Loader.defined (Loader.assign_settings js gameSettings).
Proof.
  induction gameSettings as [| [key [value |]] rest IH];
    [discriminate | | exact IH].
  cbn [Loader.assign_settings].
  apply and_then_defined; [apply assign_defined | intros _; exact IH].
Qed.

(** A block that catches what it throws, and whose [catch] block completes
    normally on an error, completes normally. *)
Lemma try_catch_normal (body : Loader.lprog (completion unit))
    (handler : option JS.error -> Loader.lprog (completion unit)) :
  returns_only Loader.defined body ->
  (forall error,
     returns_only (fun c => c = Normal tt) (handler (Some error))) ->
  returns_only (fun c => c = Normal tt) (Loader.try_catch body handler).
Proof.
  intros Hbody Hhandler. unfold Loader.try_catch.
  apply (returns_only_then Loader.defined); [exact Hbody |].
  intros [[] | [error |]] Hdef; [reflexivity | apply Hhandler |].
  exfalso. apply Hdef. reflexivity.
Qed.

Lemma warn_normal (text : string) (error : JS.error) :
  returns_only (fun c => c = Normal tt)
    (Loader.warn js text (Some error)).
Proof. simpl. intros _. reflexivity. Qed.

Lemma load_database_normal (serviceName : string) :
  returns_only (fun c => c = Normal tt)
    (Loader.load_database js serviceName).
Proof.
  unfold Loader.load_database.
  apply try_catch_normal; [| intros; apply warn_normal].
  apply and_then_defined; [apply getDatabaseConfig_defined |].
  intros dbConfig. apply eval_then_defined; [discriminate |].
  unfold call_method. discriminate.
Qed.

Lemma load_urls_normal :
  returns_only (fun c => c = Normal tt) (Loader.load_urls js).
Proof.
  unfold Loader.load_urls.
  apply try_catch_normal; [| intros; apply warn_normal].
  apply and_then_defined; [apply getServiceUrls_defined |].
  intros serviceUrls.
  do 4 (apply eval_then_defined; [apply read_defined | intros ? _]).
  apply and_then_defined; [apply assign_urls_defined |].
  intros _. apply say_defined.
Qed.

Lemma text_string (name s : string) :
  JS.text js name (Some (JStr s)) = Normal s.
Proof. reflexivity. Qed.

Lemma load_jwt_normal :
  returns_only (fun c => c = Normal tt) (Loader.load_jwt js).
Proof.
  unfold Loader.load_jwt. apply try_catch_normal.
  - apply and_then_defined; [apply awaitSecret_defined |].
    intros jwtSecrets. unfold Loader.adopt_jwt.
    apply eval_then_defined; [apply read_defined | intros secret _].
    apply eval_then_defined; [apply long_enough_defined |].
    intros [|] _; [| discriminate].
    apply and_then_defined; [apply assign_defined | intros _].
    apply eval_then_defined; [apply read_defined | intros algorithm _].
    apply and_then_defined; [apply assign_defined | intros _].
    apply eval_then_defined; [apply read_defined | intros expiration _].
    apply and_then_defined; [apply assign_defined | intros _].
    apply eval_then_defined; [apply text_defined | intros shown _].
    apply say_defined.
  - intros error. simpl. intros. reflexivity.
Qed.

Lemma load_api_normal :
  returns_only (fun c => c = Normal tt) (Loader.load_api js).
Proof.
  unfold Loader.load_api, Loader.assign_int.
  apply try_catch_normal; [| intros; apply warn_normal].
  apply and_then_defined; [apply awaitSecret_defined |].
  intros apiConfig.
  apply eval_then_defined; [apply read_defined | intros rate_limit_max _].
  apply and_then_defined;
    [apply eval_then_defined; [apply text_defined |];
     intros; apply assign_defined | intros _].
  apply eval_then_defined; [apply read_defined | intros rate_limit_window _].
  apply and_then_defined;
    [apply eval_then_defined; [apply text_defined |];
     intros; apply assign_defined | intros _].
  apply eval_then_defined; [apply read_defined | intros cors_origin _].
  apply and_then_defined; [apply assign_defined | intros _].
  apply say_defined.
Qed.

Lemma load_game_normal :
  returns_only (fun c => c = Normal tt) (Loader.load_game js).
Proof.
  unfold Loader.load_game.
  apply try_catch_normal; [| intros; apply warn_normal].
  apply and_then_defined; [apply awaitSecret_defined |].
  intros gameConfig.
  do 5 (apply eval_then_defined; [apply setting_defined | intros ? _]).
  apply and_then_defined; [apply assign_settings_defined |].
  intros _. apply say_defined.
Qed.
End Completions.

(* --------------------------------------------------------------------- *)
(** ** The loader: its runs *)
(* --------------------------------------------------------------------- *)

Section Sequencing.
Context {E : Type -> Type} {W : Type} (h : handler E W).

Lemma outcome_and_then {A B} (p : prog E (completion A))
    (q : A -> prog E (completion B)) (w : W) :
  outcome h (and_then p q) w
  = match outcome h p w with
    | Normal a => outcome h (q a) (after h p w)
    | Throw t => Throw t
    end.
Proof.
  unfold and_then. rewrite outcome_bind.
  destruct (outcome h p w); [reflexivity | apply outcome_ret].
Qed.

Lemma after_and_then {A B} (p : prog E (completion A))
    (q : A -> prog E (completion B)) (w : W) :
  after h (and_then p q) w
  = match outcome h p w with
    | Normal a => after h (q a) (after h p w)
    | Throw t => after h p w
    end.
Proof.
  unfold and_then. rewrite after_bind.
  destruct (outcome h p w); [reflexivity | apply after_ret].
Qed.

Lemma trace_and_then {A B} (p : prog E (completion A))
    (q : A -> prog E (completion B)) (w : W) :
  trace h (and_then p q) w
  = trace h p w
    ++ match outcome h p w with
       | Normal a => trace h (q a) (after h p w)
       | Throw t => []
       end.
Proof.
  unfold and_then. rewrite trace_bind.
  destruct (outcome h p w); [reflexivity | rewrite trace_ret; reflexivity].
Qed.
End Sequencing.

Lemma Forall_omap_performed {E B} (P : forall T, E T -> Prop)
    (Q : B -> Prop) (f : obs E -> option B) (tr : list (obs E)) :
  (forall o b, performed P o -> f o = Some b -> Q b) ->
  Forall (performed P) tr -> Forall Q (omap f tr).
Proof.
  intros Hf Htr. induction Htr as [| o tr Ho _ IH]; [constructor |].
  rewrite omap_cons_case. destruct (f o) as [b |] eqn:Hb; [| exact IH].
  constructor; [exact (Hf o b Ho Hb) | exact IH].
Qed.

Section Loading.
Variable js : engine.

Lemma confined_loading {A} (allowed : list string) (p : Loader.lprog A) :
  calls_only (Loader.confined allowed) p ->
  calls_only (Loader.loading allowed) p.
Proof.
  apply calls_only_weaken. intros T e.
  destruct e as [c | c | c]; destruct c; simpl; trivial.
Qed.

Lemma setting_names_auth :
  Loader.jwt_names ⊆ Loader.setting_names "auth-service".
Proof. intros x Hx. unfold Loader.setting_names. simpl. set_solver. Qed.

Lemma settings_confined (serviceName : string) :
  calls_only (Loader.confined (Loader.setting_names serviceName))
    (Loader.settings js serviceName).
Proof.
  unfold Loader.settings, Loader.setting_names.
  apply calls_only_and_then.
  { apply (confined_weaken []); [set_solver | apply load_database_confined]. }
  intros _. apply calls_only_and_then.
  { apply (confined_weaken Loader.url_names);
      [set_solver | apply load_urls_confined]. }
  intros _. apply calls_only_and_then.
  { destruct (String.eqb serviceName "auth-service"); [| exact I].
    apply (confined_weaken Loader.jwt_names);
      [set_solver | apply load_jwt_confined]. }
  intros _. apply calls_only_and_then.
  { apply (confined_weaken Loader.api_names);
      [set_solver | apply load_api_confined]. }
  intros _. destruct (String.eqb serviceName "game-service"); [| exact I].
  apply (confined_weaken Loader.game_names);
    [set_solver | apply load_game_confined].
Qed.

Lemma port_not_url : "PORT" ∉ Loader.url_names.
Proof. listed. Qed.

Lemma loaded_confined (serviceName : string) :
  calls_only (Loader.confined (Loader.names serviceName))
    (Loader.loaded js serviceName).
Proof.
  unfold Loader.loaded, Loader.names.
  apply calls_only_and_then.
  { apply (confined_weaken (Loader.setting_names serviceName));
      [set_solver | apply settings_confined]. }
  intros _. apply calls_only_and_then; [| intros _; apply say_confined].
  destruct (Loader.portMap js serviceName); [| exact I].
  apply plain_confined; [set_solver | apply port_not_url].
Qed.

Lemma client_waitForVault_from_probing (serviceName : jsval)
    (remaining i maxRetries : nat) :
  calls_only Loader.probing
    (VaultClient.waitForVault_from serviceName i remaining maxRetries).
Proof.
  revert i. induction remaining as [| remaining IH]; intros i; simpl;
    [exact I |].
  split; [exact I |]. intros [[] | error]; simpl.
  - split; [exact I | intros; exact I].
  - split; [exact I |]. intros _. split; [exact I |]. intros _. apply IH.
Qed.

Lemma ready_waiting (serviceName : string) :
  calls_only Loader.waiting (Loader.ready serviceName).
Proof.
  unfold Loader.ready. apply calls_only_bind.
  - apply calls_only_lift.
    apply (calls_only_weaken Loader.probing);
      [intros T e; destruct e; trivial |].
    apply client_waitForVault_from_probing.
  - intros [[] | error]; exact I.
Qed.

Lemma loadEnvFromVault_loading (serviceName : string) :
  calls_only (Loader.loading (Loader.names serviceName))
    (Loader.loadEnvFromVault js serviceName).
Proof.
  unfold Loader.loadEnvFromVault.
  apply calls_only_try_catch.
  - apply calls_only_and_then; [simpl; split; [exact I | intros; exact I] |].
    intros _. apply calls_only_and_then.
    + apply (calls_only_weaken Loader.waiting);
        [| apply ready_waiting].
      intros T e. destruct e as [c | c | c]; try contradiction.
      destruct c; [contradiction | trivial ..].
    + intros _. apply confined_loading, loaded_confined.
  - intros thrown. unfold Loader.fallback.
    apply calls_only_eval_then. intros message _.
    apply calls_only_and_then; [simpl; split; [exact I | intros; exact I] |].
    intros _.
    apply calls_only_and_then; [simpl; split; [exact I | intros; exact I] |].
    intros _. simpl. split; [exact I |]. intros port.
    destruct (Gateway.set_to port); [exact I |].
    apply confined_loading, plain_confined;
      [unfold Loader.names; set_solver | apply port_not_url].
Qed.
End Loading.

(** X16. Whatever the gateway answers, [loadEnvFromVault(serviceName)]
    assigns no variable of the environment but the four addresses of the
    services, the three settings of the API, [PORT], the three variables
    of the signing key for [auth-service] and the five settings of the game
    for [game-service]; [DATABASE_URL] is never assigned, since the
    configuration of the database arrives without its function. An address
    of a service is only ever assigned a text that starts with [http://] or
    [https://]. The requests go to five endpoints of the gateway, and
    random bytes are drawn for [auth-service] only. *)
Theorem loadEnvFromVault_assigns_only
    {W : Type} (js : engine) (h : handler Loader.loadE W) (w : W)
    (serviceName : string) :
  let tr := trace h (Loader.loadEnvFromVault js serviceName) w in
  Forall (fun a : string * string =>
            a.1 ∈ Loader.names serviceName
            /\ (a.1 ∈ Loader.url_names -> Loader.web a.2))
    (Loader.assigned tr)
  /\ ("DATABASE_URL" ∉ map fst (Loader.assigned tr))
  /\ Forall (fun endpoint => endpoint ∈ Loader.endpoints) (Loader.requests tr)
  /\ (if String.eqb serviceName "auth-service" then True
      else Loader.drawn tr = []
           /\ Forall (fun a : string * string => a.1 ∉ Loader.jwt_names)
                (Loader.assigned tr))
  /\ (if String.eqb serviceName "game-service" then True
      else Forall (fun a : string * string => a.1 ∉ Loader.game_names)
             (Loader.assigned tr)).
Proof.
  cbv zeta.
  pose proof (calls_only_trace h _ _ w
                (loadEnvFromVault_loading js serviceName)) as Htr.
  revert Htr. generalize (trace h (Loader.loadEnvFromVault js serviceName) w).
  intros tr Htr.
  assert (Hassigned :
    Forall (fun a : string * string =>
              a.1 ∈ Loader.names serviceName
              /\ (a.1 ∈ Loader.url_names -> Loader.web a.2))
      (Loader.assigned tr)).
  { revert Htr. apply Forall_omap_performed.
    intros [T e t] [name value] Ho Hb.
    destruct e as [c | c | c]; try discriminate.
    destruct c; [discriminate |]. injection Hb as <- <-. exact Ho. }
  split; [exact Hassigned |]. split; [| split; [| split]].
  - intros Hin. apply (list_elem_of_fmap fst) in Hin.
    destruct Hin as ([name value] & Hname & Hin). cbn [fst] in Hname.
    subst name. rewrite Forall_forall in Hassigned.
    destruct (Hassigned _ Hin) as [Hnames _]. cbn [fst] in Hnames.
    revert Hnames. unfold Loader.names, Loader.setting_names.
    destruct (String.eqb serviceName "auth-service"),
             (String.eqb serviceName "game-service"); listed.
  - revert Htr. apply Forall_omap_performed.
    intros [T e t] endpoint Ho Hb.
    destruct e as [c | c | c]; try discriminate.
    destruct c; try discriminate. injection Hb as <-. exact Ho.
  - destruct (String.eqb serviceName "auth-service") eqn:Hauth; [exact I |].
    assert (Hjwt : forall name,
              name ∈ Loader.names serviceName -> name ∉ Loader.jwt_names).
    { intros name. unfold Loader.names, Loader.setting_names.
      rewrite Hauth. intros Hin Hjwt. revert Hin.
      repeat (apply elem_of_cons in Hjwt as [-> | Hjwt];
              [destruct (String.eqb serviceName "game-service"); listed |]).
      inversion Hjwt. }
    split.
    + apply (omap_unperformed (Loader.loading (Loader.names serviceName)));
        [| exact Htr].
      intros [T e t] Ho. destruct e as [c | c | c]; try reflexivity.
      exfalso. simpl in Ho. exact (Hjwt _ Ho ltac:(listed)).
    + eapply Forall_impl; [exact Hassigned |]. intros [name value] [Hin _].
      apply Hjwt, Hin.
  - destruct (String.eqb serviceName "game-service") eqn:Hgame; [exact I |].
    eapply Forall_impl; [exact Hassigned |]. intros [name value] [Hin _].
    cbn [fst] in *. intros Hg. revert Hin.
    unfold Loader.names, Loader.setting_names. rewrite Hgame.
    repeat (apply elem_of_cons in Hg as [-> | Hg];
            [destruct (String.eqb serviceName "auth-service"); listed |]).
    inversion Hg.
Qed.

Section Waiting.
Context {W : Type} (js : engine) (h : handler Loader.loadE W).

Lemma probes_seen (tr : list (obs clientE)) :
  Loader.probes (map (seen (@Loader.Client)) tr) = probes tr.
Proof.
  unfold Loader.probes, probes.
  induction tr as [| [T e t] tr IH]; [reflexivity |].
  cbn [map]. rewrite !omap_cons_case, IH. destruct e; reflexivity.
Qed.

Lemma waiting_trace (tr : list (obs Loader.loadE)) :
  Forall (performed Loader.waiting) tr ->
  Loader.requests tr = [] /\ Loader.assigned tr = []
  /\ Loader.drawn tr = [] /\ Loader.looked_up tr = [].
Proof.
  intros Htr.
  repeat split; (apply (omap_unperformed Loader.waiting); [| exact Htr]);
    intros [T e t] He; destruct e as [c | c | c]; simpl in *;
    try contradiction; destruct c; simpl in *; tauto.
Qed.

Lemma confined_trace (allowed : list string) (tr : list (obs Loader.loadE)) :
  Forall (performed (Loader.confined allowed)) tr ->
  Loader.probes tr = [] /\ Loader.looked_up tr = [].
Proof.
  intros Htr.
  repeat split;
    (apply (omap_unperformed (Loader.confined allowed)); [| exact Htr]);
    intros [T e t] He; destruct e as [c | c | c]; simpl in *;
    try reflexivity; destruct c; simpl in *; tauto.
Qed.

(** The wait of the loader: thirty rejected health requests and the error
    of the wait, or fewer and then one that is answered. *)
Lemma ready_run (serviceName : string) (w : W) :
  (outcome h (Loader.ready serviceName) w
   = Throw (Some (Error VaultClient.waitForVault_message))
   /\ Loader.probes (trace h (Loader.ready serviceName) w)
      = replicate 30 false)
  \/ (outcome h (Loader.ready serviceName) w = Normal tt
      /\ exists k : nat, (k < 30)%nat
           /\ Loader.probes (trace h (Loader.ready serviceName) w)
              = replicate k false ++ [true]).
Proof.
  unfold Loader.ready. rewrite outcome_bind, trace_bind.
  rewrite outcome_lift, after_lift, trace_lift.
  unfold VaultClient.waitForVault. cbn [default].
  destruct (client_waitForVault_from_run (within (@Loader.Client) h)
              (Some (JStr serviceName)) 30 0 30 w)
    as [(Hr & Hp & _) | (Hr & k & Hk & Hp & _)].
  - left. rewrite Hr. rewrite outcome_ret, trace_ret, app_nil_r.
    split; [reflexivity |]. rewrite probes_seen. exact Hp.
  - right. rewrite Hr. rewrite outcome_ret, trace_ret, app_nil_r.
    split; [reflexivity |]. exists k. split; [exact Hk |].
    rewrite probes_seen. exact Hp.
Qed.

Lemma and_then_normal {E A B} (Q : completion B -> Prop)
    (p : prog E (completion A))
    (q : A -> prog E (completion B)) (a : A) :
  returns_only (fun c => c = Normal a) p ->
  returns_only Q (q a) ->
  returns_only Q (and_then p q).
Proof.
  intros Hp Hq. unfold and_then.
  apply (returns_only_then (fun c => c = Normal a)); [exact Hp |].
  intros c ->. exact Hq.
Qed.

Lemma settings_normal (serviceName : string) :
  returns_only (fun c => c = Normal tt)
    (Loader.settings js serviceName).
Proof.
  unfold Loader.settings.
  apply (and_then_normal _ _ _ tt); [apply load_database_normal |].
  apply (and_then_normal _ _ _ tt); [apply load_urls_normal |].
  apply (and_then_normal _ _ _ tt).
  { destruct (String.eqb serviceName "auth-service");
      [apply load_jwt_normal | reflexivity]. }
  apply (and_then_normal _ _ _ tt); [apply load_api_normal |].
  destruct (String.eqb serviceName "game-service");
    [apply load_game_normal | reflexivity].
Qed.
End Waiting.

Section Falling.
Context {W : Type} (js : engine) (h : handler Loader.loadE W).

Lemma say_run (lvl : level) (msg : list piece) (w : W) :
  outcome h (Loader.say lvl msg) w = Normal tt
  /\ Forall (performed Loader.waiting) (trace h (Loader.say lvl msg) w)
  /\ Loader.probes (trace h (Loader.say lvl msg) w) = [].
Proof.
  unfold Loader.say. run. split; [reflexivity |].
  split; [repeat constructor | reflexivity].
Qed.

Lemma assign_string_run (name value : string) (w : W) :
  outcome h (Loader.assign js name (Some (JStr value))) w = Normal tt
  /\ trace h (Loader.assign js name (Some (JStr value))) w
     = [Obs (Loader.Env (Loader.SetEnv name value))
          (h _ (Loader.Env (Loader.SetEnv name value)) w).1].
Proof. unfold Loader.assign. cbn [JS.text text_of textJ toStringJ]. run.
  split; reflexivity.
Qed.

Lemma loaded_normal (serviceName : string) :
  returns_only (fun c => c = Normal tt) (Loader.loaded js serviceName).
Proof.
  unfold Loader.loaded.
  apply (and_then_normal _ _ _ tt); [apply settings_normal |].
  apply (and_then_normal _ _ _ tt).
  - destruct (Loader.portMap js serviceName);
      [simpl; intros; reflexivity | reflexivity].
  - simpl. intros. reflexivity.
Qed.

(** What the loader does once its wait has returned. *)
Lemma loaded_run (serviceName : string) (w : W) :
  outcome h (Loader.loaded js serviceName) w = Normal tt
  /\ Loader.probes (trace h (Loader.loaded js serviceName) w) = []
  /\ Loader.looked_up (trace h (Loader.loaded js serviceName) w) = []
  /\ match Loader.portMap js serviceName with
     | Some port =>
         last (Loader.assigned (trace h (Loader.loaded js serviceName) w))
         = Some ("PORT", port)
     | None =>
         "PORT" ∉ map fst
           (Loader.assigned (trace h (Loader.loaded js serviceName) w))
     end.
Proof.
  pose proof (returns_only_outcome h _ _ w (loaded_normal serviceName))
    as Hout. cbv beta in Hout.
  destruct (confined_trace _ _
              (calls_only_trace h _ _ w (loaded_confined js serviceName)))
    as [Hprobes Hlooked].
  split; [exact Hout |]. split; [exact Hprobes |]. split; [exact Hlooked |].
  clear Hout Hprobes Hlooked.
  unfold Loader.loaded. rewrite trace_and_then.
  rewrite (returns_only_outcome h _ _ w (settings_normal js serviceName)).
  pose proof (calls_only_trace h _ _ w (settings_confined js serviceName))
    as Hsettings.
  revert Hsettings.
  generalize (trace h (Loader.settings js serviceName) w).
  generalize (after h (Loader.settings js serviceName) w).
  intros w1 tr Hsettings.
  assert (Hnames : Forall (fun a : string * string =>
                             a.1 ∈ Loader.setting_names serviceName)
                     (Loader.assigned tr)).
  { revert Hsettings. apply Forall_omap_performed.
    intros [T e t] [name value] Ho Hb.
    destruct e as [c | c | c]; try discriminate.
    destruct c; [discriminate |]. injection Hb as <- <-. apply Ho. }
  rewrite trace_and_then.
  destruct (Loader.portMap js serviceName) as [port |].
  - destruct (assign_string_run "PORT" port w1) as [Ho Ht].
    rewrite Ho, Ht.
    unfold Loader.assigned. rewrite !omap_app. cbn [omap Loader.assigned_of].
    rewrite omap_cons_case. cbn [Loader.assigned_of omap].
    destruct (say_run LLog
                [Text "✅ Environment variables loaded from Vault for ";
                 Text serviceName]
                (after h (Loader.assign js "PORT" (Some (JStr port))) w1))
      as (_ & Hsay & _).
    destruct (waiting_trace _ Hsay) as (_ & Hassigned & _).
    unfold Loader.assigned in Hassigned. rewrite Hassigned.
    rewrite app_nil_r. apply last_snoc.
  - rewrite outcome_ret, trace_ret, after_ret. cbn [app].
    destruct (say_run LLog
                [Text "✅ Environment variables loaded from Vault for ";
                 Text serviceName] w1) as (_ & Hsay & _).
    destruct (waiting_trace _ Hsay) as (_ & Hassigned & _).
    unfold Loader.assigned in *. rewrite omap_app, Hassigned, app_nil_r.
    intros Hin. apply (list_elem_of_fmap fst) in Hin.
    destruct Hin as ([name value] & Hname & Hin). cbn [fst] in Hname.
    subst name. rewrite Forall_forall in Hnames.
    pose proof (Hnames _ Hin) as Hport. cbn [fst] in Hport. revert Hport.
    unfold Loader.setting_names.
    destruct (String.eqb serviceName "auth-service"),
             (String.eqb serviceName "game-service"); listed.
Qed.
(** The [catch] block of the loader, entered with an error. *)
Lemma fallback_run (serviceName : string) (error : JS.error) (w : W) :
  let tr := trace h (Loader.fallback js serviceName (Some error)) w in
  outcome h (Loader.fallback js serviceName (Some error)) w = Normal tt
  /\ Loader.probes tr = [] /\ Loader.requests tr = [] /\ Loader.drawn tr = []
  /\ exists port : option string,
       Loader.looked_up tr = [("PORT", port)]
       /\ Loader.assigned tr
          = match Gateway.set_to port with
            | Some _ => []
            | None =>
                [("PORT", default "3000" (Loader.portMap js serviceName))]
            end.
Proof.
  cbv zeta. unfold Loader.fallback, and_then, Loader.eval, Loader.say.
  cbn [Loader.message_of]. run.
  set (port := (h _ (Loader.Env (Loader.GetEnv "PORT")) _).1).
  destruct (Gateway.set_to port) eqn:Hport.
  - run. repeat split. exists port. fold port. rewrite Hport.
    split; reflexivity.
  - unfold Loader.assign. cbn [JS.text text_of textJ toStringJ]. run.
    repeat split. exists port. fold port. rewrite Hport. split; reflexivity.
Qed.
(** A run of the loader: a line, the wait, and then the [catch] block if the
    wait gave up, the rest of the [try] block if it returned. *)
Lemma loadEnvFromVault_run (serviceName : string) (w : W) :
  exists (tr0 tr1 : list (obs Loader.loadE)) (w2 : W),
    Forall (performed Loader.waiting) tr0 /\ Loader.probes tr0 = []
    /\ Forall (performed Loader.waiting) tr1
    /\ ((Loader.probes tr1 = replicate 30 false
         /\ outcome h (Loader.loadEnvFromVault js serviceName) w
            = outcome h
                (Loader.fallback js serviceName
                   (Some (Error VaultClient.waitForVault_message))) w2
         /\ trace h (Loader.loadEnvFromVault js serviceName) w
            = tr0 ++ tr1
              ++ trace h
                   (Loader.fallback js serviceName
                      (Some (Error VaultClient.waitForVault_message))) w2)
        \/ ((exists k : nat,
               (k < 30)%nat /\ Loader.probes tr1 = replicate k false ++ [true])
            /\ outcome h (Loader.loadEnvFromVault js serviceName) w
               = Normal tt
            /\ trace h (Loader.loadEnvFromVault js serviceName) w
               = tr0 ++ tr1 ++ trace h (Loader.loaded js serviceName) w2)).
Proof.
  unfold Loader.loadEnvFromVault, Loader.try_catch.
  rewrite outcome_bind, trace_bind.
  rewrite !outcome_and_then, !trace_and_then, !after_and_then.
  destruct (say_run LLog
              [Text "🔐 Loading environment variables for ";
               Text serviceName; Text " from Vault..."] w)
    as (Hsay & Hsaid & Hs0).
  rewrite Hsay. revert Hsaid Hs0. clear Hsay.
  generalize (trace h (Loader.say LLog
                [Text "🔐 Loading environment variables for ";
                 Text serviceName; Text " from Vault..."]) w).
  generalize (after h (Loader.say LLog
                [Text "🔐 Loading environment variables for ";
                 Text serviceName; Text " from Vault..."]) w).
  intros w1 tr0 Hsaid Hs0.
  pose proof (calls_only_trace h _ _ w1 (ready_waiting serviceName)) as Hr.
  exists tr0, (trace h (Loader.ready serviceName) w1),
    (after h (Loader.ready serviceName) w1).
  split; [exact Hsaid |]. split; [exact Hs0 |]. split; [exact Hr |].
  destruct (ready_run h serviceName w1)
    as [(Hready & Hprobes) | (Hready & k & Hk & Hprobes)]; rewrite Hready;
    cbv beta iota.
  - left. split; [exact Hprobes |]. rewrite app_nil_r, <- app_assoc.
    split; reflexivity.
  - right. split; [exists k; split; assumption |].
    rewrite (returns_only_outcome h _ _ _ (loaded_normal serviceName)).
    rewrite outcome_ret, trace_ret, app_nil_r.
    split; reflexivity.
Qed.
End Falling.

(** X17. [loadEnvFromVault] never rejects, and its [catch] block runs
    exactly when the wait gave up after thirty rejected health requests.
    Then no request for a document was made and no random byte drawn,
    [PORT] was looked up once, and it alone was assigned, and only if it
    was unset or empty: the port of the service, or 3000. Otherwise the
    wait returned at the first health request that was answered, the
    environment was never looked up, and [PORT] is the last variable
    assigned, to the port of the service, whatever it held; it is not
    assigned for a service that has no port. *)
Theorem loadEnvFromVault_falls_back_iff_wait_fails
    {W : Type} (js : engine) (h : handler Loader.loadE W) (w : W)
    (serviceName : string) :
  let r := outcome h (Loader.loadEnvFromVault js serviceName) w in
  let tr := trace h (Loader.loadEnvFromVault js serviceName) w in
  r = Normal tt
  /\ ((Loader.probes tr = replicate 30 false
       /\ Loader.requests tr = [] /\ Loader.drawn tr = []
       /\ exists port : option string,
            Loader.looked_up tr = [("PORT", port)]
            /\ Loader.assigned tr
               = match Gateway.set_to port with
                 | Some _ => []
                 | None =>
                     [("PORT",
                       default "3000" (Loader.portMap js serviceName))]
                 end)
      \/ ((exists k : nat,
             (k < 30)%nat /\ Loader.probes tr = replicate k false ++ [true])
          /\ Loader.looked_up tr = []
          /\ match Loader.portMap js serviceName with
             | Some port => last (Loader.assigned tr) = Some ("PORT", port)
             | None => "PORT" ∉ map fst (Loader.assigned tr)
             end)).
Proof.
  cbv zeta.
  destruct (loadEnvFromVault_run js h serviceName w)
    as (tr0 & tr1 & w2 & Hsaid & Hs0 & Hr
        & [(Hprobes & Hout & Htr) | ((k & Hk & Hprobes) & Hout & Htr)]);
    rewrite Hout, Htr; clear Hout Htr;
    destruct (waiting_trace _ Hsaid) as (Hs1 & Hs2 & Hs3 & Hs4);
    destruct (waiting_trace _ Hr) as (Hr1 & Hr2 & Hr3 & Hr4).
  - destruct (fallback_run js h serviceName
                (Error VaultClient.waitForVault_message) w2)
      as (Hout & Hf0 & Hf1 & Hf3 & port & Hf4 & Hf2).
    rewrite Hout. split; [reflexivity |]. left.
    revert Hf0 Hf1 Hf3 Hf4 Hf2. clear Hout.
    generalize (trace h (Loader.fallback js serviceName
                  (Some (Error VaultClient.waitForVault_message))) w2).
    intros tr2 Hf0 Hf1 Hf3 Hf4 Hf2.
    unfold Loader.probes, Loader.requests, Loader.drawn, Loader.looked_up,
      Loader.assigned in *.
    rewrite !omap_app, Hs0, Hs1, Hs2, Hs3, Hs4, Hr1, Hr2, Hr3, Hr4, Hprobes,
      Hf0, Hf1, Hf3, Hf4, Hf2.
    rewrite !app_nil_r. cbn [app].
    split; [reflexivity |]. split; [reflexivity |].
    split; [reflexivity |]. exists port. split; reflexivity.
  - destruct (loaded_run js h serviceName w2) as (_ & Hp & Hl & Hport).
    split; [reflexivity |]. right. revert Hp Hl Hport.
    generalize (trace h (Loader.loaded js serviceName) w2).
    intros tr2 Hp Hl Hport.
    unfold Loader.probes, Loader.requests, Loader.drawn, Loader.looked_up,
      Loader.assigned in *.
    rewrite !omap_app, Hs0, Hs2, Hs4, Hr2, Hr4, Hprobes, Hp, Hl.
    rewrite !app_nil_r. cbn [app].
    split; [exists k; split; [exact Hk | reflexivity] |].
    split; [reflexivity | exact Hport].
Qed.


Section Signing.
Context {W : Type} (js : engine) (h : handler Loader.loadE W).




End Signing.

Lemma filter_none {A} (P : A -> Prop) `{forall x, Decision (P x)}
    (l : list A) :
  Forall (fun x => ~ P x) l -> filter P l = [].
Proof.
  induction 1 as [| x l Hx _ IH]; [reflexivity |].
  rewrite filter_cons_False by exact Hx. exact IH.
Qed.


Section Key.
Context {W : Type} (js : engine) (h : handler Loader.loadE W).






End Key.



(* --------------------------------------------------------------------- *)
(** ** The earlier clients *)
(* --------------------------------------------------------------------- *)

Section Before.
Context {W : Type} (js : engine) (h : handler Loader.loadE W).

Lemma legacy_waitForVault_from_run {V : Type} (g : handler clientE V)
    (serviceName : jsval) (remaining i maxRetries : nat) (v : V) :
  let r := outcome g
             (Legacy.waitForVault_from serviceName i remaining maxRetries) v in
  let tr := trace g
              (Legacy.waitForVault_from serviceName i remaining maxRetries) v in
  attempts tr = []
  /\ ((r = Err (Error VaultClient.waitForVault_message)
       /\ probes tr = replicate remaining false
       /\ sleeps tr = replicate remaining 2000%Q)
      \/ (r = Ok tt
          /\ exists k : nat, (k < remaining)%nat
               /\ probes tr = replicate k false ++ [true]
               /\ sleeps tr = replicate k 2000%Q)).
Proof.
  cbv zeta. revert i v.
  induction remaining as [| remaining IH]; intros i v.
  - cbn [Legacy.waitForVault_from]. run. split; [reflexivity |].
    left. repeat split.
  - cbn [Legacy.waitForVault_from]. run.
    destruct (g _ MakeHealthRequest v) as [[[] | error] v1]; run.
    + split; [reflexivity |]. right. split; [reflexivity |].
      exists 0%nat. split; [lia |]. split; reflexivity.
    + match goal with
      | |- context [trace g _ ?v'] =>
          destruct (IH (S i) v')
            as (Ha & [(Hr & Hp & Hs) | (Hr & k & Hk & Hp & Hs)])
      end.
      * split; [exact Ha |]. left. rewrite Hr. split; [reflexivity |].
        unfold probes, sleeps in *. rewrite !omap_cons_case.
        cbn [probe_of sleep_of is_ok]. rewrite Hp, Hs. split; reflexivity.
      * split; [exact Ha |]. right. rewrite Hr. split; [reflexivity |].
        exists (S k). split; [lia |].
        unfold probes, sleeps in *. rewrite !omap_cons_case.
        cbn [probe_of sleep_of is_ok]. rewrite Hp, Hs. split; reflexivity.
Qed.

Lemma eval_throw_run {A B} (t : option JS.error)
    (q : A -> Loader.lprog (completion B)) (w : W) :
  outcome h (and_then (Loader.eval (Throw t)) q) w
  = Throw t
  /\ trace h (and_then (Loader.eval (Throw t)) q) w = [].
Proof. split; reflexivity. Qed.

Lemma getDatabaseConfig_run {V : Type} (g : handler clientE V) (v : V) :
  outcome g (VaultClient.getDatabaseConfig js) v
  = VaultClient.unwrap js "Failed to get database config: "
      (settled (g _ (Request "/api/database/config") v).1)
  /\ trace g (VaultClient.getDatabaseConfig js) v
     = [Obs (Request "/api/database/config")
          (g _ (Request "/api/database/config") v).1]
  /\ after g (VaultClient.getDatabaseConfig js) v
     = (g _ (Request "/api/database/config") v).2.
Proof.
  unfold VaultClient.getDatabaseConfig, makeRequest. run. repeat split.
Qed.

Lemma requests_seen (tr : list (obs clientE)) :
  attempts tr = [] -> Loader.requests (map (seen (@Loader.Client)) tr) = [].
Proof.
  unfold Loader.requests, attempts.
  induction tr as [| [T e t] tr IH]; [reflexivity |].
  cbn [map]. rewrite !omap_cons_case.
  destruct e; cbn [attempt_of Loader.request_of seen];
    try (intros Ha; apply IH, Ha).
  discriminate.
Qed.

Lemma assigned_seen (tr : list (obs clientE)) :
  Loader.assigned (map (seen (@Loader.Client)) tr) = [].
Proof.
  unfold Loader.assigned.
  induction tr as [| [T e t] tr IH]; [reflexivity |].
  cbn [map]. rewrite omap_cons_case. exact IH.
Qed.
End Before.

(** X19. The loader of the earlier client is rejected in every run and
    assigns no variable of the environment: either its wait gives up after
    thirty rejected health requests, or its one request, for the
    configuration of the database, fails, or the configuration arrives
    without its function and the call of [dbConfig.getDatabaseUrl] throws a
    [TypeError]. No other request is ever made. *)
Theorem legacy_loadEnvFromVault_always_rejects
    {W : Type} (js : engine) (h : handler Loader.loadE W) (w : W)
    (serviceName : string) :
  let r := outcome h (Legacy.loadEnvFromVault js serviceName) w in
  let tr := trace h (Legacy.loadEnvFromVault js serviceName) w in
  (exists error : JS.error, r = Throw (Some error))
  /\ Loader.assigned tr = []
  /\ ((Loader.probes tr = replicate 30 false /\ Loader.requests tr = [])
      \/ ((exists k : nat,
             (k < 30)%nat /\ Loader.probes tr = replicate k false ++ [true])
          /\ Loader.requests tr = ["/api/database/config"])).
Proof.
  cbv zeta. unfold Legacy.loadEnvFromVault, Loader.try_catch.
  rewrite outcome_bind, trace_bind, ?after_bind.
  rewrite outcome_and_then, trace_and_then, ?after_and_then.
  rewrite outcome_bind, trace_bind, ?after_bind.
  rewrite outcome_lift, trace_lift, ?after_lift.
  unfold Legacy.waitForVault. cbn [default].
  destruct (legacy_waitForVault_from_run (within (@Loader.Client) h)
              (Some (JStr serviceName)) 30 0 30 w)
    as (Hatt & [(Hr & Hp & _) | (Hr & k & Hk & Hp & _)]);
    rewrite Hr; clear Hr;
    pose proof (requests_seen _ Hatt) as Hreq;
    pose proof (assigned_seen
                  (trace (within (@Loader.Client) h)
                     (Legacy.waitForVault_from (Some (JStr serviceName))
                        0 30 30) w)) as Hass;
    rewrite <- probes_seen in Hp; revert Hreq Hass Hp; clear Hatt;
    generalize (map (seen (@Loader.Client))
                  (trace (within (@Loader.Client) h)
                     (Legacy.waitForVault_from (Some (JStr serviceName))
                        0 30 30) w));
    generalize (after (within (@Loader.Client) h)
                  (Legacy.waitForVault_from (Some (JStr serviceName))
                     0 30 30) w);
    intros w1 tr1 Hreq Hass Hp.
  - rewrite outcome_ret, trace_ret, ?after_ret, app_nil_r.
    cbv beta iota. unfold call. cbn [bind].
    rewrite outcome_vis, trace_vis, outcome_ret, trace_ret.
    split; [eexists; reflexivity |].
    unfold Loader.assigned, Loader.requests, Loader.probes in *.
    rewrite !omap_app, Hass, Hreq, Hp. cbn [app omap].
    split; [reflexivity |]. left. rewrite app_nil_r. split; reflexivity.
  - rewrite outcome_ret, trace_ret, ?after_ret, app_nil_r.
    cbv beta iota.
    rewrite outcome_and_then, trace_and_then, ?after_and_then.
    rewrite outcome_lift, trace_lift, ?after_lift.
    unfold Legacy.getDatabaseConfig.
    destruct (getDatabaseConfig_run js (within (@Loader.Client) h) w1)
      as (Ho & Ht & Ha).
    rewrite Ho, Ht, ?Ha. clear Ho Ht Ha.
    change (within (@Loader.Client) h _ (Request "/api/database/config")
              w1)
      with (h _ (Loader.Client (Request "/api/database/config")) w1).
    destruct (h _ (Loader.Client (Request "/api/database/config")) w1)
      as [answer w2]. cbn [fst snd map seen].
    pose proof (unwrap_throws js "Failed to get database config: "
                  (settled answer)) as Hthrown.
    destruct (VaultClient.unwrap js "Failed to get database config: "
                (settled answer))
      as [dbConfig | thrown].
    + unfold call_method.
      match goal with
      | |- context [and_then (Loader.eval (Throw ?t)) ?q] =>
          destruct (eval_throw_run h t q w2) as [Ho Ht]; rewrite Ho, Ht;
          clear Ho Ht
      end.
      cbv beta iota. unfold call. cbn [bind].
    rewrite outcome_vis, trace_vis, outcome_ret, trace_ret.
      split; [eexists; reflexivity |].
      unfold Loader.assigned, Loader.requests, Loader.probes in *.
      rewrite !omap_app, Hass, Hreq, Hp. cbn [app].
      rewrite !omap_cons_case.
      cbn [Loader.assigned_of Loader.request_of Loader.probe_of omap].
      rewrite !app_nil_r.
      split; [reflexivity |]. right.
      split; [exists k; split; [exact Hk | reflexivity] | reflexivity].
    + destruct (Hthrown thrown eq_refl) as [error ->].
      cbv beta iota. unfold call. cbn [bind].
    rewrite outcome_vis, trace_vis, outcome_ret, trace_ret.
      split; [eexists; reflexivity |].
      unfold Loader.assigned, Loader.requests, Loader.probes in *.
      rewrite !omap_app, Hass, Hreq, Hp. cbn [app].
      rewrite !omap_cons_case.
      cbn [Loader.assigned_of Loader.request_of Loader.probe_of omap].
      rewrite !app_nil_r.
      split; [reflexivity |]. right.
      split; [exists k; split; [exact Hk | reflexivity] | reflexivity].
Qed.

Section Fetched.
Context {W : Type} (h : handler Fetching.fetchE W).

Lemma fetching_waitForVault_from_run (baseUrl : string) (serviceName : jsval)
    (remaining i maxRetries : nat) (w : W) :
  let r := outcome h
             (Fetching.waitForVault_from baseUrl serviceName i remaining
                maxRetries) w in
  let tr := trace h
              (Fetching.waitForVault_from baseUrl serviceName i remaining
                 maxRetries) w in
  Fetching.timers tr
  = replicate (length (filter (fun a => is_ok a = false)
                         (Fetching.answers tr))) 2000
  /\ match r with
     | Ok _ =>
         exists front,
           Fetching.answers tr = front ++ [Ok true]
           /\ (length front < remaining)%nat
           /\ Forall (fun a => Fetching.is_ready a = false) front
     | Err error =>
         error = Error Fetching.waitForVault_message
         /\ length (Fetching.answers tr) = remaining
         /\ Forall (fun a => Fetching.is_ready a = false)
              (Fetching.answers tr)
     end.
Proof.
  cbv zeta. revert i w.
  induction remaining as [| remaining IH]; intros i w.
  - cbn [Fetching.waitForVault_from]. run. split; [reflexivity |].
    split; [reflexivity |]. split; [reflexivity | constructor].
  - cbn [Fetching.waitForVault_from]. run.
    destruct (h _ (Fetching.Fetch (baseUrl +:+ "/health")) w)
      as [[[|] | error] w1]; run.
    + split; [reflexivity |]. exists []. split; [reflexivity |].
      split; [simpl; lia | constructor].
    + destruct (IH (S i) w1) as [Ht Hr]. unfold Fetching.timers,
        Fetching.answers in *. rewrite !omap_cons_case.
      cbn [Fetching.timer_of Fetching.answer_of].
      rewrite filter_cons_False by discriminate.
      split; [exact Ht |].
      destruct (outcome h _ w1) as [[] | error].
      * destruct Hr as (front & Ha & Hlen & Hall). exists (Ok false :: front).
        rewrite Ha. split; [reflexivity |]. split; [simpl; lia |].
        constructor; [reflexivity | exact Hall].
      * destruct Hr as (-> & Hlen & Hall). split; [reflexivity |].
        split; [simpl; rewrite Hlen; reflexivity |].
        constructor; [reflexivity | exact Hall].
    + match goal with
      | |- context [trace h _ ?w'] => destruct (IH (S i) w') as [Ht Hr]
      end.
      unfold Fetching.timers, Fetching.answers in *.
      rewrite !omap_cons_case. cbn [Fetching.timer_of Fetching.answer_of].
      rewrite filter_cons_True by reflexivity. cbn [length replicate].
      rewrite Ht. split; [reflexivity |].
      match goal with
      | |- context [outcome h ?p ?w'] =>
          destruct (outcome h p w') as [[] | error']
      end.
      * destruct Hr as (front & Ha & Hlen & Hall).
        exists (Err error :: front).
        rewrite Ha. split; [reflexivity |]. split; [simpl; lia |].
        constructor; [reflexivity | exact Hall].
      * destruct Hr as (-> & Hlen & Hall). split; [reflexivity |].
        split; [simpl; rewrite Hlen; reflexivity |].
        constructor; [reflexivity | exact Hall].
Qed.
End Fetched.

(** X20. The wait of the client written against [fetch] pauses two seconds
    after each fetch that is rejected, and after no other: an answer that
    is not [ok] is followed at once by the next fetch. It resolves at the
    first answer that is [ok], among at most [maxRetries] fetches (30 by
    default), and is rejected after exactly that many otherwise. So a
    gateway that answers every time, and never [ok], is asked [maxRetries]
    times in a row without a pause. *)
Theorem fetching_waitForVault_pauses_on_rejection_only
    {W : Type} (h : handler Fetching.fetchE W) (w : W)
    (baseUrl : string) (serviceName : jsval) (maxRetries : option nat) :
  let n := default 30%nat maxRetries in
  let r := outcome h (Fetching.waitForVault baseUrl serviceName maxRetries) w in
  let tr := trace h (Fetching.waitForVault baseUrl serviceName maxRetries) w in
  Fetching.timers tr
  = replicate (length (filter (fun a => is_ok a = false)
                         (Fetching.answers tr))) 2000
  /\ match r with
     | Ok _ =>
         exists front,
           Fetching.answers tr = front ++ [Ok true]
           /\ (length front < n)%nat
           /\ Forall (fun a => Fetching.is_ready a = false) front
     | Err error =>
         error = Error Fetching.waitForVault_message
         /\ length (Fetching.answers tr) = n
         /\ Forall (fun a => Fetching.is_ready a = false)
              (Fetching.answers tr)
     end
  /\ (Forall (fun a => a = Ok false) (Fetching.answers tr) ->
      is_err r = true /\ length (Fetching.answers tr) = n
      /\ Fetching.timers tr = []).
Proof.
  cbv zeta. unfold Fetching.waitForVault.
  destruct (fetching_waitForVault_from_run h baseUrl serviceName
              (default 30%nat maxRetries) 0 (default 30%nat maxRetries) w)
    as [Ht Hr].
  revert Ht Hr.
  generalize (outcome h
                (Fetching.waitForVault_from baseUrl serviceName 0
                   (default 30%nat maxRetries) (default 30%nat maxRetries)) w).
  generalize (trace h
                (Fetching.waitForVault_from baseUrl serviceName 0
                   (default 30%nat maxRetries) (default 30%nat maxRetries)) w).
  intros tr r Ht Hr. split; [exact Ht |]. split; [exact Hr |].
  intros Hall.
  assert (Hnone : filter (fun a : result bool => is_ok a = false)
                    (Fetching.answers tr) = []).
  { apply filter_none. eapply Forall_impl; [exact Hall |].
    intros a ->. discriminate. }
  rewrite Hnone in Ht. destruct r as [[] | error].
  - destruct Hr as (front & Ha & _). rewrite Ha in Hall.
    apply Forall_app in Hall. destruct Hall as [_ Hlast].
    inversion Hlast as [| ? ? Heq]. discriminate Heq.
  - destruct Hr as (_ & Hlen & _). split; [reflexivity |].
    split; [exact Hlen | exact Ht].
Qed.

(* --------------------------------------------------------------------- *)
(** ** What a mask tells of the length of a secret *)
(* --------------------------------------------------------------------- *)

Lemma maskSecret_long (secret : string) (visibleChars : option Z) :
  (0 <= default 4 visibleChars < Z.of_nat (String.length secret))%Z ->
  SecretManager.chars (SecretManager.maskSecret secret visibleChars)
  = take (Z.to_nat (default 4 visibleChars)) (SecretManager.chars secret)
    ++ replicate
         (Z.to_nat (Z.min (Z.of_nat (String.length secret)
                           - default 4 visibleChars) 8)) "*"%char.
Proof.
  intros Hv. unfold SecretManager.maskSecret.
  assert (Hne : String.eqb secret "" = false).
  { apply String.eqb_neq. intros ->. simpl in Hv. lia. }
  assert (Hgt : (Z.of_nat (String.length secret)
                   <=? default 4 visibleChars)%Z = false).
  { apply Z.leb_gt. lia. }
  rewrite Hne, Hgt. cbn [orb].
  rewrite chars_append, chars_prefix, chars_repeat_star. reflexivity.
Qed.

(** X21. With a number [v] of visible characters that is not negative (4
    when none is given), the mask of a secret of more than [v] characters
    has [v + min(n - v, 8)] characters, [n] being the length of the secret.
    So the mask of a secret of up to [v + 8] characters is as long as the
    secret, and its length is told; from [v + 8] characters on, the mask
    has [v + 8] characters and two secrets that start with the same [v]
    characters have the same mask, whatever their lengths. *)
Theorem maskSecret_tells_short_lengths
    (secret secret' : string) (visibleChars : option Z) :
  let v := default 4 visibleChars in
  let n := Z.of_nat (String.length secret) in
  let n' := Z.of_nat (String.length secret') in
  (0 <= v)%Z ->
  ((v < n)%Z ->
   Z.of_nat (String.length (SecretManager.maskSecret secret visibleChars))
   = (v + Z.min (n - v) 8)%Z)
  /\ ((v < n <= v + 8)%Z ->
      String.length (SecretManager.maskSecret secret visibleChars)
      = String.length secret)
  /\ ((v + 8 <= n)%Z -> (v + 8 <= n')%Z ->
      take (Z.to_nat v) (SecretManager.chars secret')
      = take (Z.to_nat v) (SecretManager.chars secret) ->
      SecretManager.maskSecret secret' visibleChars
      = SecretManager.maskSecret secret visibleChars).
Proof.
  cbv zeta. intros Hv.
  assert (Hlen : (default 4 visibleChars
                  < Z.of_nat (String.length secret))%Z ->
            Z.of_nat (String.length
                        (SecretManager.maskSecret secret visibleChars))
            = (default 4 visibleChars
               + Z.min (Z.of_nat (String.length secret)
                        - default 4 visibleChars) 8)%Z).
  { intros Hn. rewrite <- chars_length, maskSecret_long by lia.
    rewrite length_app, length_take, length_replicate, chars_length. lia. }
  split; [exact Hlen |]. split.
  - intros Hn. apply Nat2Z.inj. rewrite Hlen by lia. lia.
  - intros Hn Hn' Htake. apply chars_inj.
    rewrite !maskSecret_long by lia. rewrite Htake.
    f_equal. f_equal. lia.
Qed.

Lemma maskSecret_tells_short_lengths_witness :
  String.length (SecretManager.maskSecret "hunter2" None) = 7%nat
  /\ SecretManager.maskSecret "0123456789abcdef" None
     = SecretManager.maskSecret "0123456789ab" None.
Proof.
  destruct (maskSecret_tells_short_lengths "hunter2" "hunter2" None
              ltac:(simpl; lia)) as (_ & Hshort & _).
  destruct (maskSecret_tells_short_lengths "0123456789ab" "0123456789abcdef"
              None ltac:(simpl; lia)) as (_ & _ & Hlong).
  split.
  - apply Hshort. simpl. lia.
  - apply Hlong; [simpl; lia | simpl; lia | reflexivity].
Defined.

(* --------------------------------------------------------------------- *)
(** ** The start of the process *)
(* --------------------------------------------------------------------- *)

Section Starting.
Context {W : Type} (h : handler vaultE W).

(** [initialize], by the health checks of its wait. *)
Lemma initialize_by_wait (this : manager) (w : W) :
  let r := outcome h (initialize this) w in
  let tr := trace h (initialize this) w in
  (r = (this, Err (Error VaultManager.waitForVault_message))
   /\ health_answers tr = replicate 30 false
   /\ installs tr = [] /\ writes tr = [])
  \/ (r = (Manager true, Ok tt)
      /\ exists k : nat,
           (k < 30)%nat /\ health_answers tr = replicate k false ++ [true]).
Proof.
  cbv zeta.
  unfold initialize, VaultManager.waitForVault. generalize 30%nat. intros n.
  run.
  set (w1 := (h _ (VaultManager.Console LLog
                     [Text "🔐 Initializing Vault..."]) w).2).
  pose proof (waitForVault_from_run h n 0 n w1) as Hwait. simpl in Hwait.
  destruct (idle_trace h (VaultManager.waitForVault_from 0 n n) w1
              (waitForVault_from_idle n 0 n)) as (Hi0 & Hr0 & Hw0).
  unfold installs, reads, writes in *.
  destruct Hwait as [(Hr & Hh & Ht) | (Hr & k & Hk & Hh & Ht)].
  - left. rewrite Hr. run.
    rewrite health_answers_cons, health_answers_app, Hh.
    rewrite !omap_cons_case, !omap_app, Hi0, Hw0.
    simpl. rewrite !app_nil_r. repeat split.
  - right. rewrite Hr. run.
    set (w2 := after h (VaultManager.waitForVault_from 0 n n) w1).
    rewrite !(returns_only_outcome h _ setupPolicies w2 setupPolicies_resolves).
    run.
    set (w3 := after h setupPolicies w2).
    rewrite !(returns_only_outcome h _ storeInitialSecrets w3
                storeInitialSecrets_resolves).
    run.
    rewrite health_answers_cons.
    rewrite !health_answers_app, Hh.
    destruct (quiet_no_health h setupPolicies w2 setupPolicies_quiet)
      as [-> _].
    destruct (quiet_no_health h storeInitialSecrets w3 storeInitialSecrets_quiet)
      as [-> _].
    simpl. rewrite !app_nil_r. split; [reflexivity |].
    exists k. split; [exact Hk | reflexivity].
Qed.
End Starting.

(** X22. For every behaviour of the backing store, [startServer] ends the
    process, with code 1, exactly when the thirty health checks of the wait
    were all rejected: it has then printed the failure, and touched neither
    a policy nor a document. In every other run the manager is initialized
    and the server listens; no other exit code occurs. *)
Theorem startServer_exits_iff_wait_exhausted
    {W : Type} (h : handler vaultE W) (w : W) (this : manager) :
  let r := outcome h (Server.startServer this) w in
  let tr := trace h (Server.startServer this) w in
  (r.2 = Server.Exited 1 <-> health_answers tr = replicate 30 false)
  /\ match r.2 with
     | Server.Listening =>
         isInitialized r.1 = true
         /\ exists k : nat,
              (k < 30)%nat /\ health_answers tr = replicate k false ++ [true]
     | Server.Exited code =>
         code = 1 /\ r.1 = this /\ installs tr = [] /\ writes tr = []
         /\ last (Gateway.printed tr)
            = Some (LError,
                    [Text "❌ Failed to start Vault Service:";
                     Msg (Some (Error VaultManager.waitForVault_message))])
     end.
Proof.
  cbv zeta. unfold Server.startServer. run.
  generalize ((h _ (VaultManager.Console LLog
                      [Text "🚀 Starting Vault Service..."]) w).2).
  intros w1.
  destruct (initialize_by_wait h this w1)
    as [(Hr & Hh & Hi & Hw) | (Hr & k & Hk & Hh)];
    rewrite Hr; revert Hh; try revert Hi Hw; clear Hr;
    generalize (trace h (initialize this) w1);
    generalize (after h (initialize this) w1).
  - intros w2 tr Hi Hw Hh. cbv beta iota. run.
    unfold installs, writes in *.
    rewrite health_answers_cons, health_answers_app, Hh.
    rewrite !omap_cons_case, !omap_app, Hi, Hw.
    cbn [health_answer install_of write_of omap app].
    rewrite app_nil_r.
    split; [split; reflexivity |].
    split; [reflexivity |]. split; [reflexivity |].
    split; [reflexivity |]. split; [reflexivity |].
    unfold Gateway.printed. rewrite omap_cons_case, omap_app.
    cbn [Gateway.printed_of].
    rewrite (omap_cons_case Gateway.printed_of). cbn [Gateway.printed_of omap].
    rewrite app_comm_cons. apply last_snoc.
  - intros w2 tr Hh. cbv beta iota. run.
    rewrite health_answers_cons, health_answers_app, Hh.
    cbn [health_answer omap app]. rewrite app_nil_r.
    split.
    + split; [discriminate |]. intros Heq. exfalso.
      assert (Hin : true ∈ replicate 30 false).
      { rewrite <- Heq. apply elem_of_app. right.
        apply list_elem_of_singleton. reflexivity. }
      apply elem_of_replicate in Hin. destruct Hin as [Hin _]. discriminate.
    + split; [reflexivity |]. exists k. split; [exact Hk | reflexivity].
Qed.
